(** * HouseScraper: the scrape, normalise, dedupe, cache and sort pipeline of app.py

    A shallow embedding of the pure and stateful parts of [src/app.py]:
    the properties its specification states about them and further
    properties of the code, which also cover the routes, the searches
    from the links of a page on, and the extractors that work on plain
    text.

    Conventions of the embedding:
    - a Python [str] is a list of Unicode code points ([list N]);
    - [Optional[T]] is [option T]; a raised exception is the [Raise] case of
      [result];
    - a Python [float] is an IEEE-754 binary64 value ([spec_float] with
      [prec = 53], [emax = 1024]);
    - the parts of the Unicode character database that the code consults
      through [str.lower], [\b] and [re.I] are a parameter ([UnicodeData]);
    - the web (the three sites, requests, Playwright, BeautifulSoup) is a
      parameter of [refresh_cache]: an oracle answering each search and each
      detail fetch, with a log of the calls made;
    - the detail parsers, which work on BeautifulSoup trees, [extract_price_text]
      and the link filter of [domain_search_urls], whose patterns use line and
      end anchors, and the templates are not embedded. *)

From Stdlib Require Import ZArith NArith List Bool Lia String Ascii.
From Stdlib Require Import Floats.SpecFloat Floats.PrimFloat Floats.FloatOps.
From stdpp Require Import base option list gmap sorting.

Set Warnings "-clear-no-such-hyp".

Local Open Scope N_scope.

(** ** Python strings *)

Definition pystr := list N.

(** A UTF-8 decoder, so that string literals of this file can be written as
    they are in the source. *)
Fixpoint utf8_decode (bs : list N) : pystr :=
  match bs with
  | [] => []
  | b :: r =>
      if b <? 128 then b :: utf8_decode r
      else if b <? 224 then
        match r with
        | c1 :: r1 => ((b - 192) * 64 + (c1 - 128)) :: utf8_decode r1
        | _ => []
        end
      else if b <? 240 then
        match r with
        | c1 :: c2 :: r2 =>
            ((b - 224) * 4096 + (c1 - 128) * 64 + (c2 - 128)) :: utf8_decode r2
        | _ => []
        end
      else
        match r with
        | c1 :: c2 :: c3 :: r3 =>
            ((b - 240) * 262144 + (c1 - 128) * 4096 + (c2 - 128) * 64 + (c3 - 128))
              :: utf8_decode r3
        | _ => []
        end
  end.

Definition u (s : string) : pystr :=
  utf8_decode (map N_of_ascii (list_ascii_of_string s)).

Definition chr (a : ascii) : N := N_of_ascii a.

Definition in_range (lo hi c : N) : bool := (lo <=? c) && (c <=? hi).

Definition is_ascii (c : N) : bool := c <? 128.
Definition is_digit (c : N) : bool := in_range 48 57 c.          (* [0-9] *)
Definition is_ascii_lower (c : N) : bool := in_range 97 122 c.   (* [a-z] *)
Definition is_ascii_upper (c : N) : bool := in_range 65 90 c.    (* [A-Z] *)
Definition is_ascii_alpha (c : N) : bool := is_ascii_lower c || is_ascii_upper c.

Definition ascii_tolower (c : N) : N := if is_ascii_upper c then c + 32 else c.

(** [Py_UNICODE_ISSPACE]: what [str.strip()] strips and [\s] matches. *)
Definition py_isspace (c : N) : bool :=
  in_range 9 13 c || in_range 28 32 c || (c =? 133) || (c =? 160)
  || (c =? 5760) || in_range 8192 8202 c || (c =? 8232) || (c =? 8233)
  || (c =? 8239) || (c =? 8287) || (c =? 12288).

(** The Unicode character database, for code points outside ASCII. *)
Class UnicodeData := {
  (* [Py_UNICODE_TOLOWER]: the simple lower-case mapping, used by [re.I] *)
  uni_tolower : N -> N;
  (* the full lower-case mapping of the character at index [i] of [s], as
     [str.lower] applies it (it may yield several code points, and for a
     capital sigma it depends on the neighbours) *)
  uni_lower_full : pystr -> nat -> N -> pystr;
  (* [Py_UNICODE_ISALNUM] *)
  uni_isalnum : N -> bool
}.

(** A database that knows no letter outside ASCII; closed examples on ASCII
    text use it. *)
Definition ascii_only : UnicodeData :=
  {| uni_tolower := fun c => c;
     uni_lower_full := fun _ _ c => [c];
     uni_isalnum := fun _ => false |}.

Section Strings.
Context {U : UnicodeData}.

Definition py_tolower (c : N) : N :=
  if is_ascii c then ascii_tolower c else uni_tolower c.

Definition py_isalnum (c : N) : bool :=
  if is_ascii c then is_digit c || is_ascii_alpha c else uni_isalnum c.

(** [\w] of a [str] pattern. *)
Definition is_word (c : N) : bool := py_isalnum c || (c =? 95).

Fixpoint lower_from (s : pystr) (i : nat) (cs : pystr) : pystr :=
  match cs with
  | [] => []
  | c :: t =>
      (if is_ascii c then [ascii_tolower c] else uni_lower_full s i c)
        ++ lower_from s (S i) t
  end.

(** [s.lower()] *)
Definition py_lower (s : pystr) : pystr := lower_from s 0 s.
End Strings.

Fixpoint lstrip_with (p : N -> bool) (s : pystr) : pystr :=
  match s with
  | c :: t => if p c then lstrip_with p t else s
  | [] => []
  end.

Definition rstrip_with (p : N -> bool) (s : pystr) : pystr :=
  reverse (lstrip_with p (reverse s)).

(** [s.strip()] *)
Definition py_strip (s : pystr) : pystr :=
  rstrip_with py_isspace (lstrip_with py_isspace s).

(** [s.replace(c, "")] for a one-character [c]. *)
Definition remove_char (c : N) (s : pystr) : pystr :=
  filter (fun x => x ≠ c) (s : list N).

(** Python truthiness of an optional string: [x or y]. *)
Definition truthy (x : option pystr) : option pystr :=
  match x with
  | Some (c :: t) => Some (c :: t)
  | _ => None
  end.

(** ** Regular expressions: the fragment of [re] the program uses

    A backtracking matcher with Python's priorities: alternatives are
    tried left to right, repetition is greedy, and [search] returns the
    leftmost match. *)

Inductive regex :=
| Eps
| Chr (p : N -> bool)
| Seq (r1 r2 : regex)
| Alt (r1 r2 : regex)
| Star (r : regex)
| Group (i : nat) (r : regex)
| WordB.

Record mstate := MState {
  ms_prev : option N;             (* the character before the position *)
  ms_rest : pystr;                (* the text from the position on *)
  ms_caps : list (nat * pystr)    (* the groups set so far, latest first *)
}.

Definition consumed (st st' : mstate) : pystr :=
  take (length (ms_rest st) - length (ms_rest st')) (ms_rest st).

Definition set_cap (i : nat) (st st' : mstate) : mstate :=
  MState (ms_prev st') (ms_rest st') ((i, consumed st st') :: ms_caps st').

Fixpoint get_cap (i : nat) (caps : list (nat * pystr)) : option pystr :=
  match caps with
  | [] => None
  | (j, s) :: t => if Nat.eqb i j then Some s else get_cap i t
  end.

Section Regex.
Context {U : UnicodeData}.

Definition at_word (o : option N) : bool :=
  match o with Some c => is_word c | None => false end.

(* The greedy loop of a repetition: [body] once more, as long as it
   advances, and else the rest of the pattern. *)
Fixpoint star_loop {R : Type}
    (body : mstate -> (mstate -> option R) -> option R)
    (k : mstate -> option R) (fuel : nat) (st : mstate) : option R :=
  match fuel with
  | O => k st
  | S f =>
      match body st (fun st' =>
              if (length (ms_rest st') <? length (ms_rest st))%nat
              then star_loop body k f st' else None) with
      | Some x => Some x
      | None => k st
      end
  end.

Fixpoint rmatch {R : Type} (r : regex) (st : mstate)
    (k : mstate -> option R) : option R :=
  match r with
  | Eps => k st
  | Chr p =>
      match ms_rest st with
      | c :: t => if p c then k (MState (Some c) t (ms_caps st)) else None
      | [] => None
      end
  | Seq r1 r2 => rmatch r1 st (fun st' => rmatch r2 st' k)
  | Alt r1 r2 =>
      match rmatch r1 st k with
      | Some x => Some x
      | None => rmatch r2 st k
      end
  | Star r1 => star_loop (rmatch r1) k (length (ms_rest st)) st
  | Group i r1 => rmatch r1 st (fun st' => k (set_cap i st st'))
  | WordB =>
      if xorb (at_word (ms_prev st)) (at_word (head (ms_rest st)))
      then k st else None
  end.

(** One attempt at the current position; [must_advance] refuses an empty
    match (as [re.sub] does right after an empty match). *)
Definition match_here (r : regex) (must_advance : bool)
    (prev : option N) (s : pystr) : option mstate :=
  rmatch r (MState prev s [])
    (fun st' =>
       if must_advance && (length (ms_rest st') =? length s)%nat
       then None else Some st').

(** A match object: the text before the match, [group(0)], the text after
    it, and the numbered groups. *)
Record rematch := ReMatch {
  m_before : pystr;
  m_group0 : pystr;
  m_after : pystr;
  m_caps : list (nat * pystr)
}.

Definition group (m : rematch) (i : nat) : option pystr := get_cap i (m_caps m).

Fixpoint search_from (r : regex) (before : pystr) (prev : option N)
    (s : pystr) : option rematch :=
  match match_here r false prev s with
  | Some st' =>
      Some (ReMatch (reverse before)
              (take (length s - length (ms_rest st')) s)
              (ms_rest st') (ms_caps st'))
  | None =>
      match s with
      | [] => None
      | c :: t => search_from r (c :: before) (Some c) t
      end
  end.

(** [re.search(r, s)] *)
Definition re_search (r : regex) (s : pystr) : option rematch :=
  search_from r [] None s.

Fixpoint sub_loop (r : regex) (repl : pystr) (fuel : nat)
    (must_advance : bool) (prev : option N) (s : pystr) : pystr :=
  match fuel with
  | O => s
  | S f =>
      match match_here r must_advance prev s with
      | Some st' =>
          if (length (ms_rest st') <? length s)%nat
          then repl ++ sub_loop r repl f false (ms_prev st') (ms_rest st')
          else repl ++ sub_loop r repl f true prev s
      | None =>
          match s with
          | [] => []
          | c :: t => c :: sub_loop r repl f false (Some c) t
          end
      end
  end.

(** [re.sub(r, repl, s)] for a replacement text without group references. *)
Definition re_sub (r : regex) (repl : pystr) (s : pystr) : pystr :=
  sub_loop r repl (2 * length s + 2) false None s.

(** Pattern syntax. *)
Definition lit (c : N) : regex := Chr (N.eqb c).
(* a cased literal under [re.I]: the subject character is lower-cased *)
Definition lit_i (c : N) : regex := Chr (fun x => py_tolower x =? c).
(* [s] under [re.I]: sre adds the long s (U+017F), which folds to [s] *)
Definition lit_i_s : regex :=
  Chr (fun x => (py_tolower x =? 115) || (py_tolower x =? 383)).
Definition plus (r : regex) : regex := Seq r (Star r).
Definition opt (r : regex) : regex := Alt r Eps.
Fixpoint lits (s : pystr) : regex :=
  match s with
  | [] => Eps
  | c :: t => Seq (lit c) (lits t)
  end.
Fixpoint lits_i (s : pystr) : regex :=
  match s with
  | [] => Eps
  | c :: t => Seq (lit_i c) (lits_i t)
  end.
End Regex.

(** A literal pattern character under [re.I], as sre compiles it: an
    uncased character is compared as it is; a cased one is compared with
    the lower-cased subject character, and [s] and [i] also accept the one
    other character that case-folds to them. *)
Definition lit_ci {U : UnicodeData} (c : N) : regex :=
  if is_ascii_alpha c then
    let lo := ascii_tolower c in
    if lo =? 115 then lit_i_s
    else if lo =? 105 then Chr (fun x => (py_tolower x =? 105) || (py_tolower x =? 305))
    else lit_i lo
  else lit c.

Fixpoint lits_ci {U : UnicodeData} (s : pystr) : regex :=
  match s with
  | [] => Eps
  | c :: t => Seq (lit_ci c) (lits_ci t)
  end.

(** ** Python floats *)

Definition float_inf : spec_float := S754_infinity false.
Definition float_neg_inf : spec_float := S754_infinity true.

Definition is_nan (x : spec_float) : bool :=
  match x with S754_nan => true | _ => false end.

Definition is_finite (x : spec_float) : bool :=
  match x with S754_zero _ | S754_finite _ _ _ => true | _ => false end.

(** The binary64 value nearest to [m / 10^k] (ties to even), which is what
    [float()] and a float literal denote for a decimal numeral with digits
    [m] and [k] digits after the point. *)
Definition float_of_decimal (m : Z) (k : nat) : spec_float :=
  match m with
  | Zpos p =>
      SFdiv prec emax (S754_finite false p 0)
        (S754_finite false (Z.to_pos (10 ^ Z.of_nat k)) 0)
  | _ => S754_zero false
  end.

Definition digit_val (c : N) : Z := Z.of_N (c - 48).

Definition digits_value (ds : pystr) : Z :=
  fold_left (fun acc d => (10 * acc + digit_val d)%Z) ds 0%Z.

Fixpoint span_digits (s : pystr) : pystr * pystr :=
  match s with
  | c :: t =>
      if is_digit c then let '(ds, r) := span_digits t in (c :: ds, r)
      else ([], s)
  | [] => ([], [])
  end.

(** [float(raw)] on the texts the callers pass, which are made of digits
    and dots: a numeral [digits], [digits.] , [digits.digits] or [.digits]
    converts; anything else raises [ValueError], rendered as [None]. *)
Definition py_float (raw : pystr) : option spec_float :=
  let '(ip, r) := span_digits raw in
  match r with
  | [] =>
      match ip with
      | [] => None
      | _ => Some (float_of_decimal (digits_value ip) 0)
      end
  | c :: fp =>
      if (c =? 46) && forallb is_digit fp && negb (Nat.eqb (length (ip ++ fp)) 0)
      then Some (float_of_decimal (digits_value (ip ++ fp)) (length fp))
      else None
  end.

Definition float_mul (x y : spec_float) : spec_float := SFmul prec emax x y.
Definition float_sub (x y : spec_float) : spec_float := SFsub prec emax x y.

(** ** Normalisation of money and area texts *)

Section Normalization.
Context {U : UnicodeData}.

(* the class "[0-9,\.]" *)
Definition digit_comma_dot (c : N) : bool :=
  is_digit c || (c =? 44) || (c =? 46).

(* group [i] around a digit followed by any number of "[0-9,\.]" *)
Definition number_group (i : nat) : regex :=
  Group i (Seq (Chr is_digit) (Star (Chr digit_comma_dot))).

(* a dollar sign, any white space, and the number as group 1 *)
Definition money_re : regex :=
  Seq (lit 36) (Seq (Star (Chr py_isspace)) (number_group 1)).

Definition parse_money_best_effort (text : option pystr) : option spec_float :=
  match truthy text with
  | None => None
  | Some text =>
      match re_search money_re text with
      | None => None
      | Some m =>
          match group m 1 with
          | None => None
          | Some g => py_float (py_strip (remove_char 44 g))
          end
      end
  end.

(* with re.I: the number as group 1 and "m¬≤", or else the number as
   group 2 and "m2" *)
Definition m2_re : regex :=
  Alt (Seq (number_group 1) (lits_ci (u "m¬≤")))
      (Seq (number_group 2) (lits_ci (u "m2"))).

(* with re.I: the number as group 1 and "ha" *)
Definition ha_re : regex := Seq (number_group 1) (lits_ci (u "ha")).

(* with re.I: the number as group 1 and "acres?" *)
Definition acres_re : regex :=
  Seq (number_group 1) (Seq (lits_ci (u "acre")) (opt (lit_ci 115))).

Definition hectare_m2 : spec_float := float_of_decimal 100000 1.       (* 10000.0 *)
Definition acre_m2 : spec_float := float_of_decimal 40468564224 7.     (* 4046.8564224 *)

Definition or_group (a b : option pystr) : option pystr :=
  match truthy a with Some x => Some x | None => b end.

Definition parse_land_to_m2_best_effort (text : option pystr) : option spec_float :=
  match truthy text with
  | None => None
  | Some text =>
      let t := remove_char 32 text in
      match re_search m2_re t with
      | Some m =>
          match or_group (group m 1) (group m 2) with
          | Some g => py_float (remove_char 44 g)
          | None => None
          end
      | None =>
          match re_search ha_re t with
          | Some m =>
              match group m 1 with
              | Some g =>
                  match py_float (remove_char 44 g) with
                  | Some x => Some (float_mul x hectare_m2)
                  | None => None
                  end
              | None => None
              end
          | None =>
              match re_search acres_re t with
              | Some m =>
                  match group m 1 with
                  | Some g =>
                      match py_float (remove_char 44 g) with
                      | Some x => Some (float_mul x acre_m2)
                      | None => None
                      end
                  | None => None
                  end
              | None => None
              end
          end
      end
  end.
End Normalization.

(** ** Title normalisation: the key of deduplication *)

Section Titles.
Context {U : UnicodeData}.

(* word boundary, group 1 = "qld" or else "queensland", word boundary *)
Definition region_re : regex :=
  Seq WordB (Seq (Group 1 (Alt (lits (u "qld")) (lits (u "queensland")))) WordB).

(* word boundary, group 1 = "australia", word boundary *)
Definition country_re : regex :=
  Seq WordB (Seq (Group 1 (lits (u "australia"))) WordB).

(* one or more characters outside a-z and 0-9 *)
Definition non_alnum_re : regex :=
  plus (Chr (fun c => negb (is_ascii_lower c || is_digit c))).

(* one or more white-space characters *)
Definition spaces_re : regex := plus (Chr py_isspace).

Definition normalize_title (s : pystr) : pystr :=
  let s := py_lower s in
  let s := re_sub region_re [] s in
  let s := re_sub country_re [] s in
  let s := re_sub non_alnum_re (u " ") s in
  py_strip (re_sub spaces_re (u " ") s).
End Titles.

(** ** Exceptions *)

Inductive exn :=
| ValueError
| OverflowError
| UnicodeEncodeError
| OtherError (code : N).      (* whatever a fetch or a parser raises *)

Inductive result (A : Type) :=
| Ok (a : A)
| Raise (e : exn).
Arguments Ok {A} a.
Arguments Raise {A} e.

Definition bind {A B : Type} (r : result A) (f : A -> result B) : result B :=
  match r with
  | Ok a => f a
  | Raise e => Raise e
  end.

(** ** urllib.parse (CPython 3.11) *)

(** What the embedding takes from Python's libraries as given, besides the
    character database: the checks of [urlsplit] on the network location
    that raise [ValueError] (bracketed IPv6 hosts, characters that NFKC
    normalisation turns into delimiters), and SHA-1. *)
Class PyLib := {
  netloc_ok : pystr -> bool;
  (* the hexadecimal SHA-1 digest of a byte string *)
  sha1_hexdigest : list N -> pystr
}.

Definition mem_char (c : N) (s : pystr) : bool := existsb (N.eqb c) s.

(* [s.split(c, 1)] when [c] occurs in [s]: the text before the first [c]
   and the text after it *)
Fixpoint split_first (c : N) (s : pystr) : option (pystr * pystr) :=
  match s with
  | [] => None
  | x :: t =>
      if x =? c then Some ([], t)
      else match split_first c t with
           | Some (a, b) => Some (x :: a, b)
           | None => None
           end
  end.

(* the same at the last occurrence of [c] *)
Fixpoint split_last (c : N) (s : pystr) : option (pystr * pystr) :=
  match s with
  | [] => None
  | x :: t =>
      match split_last c t with
      | Some (a, b) => Some (x :: a, b)
      | None => if x =? c then Some ([], t) else None
      end
  end.

Definition uses_netloc : list pystr :=
  map u [""; "ftp"; "http"; "gopher"; "nntp"; "telnet"; "imap"; "wais"; "file";
         "mms"; "https"; "shttp"; "snews"; "prospero"; "rtsp"; "rtspu";
         "rsync"; "svn"; "svn+ssh"; "sftp"; "nfs"; "git"; "git+ssh";
         "ws"; "wss"]%string.

Definition uses_params : list pystr :=
  map u [""; "ftp"; "hdl"; "prospero"; "http"; "imap"; "https"; "shttp";
         "rtsp"; "rtspu"; "sip"; "sips"; "mms"; "sftp"; "tel"]%string.

Definition in_list (s : pystr) (l : list pystr) : bool :=
  existsb (fun x => bool_decide (x = s)) l.

(* "abc...xyzABC...XYZ0123456789+-." *)
Definition scheme_char (c : N) : bool :=
  is_ascii_alpha c || is_digit c || (c =? 43) || (c =? 45) || (c =? 46).

(* [_WHATWG_C0_CONTROL_OR_SPACE] *)
Definition c0_control_or_space (c : N) : bool := c <=? 32.

(* [_UNSAFE_URL_BYTES_TO_REMOVE]: tab, carriage return, line feed *)
Definition unsafe_url_char (c : N) : bool := (c =? 9) || (c =? 13) || (c =? 10).

Definition url_cleanup (url : pystr) : pystr :=
  filter (fun c => unsafe_url_char c = false)
    (lstrip_with c0_control_or_space url : list N).

(* the scheme, when the text before the first colon is one, and the rest *)
Definition split_scheme (url : pystr) : pystr * pystr :=
  match split_first 58 url with
  | Some (c :: pre, rest) =>
      if is_ascii_alpha c && forallb scheme_char (c :: pre)
      then (map ascii_tolower (c :: pre), rest)
      else ([], url)
  | _ => ([], url)
  end.

(* "/", "?" or "#" *)
Definition netloc_delim (c : N) : bool := (c =? 47) || (c =? 63) || (c =? 35).

Fixpoint span_until (p : N -> bool) (s : pystr) : pystr * pystr :=
  match s with
  | c :: t => if p c then ([], s) else let '(a, b) := span_until p t in (c :: a, b)
  | [] => ([], [])
  end.

(* [_splitnetloc(url, 2)] after a leading "//" *)
Definition split_netloc (url : pystr) : pystr * pystr :=
  match url with
  | c1 :: c2 :: r =>
      if (c1 =? 47) && (c2 =? 47) then span_until netloc_delim r else ([], url)
  | _ => ([], url)
  end.

Definition split_or (c : N) (s : pystr) : pystr * pystr :=
  match split_first c s with
  | Some ab => ab
  | None => (s, [])
  end.

Record SplitResult := {
  sr_scheme : pystr;
  sr_netloc : pystr;
  sr_path : pystr;
  sr_query : pystr;
  sr_fragment : pystr
}.

Definition urlsplit {L : PyLib} (url : pystr) : result SplitResult :=
  let url := url_cleanup url in
  let '(scheme, url) := split_scheme url in
  let '(netloc, url) := split_netloc url in
  let '(url, fragment) := split_or 35 url in
  let '(url, query) := split_or 63 url in
  match netloc with
  | [] => Ok (Build_SplitResult scheme netloc url query fragment)
  | _ => if netloc_ok netloc
         then Ok (Build_SplitResult scheme netloc url query fragment)
         else Raise ValueError
  end.

(* [_splitparams] *)
Definition splitparams (url : pystr) : pystr * pystr :=
  match split_last 47 url with
  | Some (a, b) =>
      match split_first 59 b with
      | Some (b1, b2) => (a ++ 47 :: b1, b2)
      | None => (url, [])
      end
  | None => split_or 59 url
  end.

Record ParseResult := {
  pr_scheme : pystr;
  pr_netloc : pystr;
  pr_path : pystr;
  pr_params : pystr;
  pr_query : pystr;
  pr_fragment : pystr
}.

Definition urlparse {L : PyLib} (url : pystr) : result ParseResult :=
  bind (urlsplit url) (fun sr =>
    let '(path, params) :=
      if in_list (sr_scheme sr) uses_params && mem_char 59 (sr_path sr)
      then splitparams (sr_path sr)
      else (sr_path sr, []) in
    Ok (Build_ParseResult (sr_scheme sr) (sr_netloc sr) path params
          (sr_query sr) (sr_fragment sr))).

Definition non_empty (s : pystr) : bool :=
  match s with [] => false | _ => true end.

Definition starts_with_slash (s : pystr) : bool :=
  match s with c :: _ => c =? 47 | [] => false end.

Definition starts_with_2slash (s : pystr) : bool :=
  match s with c1 :: c2 :: _ => (c1 =? 47) && (c2 =? 47) | _ => false end.

(* [url[:2] != '//'] is [negb (starts_with_2slash url)] *)
Definition urlunsplit (scheme netloc url query fragment : pystr) : pystr :=
  let url :=
    if non_empty netloc
       || (non_empty scheme && in_list scheme uses_netloc
           && negb (starts_with_2slash url))
    then
      let url :=
        if non_empty url && negb (starts_with_slash url) then 47 :: url else url in
      u "//" ++ netloc ++ url
    else url in
  let url := if non_empty scheme then scheme ++ 58 :: url else url in
  let url := if non_empty query then url ++ 63 :: query else url in
  if non_empty fragment then url ++ 35 :: fragment else url.

Definition urlunparse (scheme netloc url params query fragment : pystr) : pystr :=
  let url := if non_empty params then url ++ 59 :: params else url in
  urlunsplit scheme netloc url query fragment.

Definition canonical_url {L : PyLib} (url : pystr) : result pystr :=
  bind (urlparse url) (fun p =>
    Ok (urlunparse (pr_scheme p) (pr_netloc p) (pr_path p) (pr_params p)
          (pr_query p) [])).

(** ** Identifiers *)

Definition is_surrogate (c : N) : bool := in_range 55296 57343 c.

Definition utf8_encode_char (c : N) : list N :=
  if c <? 128 then [c]
  else if c <? 2048 then [192 + c / 64; 128 + c mod 64]
  else if c <? 65536 then [224 + c / 4096; 128 + (c / 64) mod 64; 128 + c mod 64]
  else [240 + c / 262144; 128 + (c / 4096) mod 64; 128 + (c / 64) mod 64;
        128 + c mod 64].

(* [s.encode("utf-8")]: a lone surrogate cannot be encoded *)
Definition utf8_encode (s : pystr) : result (list N) :=
  if existsb is_surrogate s then Raise UnicodeEncodeError
  else Ok (concat (map utf8_encode_char s)).

Definition make_id {L : PyLib} (url : pystr) : result pystr :=
  bind (utf8_encode url) (fun bytes => Ok (take 10 (sha1_hexdigest bytes))).

(** ** Numbers: Python's [int] and [float] side by side *)

Inductive pynum :=
| PInt (z : Z)
| PFloat (x : spec_float).

(* the exact comparison of a float with an integer *)
Definition float_compare_int (x : spec_float) (z : Z) : option comparison :=
  match x with
  | S754_nan => None
  | S754_infinity s => Some (if s then Lt else Gt)
  | S754_zero _ => Some (0 ?= z)%Z
  | S754_finite s m e =>
      let mz := if s then Zneg m else Zpos m in
      Some (if (0 <=? e)%Z then (mz * 2 ^ e ?= z)%Z
            else (mz ?= z * 2 ^ (- e))%Z)
  end.

(* [a < b] *)
Definition pynum_lt (a b : pynum) : bool :=
  match a, b with
  | PInt x, PInt y => (x <? y)%Z
  | PFloat x, PFloat y => SFltb x y
  | PFloat x, PInt z =>
      match float_compare_int x z with Some Lt => true | _ => false end
  | PInt z, PFloat x =>
      match float_compare_int x z with Some Gt => true | _ => false end
  end.

(* the conversion of an [int] to a [float], which [math.isnan] performs *)
Definition int_to_float (z : Z) : result spec_float :=
  let x := binary_normalize prec emax z 0 false in
  if is_finite x then Ok x else Raise OverflowError.

(** ** Listings and the cache *)

Inductive source := raywhite | domain | rea.

Record Listing := {
  id : pystr;
  source_of : source;
  title : pystr;
  url : pystr;
  image_url : option pystr;
  price_text : option pystr;
  price_num : option spec_float;
  beds : option Z;
  baths : option Z;
  cars : option Z;
  land_text : option pystr;
  land_m2 : option spec_float;
  property_type : option pystr;
  suburb_postcode : option pystr
}.

(* one entry of a search result: [{"title": ..., "url": ...}] *)
Record item := {
  item_title : option pystr;
  item_url : pystr
}.

(* the dictionary a detail parser returns; a missing key reads as [None] *)
Record details := {
  d_title : option pystr;
  d_image_url : option pystr;
  d_price_text : option pystr;
  d_beds : option Z;
  d_baths : option Z;
  d_cars : option Z;
  d_land_text : option pystr;
  d_property_type : option pystr;
  d_suburb_postcode : option pystr
}.

(* [{}] *)
Definition no_details : details :=
  Build_details None None None None None None None None None.

(** The web as one refresh sees it: what each source's search returns or
    raises, and what each detail page parses to or raises. *)
Record Web := {
  search_fn : source -> result (list item);
  parse_fn : source -> pystr -> result details
}.

(** The calls a refresh makes to the outside. *)
Inductive call :=
| CallSearch (src : source)
| CallParse (src : source) (url : pystr)
| CallSleep.

Record Cache := {
  ts : spec_float;
  listings : list Listing;
  by_id : gmap pystr Listing
}.

(* [{"ts": 0.0, "listings": [], "by_id": {}}] *)
Definition empty_cache : Cache :=
  {| ts := S754_zero false; listings := []; by_id := ∅ |}.

Definition CACHE_TTL_SECONDS : Z := 30 * 60.

Section Refresh.
Context {U : UnicodeData} {L : PyLib}.

(* [details.get("title") or item.get("title") or url] *)
Definition choose_title (d : details) (it : item) (url : pystr) : pystr :=
  match truthy (d_title d) with
  | Some t => t
  | None => match truthy (item_title it) with
            | Some t => t
            | None => url
            end
  end.

Definition build_listing (src : source) (lid url : pystr) (it : item)
    (d : details) : Listing :=
  {| id := lid;
     source_of := src;
     title := choose_title d it url;
     url := url;
     image_url := d_image_url d;
     price_text := d_price_text d;
     price_num := parse_money_best_effort (d_price_text d);
     beds := d_beds d;
     baths := d_baths d;
     cars := d_cars d;
     land_text := d_land_text d;
     land_m2 := parse_land_to_m2_best_effort (d_land_text d);
     property_type := d_property_type d;
     suburb_postcode := d_suburb_postcode d |}.

(* the body of the inner loop, for one search result; the log is kept
   latest call first *)
Definition process_item (web : Web) (src : source) (it : item)
    (log : list call) : result Listing * list call :=
  match canonical_url (item_url it) with
  | Raise e => (Raise e, log)
  | Ok url =>
      match make_id url with
      | Raise e => (Raise e, log)
      | Ok lid =>
          let d := match parse_fn web src url with
                   | Ok d => d
                   | Raise _ => no_details
                   end in
          (Ok (build_listing src lid url it d),
           CallSleep :: CallParse src url :: log)
      end
  end.

Fixpoint process_items (web : Web) (src : source) (items : list item)
    (combined : list Listing) (log : list call)
    : result (list Listing) * list call :=
  match items with
  | [] => (Ok combined, log)
  | it :: rest =>
      match process_item web src it log with
      | (Ok l, log') => process_items web src rest (combined ++ [l]) log'
      | (Raise e, log') => (Raise e, log')
      end
  end.

Fixpoint process_sources (web : Web) (srcs : list source)
    (combined : list Listing) (log : list call)
    : result (list Listing) * list call :=
  match srcs with
  | [] => (Ok combined, log)
  | src :: rest =>
      match search_fn web src with
      | Raise e => (Raise e, CallSearch src :: log)
      | Ok base_list =>
          match process_items web src base_list combined (CallSearch src :: log) with
          | (Ok combined', log') => process_sources web rest combined' log'
          | (Raise e, log') => (Raise e, log')
          end
      end
  end.

(* [normalize_title(l.title) or l.url] *)
Definition dedup_key (l : Listing) : pystr :=
  match normalize_title (title l) with
  | [] => url l
  | k => k
  end.

Fixpoint dedup (seen : gset pystr) (combined : list Listing) : list Listing :=
  match combined with
  | [] => []
  | l :: rest =>
      if decide (dedup_key l ∈ seen) then dedup seen rest
      else l :: dedup ({[dedup_key l]} ∪ seen) rest
  end.

(* [{l.id: l for l in deduped}] *)
Definition index_by_id (ls : list Listing) : gmap pystr Listing :=
  foldl (fun m l => <[id l := l]> m) ∅ ls.

(* [now - _cache["ts"] < CACHE_TTL_SECONDS] *)
Definition within_ttl (now : spec_float) (c : Cache) : bool :=
  pynum_lt (PFloat (SFsub prec emax now (ts c))) (PInt CACHE_TTL_SECONDS).

Definition the_sources : list source := [raywhite; domain; rea].

(** [refresh_cache(force)], at time [now], seeing the web as [web]. *)
Definition refresh_cache (web : Web) (now : spec_float) (force : bool)
    (c : Cache) (log : list call) : result unit * Cache * list call :=
  if negb force && within_ttl now c && negb (bool_decide (listings c = []))
  then (Ok (), c, log)
  else
    match process_sources web the_sources [] log with
    | (Raise e, log') => (Raise e, c, log')
    | (Ok combined, log') =>
        let deduped := dedup ∅ combined in
        (Ok (),
         {| ts := now; listings := deduped; by_id := index_by_id deduped |},
         log')
    end.
End Refresh.

(** ** Sorting *)

(* [x if (x is not None and not math.isnan(x)) else fallback] *)
Definition safe_num (x : option pynum) (fallback : spec_float) : result pynum :=
  match x with
  | None => Ok (PFloat fallback)
  | Some (PFloat f) => if is_nan f then Ok (PFloat fallback) else Ok (PFloat f)
  | Some (PInt z) => bind (int_to_float z) (fun _ => Ok (PInt z))
  end.

(* the key function applied to every element, in order *)
Fixpoint decorate {A : Type} (key : A -> result pynum) (l : list A)
    : result (list (pynum * A)) :=
  match l with
  | [] => Ok []
  | x :: t =>
      bind (key x) (fun k =>
      bind (decorate key t) (fun kt => Ok ((k, x) :: kt)))
  end.

(* [x] goes before the first element that is not smaller than it *)
Fixpoint insert_sorted {A : Type} (x : pynum * A) (l : list (pynum * A))
    : list (pynum * A) :=
  match l with
  | [] => [x]
  | y :: t =>
      if pynum_lt (fst y) (fst x) then y :: insert_sorted x t
      else x :: y :: t
  end.

(* a stable sort by [<] on the keys *)
Definition stable_sort {A : Type} (l : list (pynum * A)) : list (pynum * A) :=
  foldr insert_sorted [] l.

(** [sorted(l, key=key, reverse=reverse)]: the keys are computed first;
    a reversed sort reverses the list, sorts it and reverses the result. *)
Definition sort_pairs {A : Type} (reversed : bool) (kl : list (pynum * A))
    : list (pynum * A) :=
  if reversed then reverse (stable_sort (reverse kl)) else stable_sort kl.

Definition py_sorted {A : Type} (l : list A) (key : A -> result pynum)
    (reversed : bool) : result (list A) :=
  bind (decorate key l) (fun kl => Ok (snd <$> sort_pairs reversed kl)).

Definition of_float (x : option spec_float) : option pynum := option_map PFloat x.
Definition of_int (x : option Z) : option pynum := option_map PInt x.

Definition is_key (sort_key : pystr) (name : string) : bool :=
  bool_decide (sort_key = u name).

(* the key function and the direction a sort key selects; [None] when
   the list is returned as it is *)
Definition sort_choice (sort_key : pystr)
    : option ((Listing -> result pynum) * bool) :=
  if is_key sort_key "newest" then None
  else if is_key sort_key "price_asc" then
    Some (fun l => safe_num (of_float (price_num l)) float_inf, false)
  else if is_key sort_key "price_desc" then
    Some (fun l => safe_num (of_float (price_num l)) float_neg_inf, true)
  else if is_key sort_key "land_asc" then
    Some (fun l => safe_num (of_float (land_m2 l)) float_inf, false)
  else if is_key sort_key "land_desc" then
    Some (fun l => safe_num (of_float (land_m2 l)) float_neg_inf, true)
  else if is_key sort_key "beds_asc" then
    Some (fun l => safe_num (of_int (beds l)) float_inf, false)
  else if is_key sort_key "beds_desc" then
    Some (fun l => safe_num (of_int (beds l)) float_neg_inf, true)
  else if is_key sort_key "baths_asc" then
    Some (fun l => safe_num (of_int (baths l)) float_inf, false)
  else if is_key sort_key "baths_desc" then
    Some (fun l => safe_num (of_int (baths l)) float_neg_inf, true)
  else None.

Definition sort_listings (listings : list Listing) (sort_key : pystr)
    : result (list Listing) :=
  match sort_choice sort_key with
  | None => Ok listings
  | Some (key, reverse) => py_sorted listings key reverse
  end.

(** The same with the lists as objects of a store, to tell the list that
    is returned from the list that was passed: [sorted] builds a new list,
    and [return listings] returns the one it was given. *)
Definition store := gmap nat (list Listing).

Definition alloc (h : store) (l : list Listing) : nat * store :=
  let r := fresh (dom h) in (r, <[r := l]> h).

Definition sort_listings_ref (h : store) (r : nat) (sort_key : pystr)
    : result nat * store :=
  match h !! r with
  | None => (Raise (OtherError 0), h)
  | Some l =>
      match sort_choice sort_key with
      | None => (Ok r, h)
      | Some (key, reverse) =>
          match py_sorted l key reverse with
          | Ok l' => let '(r', h') := alloc h l' in (Ok r', h')
          | Raise e => (Raise e, h)
          end
      end
  end.

(** ** Reference notions the properties are stated with *)

(** The state after the longest run of [p]-characters. *)
Fixpoint run_state (p : N -> bool) (prev : option N) (s : pystr)
    (caps : list (nat * pystr)) : mstate :=
  match s with
  | c :: t => if p c then run_state p (Some c) t caps else MState prev s caps
  | [] => MState prev [] caps
  end.

Fixpoint run_of (p : N -> bool) (s : pystr) : pystr :=
  match s with
  | c :: t => if p c then c :: run_of p t else []
  | [] => []
  end.

(** The characters a dedup key is made of, besides the space. *)
Definition keeps (c : N) : bool := is_ascii_lower c || is_digit c.

(** A dollar sign, then white space, then a digit, somewhere in the text. *)
Definition has_dollar_amount (text : pystr) : Prop :=
  ∃ pre ws d post,
    text = pre ++ 36 :: ws ++ d :: post
    ∧ forallb py_isspace ws = true ∧ is_digit d = true.

(** The first currency amount of a text, read off directly: at the first
    dollar sign that white space and a digit follow, the digit and the
    digits, commas and dots after it. *)
Fixpoint find_amount (s : pystr) : option pystr :=
  match s with
  | [] => None
  | c :: t =>
      if c =? 36 then
        match lstrip_with py_isspace t with
        | d :: r =>
            if is_digit d then Some (d :: run_of digit_comma_dot r)
            else find_amount t
        | [] => find_amount t
        end
      else find_amount t
  end.

(** ** Data of the examples *)

(** A stand-in for the library: every network location passes the checks
    and the digest of a byte string is the string reversed. The examples
    do not depend on what a digest is. *)
Definition toy_lib : PyLib :=
  {| netloc_ok := fun _ => true; sha1_hexdigest := fun b => reverse b |}.

Definition plain_listing (src : source) (lid t link : string) : Listing :=
  {| id := u lid; source_of := src; title := u t; url := u link;
     image_url := None; price_text := None; price_num := None;
     beds := None; baths := None; cars := None;
     land_text := None; land_m2 := None;
     property_type := None; suburb_postcode := None |}.




(** Numeric fields that are what normalisation makes of their texts. *)
Definition derived {U : UnicodeData} (l : Listing) : Prop :=
  price_num l = parse_money_best_effort (price_text l)
  ∧ land_m2 l = parse_land_to_m2_best_effort (land_text l).

Definition cache_derived {U : UnicodeData} (c : Cache) : Prop :=
  (∀ l, l ∈ listings c → derived l)
  ∧ (∀ k l, by_id c !! k = Some l → derived l).

Definition cache_after {A : Type} (r : A * Cache * list call) : Cache := snd (fst r).
Definition log_after {A : Type} (r : A * Cache * list call) : list call := snd r.
Definition outcome {A : Type} (r : A * Cache * list call) : A := fst (fst r).

(** The caches the program can hold: the initial one, and the one any
    refresh leaves. *)
Inductive reachable {U : UnicodeData} {L : PyLib} : Cache -> Prop :=
| reach_init : reachable empty_cache
| reach_refresh (web : Web) (now : spec_float) (force : bool) (c : Cache)
    (log : list call) :
    reachable c → reachable (cache_after (refresh_cache web now force c log)).

Global Instance source_eq_dec : EqDecision source.
Proof. solve_decision. Defined.

Definition some_details (t price land : option string) : details :=
  {| d_title := option_map u t; d_image_url := None;
     d_price_text := option_map u price;
     d_beds := None; d_baths := None; d_cars := None;
     d_land_text := option_map u land;
     d_property_type := None; d_suburb_postcode := None |}.

Definition ex_item (s : source) : item :=
  match s with
  | raywhite =>
      {| item_title := Some (u "12 Alpha St, Gladstone");
         item_url := u "https://raywhitegladstone.com.au/properties/12-alpha-st#map" |}
  | domain =>
      {| item_title := Some (u "7 Beta Rd");
         item_url := u "https://www.domain.com.au/7-beta-rd-gladstone-2019001234" |}
  | rea =>
      {| item_title := None;
         item_url := u "https://www.realestate.com.au/property-house-qld-gladstone-143000000" |}
  end.

(** Three sources with one result each; the detail page of the second
    cannot be fetched. *)
Definition ex_web : Web :=
  {| search_fn := fun s => Ok [ex_item s];
     parse_fn := fun s _ =>
       match s with
       | raywhite =>
           Ok (some_details (Some "12 Alpha Street"%string)
                 (Some "Offers Over $450,000"%string) (Some "1012m2"%string))
       | domain => Raise (OtherError 503)
       | rea => Ok (some_details (Some "3 Gamma Ct"%string) None (Some "0.5ha"%string))
       end |}.

(** The first source's search page cannot be fetched. *)
Definition web_down : Web :=
  {| search_fn := fun s =>
       match s with
       | raywhite => Raise (OtherError 503)
       | _ => Ok [ex_item s]
       end;
     parse_fn := parse_fn ex_web |}.

(** No source lists anything. *)
Definition quiet_web : Web :=
  {| search_fn := fun _ => Ok []; parse_fn := fun _ _ => Ok no_details |}.

Definition ex_refresh (web : Web) (now : Z) (force : bool) (c : Cache)
    (log : list call) : result unit * Cache * list call :=
  @refresh_cache ascii_only toy_lib web (float_of_decimal now 0) force c log.

Definition ex_cache : Cache := cache_after (ex_refresh ex_web 1000 false empty_cache []).

(** The cache a refresh leaves when no source lists anything. *)
Definition quiet_cache : Cache :=
  cache_after (ex_refresh quiet_web 1000 false empty_cache []).

Definition ex_link (s : source) : pystr :=
  match @canonical_url toy_lib (item_url (ex_item s)) with
  | Ok l => l
  | Raise _ => []
  end.

Definition ex_lid (s : source) : pystr :=
  match @make_id toy_lib (ex_link s) with
  | Ok i => i
  | Raise _ => []
  end.

Definition ex_details (s : source) : details :=
  match parse_fn ex_web s (ex_link s) with
  | Ok d => d
  | Raise _ => no_details
  end.

(** ** Reference notions for sorting *)

(** Keys that compare as equal: neither is smaller. *)
Definition key_eqv (a b : pynum) : bool :=
  negb (pynum_lt a b) && negb (pynum_lt b a).

(** Two elements with equal keys. *)
Definition same_key {A : Type} (key : A -> result pynum) (x y : A) : bool :=
  match key x, key y with
  | Ok a, Ok b => key_eqv a b
  | _, _ => false
  end.

(** The keys of a sort on a float field: any float but NaN. *)
Definition float_key (a : pynum) : bool :=
  match a with PFloat x => negb (is_nan x) | PInt _ => false end.

(** The keys of a sort on an integer field: an integer, or an infinity
    standing in for a missing value. *)
Definition int_key (a : pynum) : bool :=
  match a with
  | PInt _ => true
  | PFloat (S754_infinity _) => true
  | PFloat _ => false
  end.

(** A position of each key on a scale that [<] follows: the class of the
    number first, then exponent and mantissa of a float or the value of an
    integer. *)
Definition rk (a : pynum) : Z * Z * Z :=
  match a with
  | PInt z => (0, z, 0)%Z
  | PFloat (S754_zero _) => (0, 0, 0)%Z
  | PFloat (S754_infinity s) => (if s then -2 else 2, 0, 0)%Z
  | PFloat S754_nan => (3, 0, 0)%Z
  | PFloat (S754_finite s m e) =>
      if s then (-1, - e, Z.neg m)%Z else (1, e, Z.pos m)%Z
  end.

Definition lex_lt (x y : Z * Z * Z) : Prop :=
  let '(x1, x2, x3) := x in
  let '(y1, y2, y3) := y in
  (x1 < y1 ∨ (x1 = y1 ∧ (x2 < y2 ∨ (x2 = y2 ∧ x3 < y3))))%Z.

(** A keyed element that may stand before another: the other's key is not
    smaller. *)
Definition ordered {A : Type} (a b : pynum * A) : Prop :=
  pynum_lt (fst b) (fst a) = false.

Definition all_keys {A : Type} (K : pynum -> bool) (l : list (pynum * A)) : Prop :=
  Forall (fun p => K (fst p) = true) l.

(** The order of a sorted list of keyed elements, ascending or, for a
    reversed sort, descending. *)
Definition in_order {A : Type} (reversed : bool) : relation (pynum * A) :=
  if reversed then flip ordered else ordered.

(** A keyed element carries the key of its element. *)
Definition keyed {A : Type} (key : A -> result pynum) (p : pynum * A) : Prop :=
  key (snd p) = Ok (fst p).

(** No listing without a price stands before a listing with a finite
    price. *)
Definition absent_after_finite (l : list Listing) : Prop :=
  ∀ (i j : nat) (x y : Listing) (f : spec_float),
    l !! i = Some x → l !! j = Some y →
    price_num x = None → price_num y = Some f → is_finite f = true →
    (j < i)%nat.

(** A listing without a price before one whose price text is a dollar
    sign and 310 digits, which [float] reads as infinity. *)
Definition huge_price_text : pystr := 36 :: repeat 57 310.

Definition ex_unpriced : Listing :=
  plain_listing raywhite "1111111111" "1 First St" "https://a.example/1".

Definition ex_huge : Listing :=
  {| id := u "2222222222"; source_of := domain; title := u "2 Second St";
     url := u "https://b.example/2"; image_url := None;
     price_text := Some huge_price_text;
     price_num := @parse_money_best_effort ascii_only (Some huge_price_text);
     beds := None; baths := None; cars := None;
     land_text := None; land_m2 := None;
     property_type := None; suburb_postcode := None |}.

(** The sort keys [sort_listings] knows. *)
Definition recognized_keys : list pystr :=
  u <$> ["newest"; "price_asc"; "price_desc"; "land_asc"; "land_desc";
         "beds_asc"; "beds_desc"; "baths_asc"; "baths_desc"]%string.

Definition priced_listing (src : source) (lid t link price : string) : Listing :=
  {| id := u lid; source_of := src; title := u t; url := u link;
     image_url := None; price_text := Some (u price);
     price_num := @parse_money_best_effort ascii_only (Some (u price));
     beds := None; baths := None; cars := None;
     land_text := None; land_m2 := None;
     property_type := None; suburb_postcode := None |}.

Definition ex_priced_a : Listing :=
  priced_listing raywhite "aaaaaaaaaa" "4 Fourth St" "https://a.example/4" "$500,000".

Definition ex_priced_b : Listing :=
  priced_listing domain "bbbbbbbbbb" "6 Sixth St" "https://b.example/6" "$500,000".

Definition ex_priced_c : Listing :=
  priced_listing rea "cccccccccc" "8 Eighth St" "https://c.example/8" "$750,000".

(** A store with one list. *)
Definition ex_store : store := {[ 0%nat := [ex_unpriced; ex_priced_a; ex_priced_c] ]}.

(** ** Reference notions for URLs *)

(** The URL without its fragment: the text before the first "#". *)
Definition strip_fragment (url : pystr) : pystr := fst (split_or 35 url).

(** A text that [urlsplit] takes as a scheme when a colon follows it. *)
Definition scheme_ok (pre : pystr) : bool :=
  match pre with
  | c :: _ => is_ascii_alpha c && forallb scheme_char pre
  | [] => false
  end.

(** The path as [urlparse] and [urlunparse] together leave it: a ";"
    that opens empty parameters is dropped. *)
Definition params_norm (scheme path : pystr) : pystr :=
  let '(p, params) :=
    if in_list scheme uses_params && mem_char 59 path
    then splitparams path else (path, []) in
  if non_empty params then p ++ 59 :: params else p.

(** The query with its "?", when there is one. *)
Definition query_part (q : pystr) : pystr :=
  if non_empty q then 63 :: q else [].

(** No scheme can be read off the start of [p]. *)
Definition no_scheme_prefix (p : pystr) : Prop :=
  ∀ pre rest, p = pre ++ 58 :: rest → scheme_ok pre = false.

Definition head_ok (p : pystr) : Prop :=
  match p with c :: _ => c0_control_or_space c = false | [] => True end.

(** What holds of the components [urlsplit] returns, the path taken with
    its parameters. *)
Record url_inv {L : PyLib} (s n p q : pystr) : Prop := {
  inv_scheme : s = [] ∨ (scheme_ok s = true ∧ map ascii_tolower s = s);
  inv_netloc : Forall (fun x => netloc_delim x = false) n;
  inv_path : (63 ∉ p) ∧ (35 ∉ p);
  inv_query : 35 ∉ q;
  inv_netloc_path : n ≠ [] → p = [] ∨ starts_with_slash p = true;
  inv_safe : Forall (fun x => unsafe_url_char x = false) (n ++ p ++ q);
  inv_no_scheme : s = [] → no_scheme_prefix p ∧ head_ok p;
  inv_netloc_ok : n = [] ∨ netloc_ok n = true;
  inv_params : params_norm s p = p
}.

(** The part of a URL between the scheme and the query, as [urlunsplit]
    writes it. *)
Definition url_body (scheme netloc path : pystr) : pystr :=
  if non_empty netloc
     || (non_empty scheme && in_list scheme uses_netloc
         && negb (starts_with_2slash path))
  then
    u "//" ++ netloc
      ++ (if non_empty path && negb (starts_with_slash path) then 47 :: path else path)
  else path.

(** The path as [urlunsplit] writes it: with a "/" before a relative path
    that follows a network location, or the "//" that stands for an empty
    one. *)
Definition written_path (scheme netloc path : pystr) : pystr :=
  if (non_empty netloc
      || (non_empty scheme && in_list scheme uses_netloc
          && negb (starts_with_2slash path)))
     && non_empty path && negb (starts_with_slash path)
  then 47 :: path else path.

(** The URLs on which writing the components and splitting them again
    gives the components back: those with a network location, and those
    whose path does not start with "//". *)
Definition plain_path (sr : SplitResult) : Prop :=
  sr_netloc sr ≠ [] ∨ starts_with_2slash (sr_path sr) = false.

(** ** Reference notions for the refresh *)

(** The elements of a list mapped in order, up to the first that raises. *)
Fixpoint collect {A B : Type} (f : A -> result B) (l : list A) : result (list B) :=
  match l with
  | [] => Ok []
  | x :: t => bind (f x) (fun y => bind (collect f t) (fun ys => Ok (y :: ys)))
  end.

(** The listing a refresh builds for one search result: what the detail
    parser raises is dropped, what canonicalising the URL or deriving the
    identifier raises is not. *)
Definition candidate {U : UnicodeData} {L : PyLib} (web : Web) (src : source)
    (it : item) : result Listing :=
  bind (canonical_url (item_url it)) (fun link =>
  bind (make_id link) (fun lid =>
  Ok (build_listing src lid link it
        (match parse_fn web src link with
         | Ok d => d
         | Raise _ => no_details
         end)))).

(** The calls one source costs, in the order they are made: its search,
    then a detail fetch and a pause for each listing. *)
Definition calls_of (src : source) (ls : list Listing) : list call :=
  CallSearch src :: flat_map (fun l => [CallParse src (url l); CallSleep]) ls.

(** A listing as a refresh builds it: its URL is the canonical form of a
    URL, and canonicalising it again changes nothing when that URL has a
    plain path; its identifier is derived from the URL it holds, and its
    title is empty only when the URL is. *)
Definition well_formed {L : PyLib} (l : Listing) : Prop :=
  (∃ found, canonical_url found = Ok (url l)
            ∧ ((∀ sr, urlsplit found = Ok sr → plain_path sr) →
               canonical_url (url l) = Ok (url l)))
  ∧ make_id (url l) = Ok (id l)
  ∧ (title l = [] → url l = []).


(** The listings the example web gives for one source. *)
Definition ex_listings (s : source) : list Listing :=
  match collect (@candidate ascii_only toy_lib ex_web s) [ex_item s] with
  | Ok ls => ls
  | Raise _ => []
  end.


(** ** Reference notions for the other sort keys *)

(** A number that is neither an infinity nor NaN. *)
Definition finite_num (k : pynum) : bool :=
  match k with
  | PInt _ => true
  | PFloat f => is_finite f
  end.

(** No listing that lacks the field stands before a listing in which the
    field is a finite number. *)
Definition missing_last (get : Listing -> option pynum) (l : list Listing) : Prop :=
  ∀ (i j : nat) (x y : Listing) (k : pynum),
    l !! i = Some x → l !! j = Some y →
    get x = None → get y = Some k → finite_num k = true →
    (j < i)%nat.

(** A listing that has only a number of bedrooms. *)
Definition bedroom_listing (lid : string) (n : Z) : Listing :=
  {| id := u lid; source_of := rea; title := u lid; url := u lid;
     image_url := None; price_text := None; price_num := None;
     beds := Some n; baths := None; cars := None;
     land_text := None; land_m2 := None;
     property_type := None; suburb_postcode := None |}.


(** ** The property type read off a page's text *)

(* [s.startswith(a)] *)
Fixpoint starts_with (a s : pystr) : bool :=
  match a, s with
  | [], _ => true
  | x :: a', y :: s' => (x =? y) && starts_with a' s'
  | _ :: _, [] => false
  end.

(* [a in s] *)
Fixpoint py_in (a s : pystr) : bool :=
  starts_with a s
  || match s with
     | [] => false
     | _ :: t => py_in a t
     end.

Definition candidates : list pystr :=
  map u ["Vacant Land"; "New Land"; "Land"; "House"; "Unit"; "Apartment";
         "Townhouse"; "Acreage"; "Rural"; "Block of Units"; "Duplex"]%string.

Definition extract_property_type {U : UnicodeData} (text : pystr) : option pystr :=
  let low := py_lower text in
  List.find (fun c => py_in (py_lower c) low) candidates.


(** ** The routes

    What a view answers, as far as listings go: the template and the
    other values it is rendered with are left out. *)

Inductive response :=
| IndexPage (ls : list Listing) (sort : pystr)   (* INDEX_TMPL with [listings], [sort] *)
| DetailPage (l : Listing) (sort : pystr)        (* DETAIL_TMPL with [l], [sort] *)
| RedirectToIndex                                (* [redirect(url_for("index"))] *)
| NotFound.                                      (* [abort(404)] *)

(* [request.args.get("sort", "newest")] *)
Definition sort_arg (arg : option pystr) : pystr :=
  match arg with
  | Some s => s
  | None => u "newest"
  end.

Section Routes.
Context {U : UnicodeData} {L : PyLib}.

(** [index()], for a request with the query argument [sort]. *)
Definition index (web : Web) (now : spec_float) (arg : option pystr)
    (c : Cache) (log : list call) : result response * Cache * list call :=
  let '(r, c', log') := refresh_cache web now false c log in
  match r with
  | Raise e => (Raise e, c', log')
  | Ok _ =>
      let sort := sort_arg arg in
      match sort_listings (listings c') sort with
      | Ok ls => (Ok (IndexPage ls sort), c', log')
      | Raise e => (Raise e, c', log')
      end
  end.

(** [refresh()] *)
Definition refresh (web : Web) (now : spec_float)
    (c : Cache) (log : list call) : result response * Cache * list call :=
  let '(r, c', log') := refresh_cache web now true c log in
  match r with
  | Raise e => (Raise e, c', log')
  | Ok _ => (Ok RedirectToIndex, c', log')
  end.

(** [property_detail(listing_id)] *)
Definition property_detail (web : Web) (now : spec_float) (listing_id : pystr)
    (arg : option pystr) (c : Cache) (log : list call)
    : result response * Cache * list call :=
  let '(r, c', log') := refresh_cache web now false c log in
  match r with
  | Raise e => (Raise e, c', log')
  | Ok _ =>
      match by_id c' !! listing_id with
      | None => (Ok NotFound, c', log')
      | Some l => (Ok (DetailPage l (sort_arg arg)), c', log')
      end
  end.
End Routes.


(** The first listing of the example cache. *)
Definition ex_first : Listing :=
  match listings ex_cache with
  | l :: _ => l
  | [] => ex_unpriced
  end.


(** ** The searches, from the links of a result page on

    Fetching the page and finding its links (requests, Playwright,
    BeautifulSoup) are outside the embedding: a search is modelled from
    the links found on. [urljoin] is taken from the library as it is. *)

Class UrlJoin := {
  urljoin : pystr -> pystr -> result pystr
}.

(* a link of the page: [a.get("href")] and [a.get_text(" ", strip=True)] *)
Record anchor := {
  a_href : option pystr;
  a_text : pystr
}.

Definition RAYWHITE_BASE : pystr := u "https://raywhitegladstone.com.au".
Definition REA_BASE : pystr := u "https://www.realestate.com.au".

Section Searches.
Context {L : PyLib} {J : UrlJoin}.

(* the first loop of [raywhite_search_urls], over [soup.select("h2 a")] *)
Fixpoint raywhite_found (anchors : list anchor) : result (list item) :=
  match anchors with
  | [] => Ok []
  | a :: rest =>
      match truthy (a_href a), truthy (Some (a_text a)) with
      | Some href, Some title =>
          if py_in (u "/properties/") href then
            bind (urljoin RAYWHITE_BASE href) (fun full =>
            bind (raywhite_found rest) (fun found =>
            Ok ({| item_title := Some title; item_url := full |} :: found)))
          else raywhite_found rest
      | _, _ => raywhite_found rest
      end
  end.

(* its second loop: the URLs are canonicalised, and a URL seen is skipped *)
Fixpoint raywhite_unique (seen : gset pystr) (found : list item)
    : result (list item) :=
  match found with
  | [] => Ok []
  | x :: rest =>
      bind (canonical_url (item_url x)) (fun cu =>
        if decide (cu ∈ seen) then raywhite_unique seen rest
        else
          bind (raywhite_unique ({[cu]} ∪ seen) rest) (fun out =>
          Ok ({| item_title := item_title x; item_url := cu |} :: out)))
  end.

(** [raywhite_search_urls()], given the links of the page or what
    fetching it raised. *)
Definition raywhite_search_urls (page : result (list anchor)) : result (list item) :=
  bind page (fun anchors =>
  bind (raywhite_found anchors) (fun found => raywhite_unique ∅ found)).

(* the first loop of [rea_search_urls], over [soup.find_all("a", href=True)]:
   a link without [href] is not among them *)
Fixpoint rea_found (anchors : list anchor) : result (list item) :=
  match anchors with
  | [] => Ok []
  | a :: rest =>
      match a_href a with
      | None => rea_found rest
      | Some href =>
          bind (urljoin REA_BASE (py_strip href)) (fun full =>
            if starts_with (REA_BASE ++ u "/property-") full then
              bind (canonical_url full) (fun cu =>
              bind (rea_found rest) (fun found =>
              Ok ({| item_title := truthy (Some (a_text a)); item_url := cu |}
                    :: found)))
            else rea_found rest)
      end
  end.

(* the second loop of [rea_search_urls] and of [domain_search_urls] *)
Fixpoint unique_urls (seen : gset pystr) (found : list item) : list item :=
  match found with
  | [] => []
  | x :: rest =>
      if decide (item_url x ∈ seen) then unique_urls seen rest
      else x :: unique_urls ({[item_url x]} ∪ seen) rest
  end.

(** [rea_search_urls()], given the links of the page or what fetching it
    raised. *)
Definition rea_search_urls (page : result (list anchor)) : result (list item) :=
  bind page (fun anchors =>
  bind (rea_found anchors) (fun found => Ok (unique_urls ∅ found))).

(** Where a result of the Ray White search comes from: a link of the page
    with a text and with "/properties/" in its [href]; the URL is the
    canonical form of the joined link, the title the text of the link. *)
Definition raywhite_origin (anchors : list anchor) (x : item) : Prop :=
  ∃ a href full,
    a ∈ anchors ∧ a_href a = Some href
    ∧ py_in (u "/properties/") href = true
    ∧ urljoin RAYWHITE_BASE href = Ok full
    ∧ canonical_url full = Ok (item_url x)
    ∧ a_text a ≠ [] ∧ item_title x = Some (a_text a).

(** Where a result of the REA search comes from: a link of the page whose
    joined URL starts with the address of a property; the URL is the
    canonical form of the joined link, the title the text of the link or
    [None]. *)
Definition rea_origin (anchors : list anchor) (x : item) : Prop :=
  ∃ a href full,
    a ∈ anchors ∧ a_href a = Some href
    ∧ urljoin REA_BASE (py_strip href) = Ok full
    ∧ starts_with (REA_BASE ++ u "/property-") full = true
    ∧ canonical_url full = Ok (item_url x)
    ∧ item_title x = truthy (Some (a_text a)).
End Searches.

(** A stand-in for [urljoin] on the links of the examples, which are
    paths from the root: the path is put after the base. *)
Definition toy_join : UrlJoin :=
  {| urljoin := fun base href => Ok (base ++ href) |}.

Definition ex_anchors : list anchor :=
  [ {| a_href := Some (u "/property-house-qld-gladstone-143000000#photos");
       a_text := u "3 Gamma Ct" |};
    {| a_href := Some (u "/buy/list-2"); a_text := u "Next" |};
    {| a_href := None; a_text := u "Menu" |};
    {| a_href := Some (u " /property-house-qld-gladstone-143000000 ");
       a_text := [] |};
    {| a_href := Some (u "/property-land-qld-gladstone-203000000");
       a_text := [] |} ].


(** A float that is zero, positive or plus infinity: neither NaN nor
    negative. *)
Definition nonneg_float (x : spec_float) : bool :=
  match x with
  | S754_zero false | S754_finite false _ _ | S754_infinity false => true
  | _ => false
  end.


(** ** Reference notions for the spacing of titles *)

(** The text with every maximal run of [p]-characters replaced by [repl];
    [inrun] tells that the character before belonged to a run. *)
Fixpoint collapse (p : N -> bool) (repl : pystr) (inrun : bool) (s : pystr) : pystr :=
  match s with
  | [] => []
  | c :: t =>
      if p c then (if inrun then [] else repl) ++ collapse p repl true t
      else c :: collapse p repl false t
  end.

(** No two spaces stand side by side. *)
Fixpoint spaced (s : pystr) : bool :=
  match s with
  | [] => true
  | c :: t =>
      negb ((c =? 32) && match t with d :: _ => d =? 32 | [] => false end)
      && spaced t
  end.


(** ** What a pattern can match

    The texts a pattern can consume, a word boundary counted as always
    possible: an upper bound of what the matcher accepts, used to say
    what a group can hold. *)

Inductive matches : regex -> pystr -> Prop :=
| m_eps : matches Eps []
| m_chr (p : N -> bool) (c : N) : p c = true -> matches (Chr p) [c]
| m_seq (r1 r2 : regex) (a b : pystr) :
    matches r1 a -> matches r2 b -> matches (Seq r1 r2) (a ++ b)
| m_alt_l (r1 r2 : regex) (a : pystr) : matches r1 a -> matches (Alt r1 r2) a
| m_alt_r (r1 r2 : regex) (a : pystr) : matches r2 a -> matches (Alt r1 r2) a
| m_star_nil (r : regex) : matches (Star r) []
| m_star_cons (r : regex) (a b : pystr) :
    matches r a -> matches (Star r) b -> matches (Star r) (a ++ b)
| m_group (i : nat) (r : regex) (a : pystr) : matches r a -> matches (Group i r) a
| m_wordb : matches WordB [].

(** The pattern has a group numbered [i] with body [b]. *)
Inductive has_group : regex -> nat -> regex -> Prop :=
| hg_here (i : nat) (r : regex) : has_group (Group i r) i r
| hg_group (i : nat) (r : regex) (j : nat) (b : regex) :
    has_group r j b -> has_group (Group i r) j b
| hg_seq_l (r1 r2 : regex) (j : nat) (b : regex) :
    has_group r1 j b -> has_group (Seq r1 r2) j b
| hg_seq_r (r1 r2 : regex) (j : nat) (b : regex) :
    has_group r2 j b -> has_group (Seq r1 r2) j b
| hg_alt_l (r1 r2 : regex) (j : nat) (b : regex) :
    has_group r1 j b -> has_group (Alt r1 r2) j b
| hg_alt_r (r1 r2 : regex) (j : nat) (b : regex) :
    has_group r2 j b -> has_group (Alt r1 r2) j b
| hg_star (r : regex) (j : nat) (b : regex) :
    has_group r j b -> has_group (Star r) j b.

(** A recorded group is the text of a group of the pattern. *)
Definition cap_of (r : regex) (p : nat * pystr) : Prop :=
  ∃ b, has_group r (fst p) b ∧ matches b (snd p).

(** ** The suburb and postcode of a title *)

(** The decimal digits outside ASCII, which [\d] matches too
    ([Py_UNICODE_ISDECIMAL]). *)
Class UnicodeDigits := {
  uni_isdecimal : N -> bool
}.

(** A database without digits outside ASCII. *)
Definition ascii_digits : UnicodeDigits := {| uni_isdecimal := fun _ => false |}.

Section Suburb.
Context {U : UnicodeData} {D : UnicodeDigits}.

(* [\d] *)
Definition py_isdecimal (c : N) : bool :=
  if is_ascii c then is_digit c else uni_isdecimal c.

(* the class "[A-Za-z'\-\s]" *)
Definition suburb_char (c : N) : bool :=
  is_ascii_alpha c || (c =? 39) || (c =? 45) || py_isspace c.

(* "\d{4}" *)
Definition four_digits : regex :=
  Seq (Chr py_isdecimal) (Seq (Chr py_isdecimal)
    (Seq (Chr py_isdecimal) (Chr py_isdecimal))).

(* group 1 = one or more of the class; an optional comma; white space;
   "QLD" or else "Queensland"; white space; group 2 = four digits; a word
   boundary *)
Definition suburb_re : regex :=
  Seq (Group 1 (plus (Chr suburb_char)))
    (Seq (opt (lit 44))
      (Seq (Star (Chr py_isspace))
        (Seq (Alt (lits (u "QLD")) (lits (u "Queensland")))
          (Seq (Star (Chr py_isspace))
            (Seq (Group 2 four_digits) WordB))))).

Definition extract_suburb_postcode_from_title (title : option pystr)
    : option pystr :=
  match truthy title with
  | None => None
  | Some title =>
      match re_search suburb_re title with
      | None => None
      | Some m =>
          match group m 1, group m 2 with
          | Some g1, Some g2 =>
              let suburb := py_strip (re_sub spaces_re (u " ") g1) in
              Some (suburb ++ u " " ++ g2)
          | _, _ => None
          end
      end
  end.
End Suburb.


(** What [rmatch] hands to its continuation, when the result comes from
    there: the state after a text that the pattern matches, with the
    groups set on the way put before the groups there were. *)
Definition sound_for {R : Type} (r : regex)
    (run : mstate → (mstate → option R) → option R) : Prop :=
  ∀ (st : mstate) (k : mstate → option R) (x : R),
    run st k = Some x →
    ∃ st' w new,
      ms_rest st = w ++ ms_rest st' ∧ matches r w
      ∧ ms_caps st' = new ++ ms_caps st ∧ Forall (cap_of r) new
      ∧ k st' = Some x.


(** ** [first_match] *)

(** The pattern sets group [i] on every way through it. *)
Fixpoint sets_group (r : regex) (i : nat) : bool :=
  match r with
  | Group j r1 => Nat.eqb i j || sets_group r1 i
  | Seq r1 r2 => sets_group r1 i || sets_group r2 i
  | Alt r1 r2 => sets_group r1 i && sets_group r2 i
  | _ => false
  end.

(* "r{0,n}" *)
Fixpoint upto (n : nat) (r : regex) : regex :=
  match n with
  | O => Eps
  | S n' => Alt (Seq r (upto n' r)) Eps
  end.

(* the [AttributeError] of [None.strip()] *)
Definition AttributeError : exn := OtherError 0.

(* the [IndexError] of [m.group(1)] for a pattern without group 1 *)
Definition IndexError : exn := OtherError 1.

(* whether the pattern has a group numbered [i]; [m.group(i)] is defined
   for these, and raises [IndexError] for another number *)
Fixpoint defines_group (r : regex) (i : nat) : bool :=
  match r with
  | Group j r1 => Nat.eqb i j || defines_group r1 i
  | Seq r1 r2 | Alt r1 r2 => defines_group r1 i || defines_group r2 i
  | Star r1 => defines_group r1 i
  | _ => false
  end.

Section FirstMatch.
Context {U : UnicodeData}.

(** [first_match(pattern, text, flags)]; the flags are part of the pattern
    here. On a match, [m.group(1)] raises [IndexError] when the pattern
    has no group 1; a match in which group 1 took no part has [None] for
    it, and [.strip()] raises. *)
Definition first_match (pattern : regex) (text : pystr) : result (option pystr) :=
  match re_search pattern text with
  | Some m =>
      if defines_group pattern 1 then
        match group m 1 with
        | Some g => Ok (Some (py_strip g))
        | None => Raise AttributeError
        end
      else Raise IndexError
  | None => Ok None
  end.

(* the pattern of the land text of a Ray White page: a word boundary,
   "Land:", white space, and group 1 = up to 120 characters of the line *)
Definition land_re : regex :=
  Seq WordB
    (Seq (lits (u "Land:"))
      (Seq (Star (Chr py_isspace))
        (Group 1 (upto 120 (Chr (fun c => negb (c =? 10))))))).
End FirstMatch.


(** * Properties *)

(** ** The matcher on the patterns of the program *)

Section RegexFacts.
Context {U : UnicodeData}.

Lemma star_loop_chr_skip {R : Type} (p : N -> bool) (k : mstate -> option R)
    (caps : list (nat * pystr)) (s : pystr) :
  (∀ prev c t, p c = true → k (MState prev (c :: t) caps) = None) →
  ∀ (fuel : nat) (prev : option N),
    (length s ≤ fuel)%nat →
    star_loop (rmatch (Chr p)) k fuel (MState prev s caps)
    = k (run_state p prev s caps).
Proof.
  intros Hk. induction s as [|c t IH]; intros fuel prev Hfuel.
  - destruct fuel; reflexivity.
  - destruct fuel as [|f]; [simpl in Hfuel; lia|].
    simpl. destruct (p c) eqn:Hp.
    + replace (length t <? S (length t))%nat with true
        by (symmetry; apply Nat.ltb_lt; lia).
      rewrite IH by (simpl in Hfuel; lia).
      destruct (k (run_state p (Some c) t caps)) eqn:Hr; [reflexivity|].
      apply Hk, Hp.
    + reflexivity.
Qed.

Lemma star_loop_chr_greedy {R : Type} (p : N -> bool) (k : mstate -> option R)
    (caps : list (nat * pystr)) (s : pystr) (x : R) :
  ∀ (fuel : nat) (prev : option N),
    (length s ≤ fuel)%nat →
    k (run_state p prev s caps) = Some x →
    star_loop (rmatch (Chr p)) k fuel (MState prev s caps) = Some x.
Proof.
  induction s as [|c t IH]; intros fuel prev Hfuel Hx.
  - destruct fuel; exact Hx.
  - destruct fuel as [|f]; [simpl in Hfuel; lia|].
    simpl in *. destruct (p c) eqn:Hp.
    + replace (length t <? S (length t))%nat with true
        by (symmetry; apply Nat.ltb_lt; lia).
      rewrite (IH f (Some c)) by (simpl in Hfuel; lia || exact Hx).
      reflexivity.
    + exact Hx.
Qed.

Lemma run_state_rest (p : N -> bool) (prev : option N) (s : pystr) caps :
  ms_rest (run_state p prev s caps) = lstrip_with p s
  ∧ ms_caps (run_state p prev s caps) = caps.
Proof.
  revert prev. induction s as [|c t IH]; intros prev; simpl; [done|].
  destruct (p c); [apply IH | done].
Qed.

Lemma run_of_lstrip (p : N -> bool) (s : pystr) :
  s = run_of p s ++ lstrip_with p s.
Proof.
  induction s as [|c t IH]; simpl; [done|].
  destruct (p c); simpl; [by f_equal | done].
Qed.

Lemma take_run_of (p : N -> bool) (s : pystr) :
  take (length s - length (lstrip_with p s)) s = run_of p s.
Proof.
  rewrite (run_of_lstrip p s) at 1 3.
  rewrite length_app.
  replace (length (run_of p s) + length (lstrip_with p s)
           - length (lstrip_with p s))%nat with (length (run_of p s)) by lia.
  by rewrite take_app_length.
Qed.
End RegexFacts.

Section MoneyFacts.
Context {U : UnicodeData}.

Lemma rmatch_Seq {R : Type} (r1 r2 : regex) (st : mstate) (k : mstate -> option R) :
  rmatch (Seq r1 r2) st k = rmatch r1 st (fun st' => rmatch r2 st' k).
Proof. reflexivity. Qed.

Lemma rmatch_Chr_cons {R : Type} (p : N -> bool) prev c t caps
    (k : mstate -> option R) :
  rmatch (Chr p) (MState prev (c :: t) caps) k
  = if p c then k (MState (Some c) t caps) else None.
Proof. reflexivity. Qed.

Lemma rmatch_Chr_nil {R : Type} (p : N -> bool) prev caps (k : mstate -> option R) :
  rmatch (Chr p) (MState prev [] caps) k = None.
Proof. reflexivity. Qed.

Lemma rmatch_Star {R : Type} (r : regex) (st : mstate) (k : mstate -> option R) :
  rmatch (Star r) st k = star_loop (rmatch r) k (length (ms_rest st)) st.
Proof. reflexivity. Qed.

Lemma rmatch_Group {R : Type} (i : nat) (r : regex) (st : mstate)
    (k : mstate -> option R) :
  rmatch (Group i r) st k = rmatch r st (fun st' => k (set_cap i st st')).
Proof. reflexivity. Qed.

Lemma run_state_eq (p : N -> bool) (prev : option N) (s : pystr) caps :
  run_state p prev s caps
  = MState (ms_prev (run_state p prev s caps)) (lstrip_with p s) caps.
Proof.
  destruct (run_state_rest p prev s caps) as [H1 H2].
  destruct (run_state p prev s caps) as [a b c]; simpl in *. by subst.
Qed.

Lemma length_lstrip_le (p : N -> bool) (s : pystr) :
  (length (lstrip_with p s) ≤ length s)%nat.
Proof.
  induction s as [|c t IH]; simpl; [lia|]. destruct (p c); simpl; lia.
Qed.

Lemma digit_not_space (c : N) : py_isspace c = true → is_digit c = false.
Proof.
  unfold py_isspace, is_digit, in_range. intros H.
  destruct (48 <=? c) eqn:E1; [|reflexivity].
  destruct (c <=? 57) eqn:E2; [|reflexivity].
  apply N.leb_le in E1, E2.
  repeat match type of H with
         | (_ || _) = true => apply orb_true_iff in H; destruct H as [H|H]
         | (_ && _) = true => apply andb_true_iff in H; destruct H as [H H']
         end;
    repeat match goal with
           | H : (_ <=? _) = true |- _ => apply N.leb_le in H
           | H : (_ =? _) = true |- _ => apply N.eqb_eq in H
           end; lia.
Qed.

(** The amount the pattern finds when tried at the start of [s]. *)
Lemma match_here_money (prev : option N) (s : pystr) :
  option_map ms_caps (match_here money_re false prev s)
  = match s with
    | c :: t =>
        if c =? 36 then
          match lstrip_with py_isspace t with
          | d :: r =>
              if is_digit d then Some [(1%nat, d :: run_of digit_comma_dot r)]
              else None
          | [] => None
          end
        else None
    | [] => None
    end.
Proof.
  unfold match_here, money_re, number_group, lit.
  destruct s as [|c t]; [reflexivity|].
  rewrite rmatch_Seq, rmatch_Chr_cons, (N.eqb_sym 36 c).
  destruct (c =? 36); [|reflexivity].
  rewrite rmatch_Seq, rmatch_Star.
  rewrite star_loop_chr_skip; [| |simpl; lia].
  2:{ intros prev' c' t' Hsp.
      rewrite rmatch_Group, rmatch_Seq, rmatch_Chr_cons.
      by rewrite (digit_not_space c' Hsp). }
  rewrite run_state_eq. cbn [ms_rest].
  destruct (lstrip_with py_isspace t) as [|d r]; [reflexivity|].
  rewrite rmatch_Group, rmatch_Seq, rmatch_Chr_cons.
  destruct (is_digit d); [|reflexivity].
  rewrite rmatch_Star.
  erewrite star_loop_chr_greedy; [| simpl; lia | reflexivity].
  unfold set_cap, consumed. cbn [option_map ms_caps ms_rest].
  destruct (run_state_rest digit_comma_dot (Some d) r []) as [-> ->].
  pose proof (length_lstrip_le digit_comma_dot r).
  replace (length (d :: r) - length (lstrip_with digit_comma_dot r))%nat
    with (S (length r - length (lstrip_with digit_comma_dot r)))
    by (cbn [length]; lia).
  rewrite firstn_cons. by rewrite take_run_of.
Qed.

Lemma search_money (before : pystr) (prev : option N) (s : pystr) :
  option_map (fun m => group m 1) (search_from money_re before prev s)
  = option_map Some (find_amount s).
Proof.
  revert before prev. induction s as [|c t IH]; intros before prev.
  - reflexivity.
  - pose proof (match_here_money prev (c :: t)) as Hm.
    simpl search_from. simpl find_amount.
    destruct (match_here money_re false prev (c :: t)) as [st'|] eqn:Hst.
    + simpl in Hm. unfold group. simpl.
      destruct (c =? 36); [|discriminate].
      destruct (lstrip_with py_isspace t) as [|d r]; [discriminate|].
      destruct (is_digit d); [|discriminate].
      injection Hm as ->. reflexivity.
    + simpl in Hm. rewrite IH.
      destruct (c =? 36); [|reflexivity].
      destruct (lstrip_with py_isspace t) as [|d r]; [reflexivity|].
      destruct (is_digit d); [discriminate|reflexivity].
Qed.

Lemma parse_money_find (text : pystr) :
  parse_money_best_effort (Some text)
  = match find_amount text with
    | Some g => py_float (py_strip (remove_char 44 g))
    | None => None
    end.
Proof.
  unfold parse_money_best_effort, re_search.
  pose proof (search_money [] None text) as Hs.
  destruct text as [|c t]; [reflexivity|].
  unfold truthy.
  destruct (search_from money_re [] None (c :: t)) as [m|];
    destruct (find_amount (c :: t)) as [g|]; simpl in Hs; try discriminate.
  - injection Hs as ->. reflexivity.
  - reflexivity.
Qed.

Lemma forallb_run_of (p : N -> bool) (s : pystr) : forallb p (run_of p s) = true.
Proof.
  induction s as [|c t IH]; simpl; [done|].
  destruct (p c) eqn:E; simpl; [by rewrite E | done].
Qed.

Lemma find_amount_has_dollar (text g : pystr) :
  find_amount text = Some g → has_dollar_amount text.
Proof.
  induction text as [|c t IH]; simpl; [discriminate|].
  assert (Hcons : has_dollar_amount t → has_dollar_amount (c :: t)).
  { intros (pre & ws & d & post & -> & Hws & Hd).
    exists (c :: pre), ws, d, post. done. }
  destruct (c =? 36) eqn:Ec; [|by intros ?%IH%Hcons].
  destruct (lstrip_with py_isspace t) as [|d r] eqn:El; [by intros ?%IH%Hcons|].
  destruct (is_digit d) eqn:Ed; [|by intros ?%IH%Hcons].
  intros _. apply N.eqb_eq in Ec as ->.
  exists [], (run_of py_isspace t), d, r. split; [|split].
  - simpl. f_equal. rewrite <- El. apply run_of_lstrip.
  - apply forallb_run_of.
  - exact Ed.
Qed.
End MoneyFacts.

(** ** Money and area texts *)

Section NormalizationProps.
Context {U : UnicodeData}.

(** [float_of_decimal] agrees with the kernel's binary64 literals. *)
Example float_literals_agree :
  float_of_decimal 450000 0 = Prim2SF 450000%float
  ∧ float_of_decimal 399000 0 = Prim2SF 399000%float
  ∧ float_of_decimal 1012 0 = Prim2SF 1012%float
  ∧ float_of_decimal 5000 0 = Prim2SF 5000%float
  ∧ float_of_decimal 80937128448 7 = Prim2SF 0x1.f9db67cff2f2p+12%float
  ∧ acre_m2 = Prim2SF 0x1.f9db67cff2f2p+11%float
  ∧ hectare_m2 = Prim2SF 10000%float.
Proof. vm_compute. repeat split. Qed.

(** C7. Money parsing: "$450,000" gives 450000.0 and "Offers Over $399,000"
    gives 399000.0, the binary64 numbers that the kernel's literals
    denote (450000.0 is 7730941132800000 * 2^-34); the amount read is the
    first one of the text ([find_amount]); a text without a dollar sign
    followed by white space and a digit gives no value, and so does an
    amount whose text without the commas is not a numeral (as "1.2.3"). *)
Theorem parse_money_best_effort_spec :
  parse_money_best_effort (Some (u "$450,000")) = Some (Prim2SF 450000%float)
  ∧ Prim2SF 450000%float = S754_finite false 7730941132800000 (-34)
  ∧ parse_money_best_effort (Some (u "Offers Over $399,000"))
    = Some (Prim2SF 399000%float)
  ∧ Prim2SF 399000%float = S754_finite false 6854767804416000 (-34)
  ∧ parse_money_best_effort (Some (u "From $1,250 to $2,000"))
    = Some (Prim2SF 1250%float)
  ∧ parse_money_best_effort (Some (u "$1.2.3")) = None
  ∧ parse_money_best_effort None = None
  ∧ (∀ text : pystr,
       ¬ has_dollar_amount text → parse_money_best_effort (Some text) = None)
  ∧ (∀ text : pystr,
       parse_money_best_effort (Some text)
       = match find_amount text with
         | Some g => py_float (py_strip (remove_char 44 g))
         | None => None
         end)
  ∧ (∀ text g : pystr,
       find_amount text = Some g →
       py_float (py_strip (remove_char 44 g)) = None →
       parse_money_best_effort (Some text) = None).
Proof.
  split; [vm_compute; reflexivity|].
  split; [vm_compute; reflexivity|].
  split; [vm_compute; reflexivity|].
  split; [vm_compute; reflexivity|].
  split; [vm_compute; reflexivity|].
  split; [vm_compute; reflexivity|].
  split; [reflexivity|].
  split; [|split].
  - intros text Hno. rewrite parse_money_find.
    destruct (find_amount text) as [g|] eqn:Hg; [|reflexivity].
    exfalso. apply Hno. by eapply find_amount_has_dollar.
  - apply parse_money_find.
  - intros text g Hg Hf. by rewrite parse_money_find, Hg.
Qed.

(** C1. Area parsing. The pattern for square metres holds the characters
    "m¬≤" where "m²" was meant, so "1012m²" is not recognised and gives no
    value; the text "1012m¬≤" and the spelling "1012m2" give 1012.0. The
    hectare and acre cases are as specified: "0.5ha" gives 5000.0 and
    "2 acres" gives 8093.7128448. *)
Theorem parse_land_superscript_two_not_recognised :
  parse_land_to_m2_best_effort (Some (u "1012m²")) = None
  ∧ parse_land_to_m2_best_effort (Some (u "1012m¬≤")) = Some (float_of_decimal 1012 0)
  ∧ parse_land_to_m2_best_effort (Some (u "1012m2")) = Some (float_of_decimal 1012 0)
  ∧ parse_land_to_m2_best_effort (Some (u "0.5ha")) = Some (float_of_decimal 5000 0)
  ∧ parse_land_to_m2_best_effort (Some (u "2 acres"))
    = Some (float_of_decimal 80937128448 7)
  ∧ parse_land_to_m2_best_effort (Some (u "large block")) = None
  ∧ parse_land_to_m2_best_effort None = None.
Proof. vm_compute. repeat split. Qed.
End NormalizationProps.

(** ** Positions of the matcher and the text [re.sub] writes *)

Section SubFacts.
Context {U : UnicodeData}.




Lemma sub_loop_S (r : regex) (repl : pystr) (f : nat) (ma : bool)
    (prev : option N) (s : pystr) :
  sub_loop r repl (S f) ma prev s
  = match match_here r ma prev s with
    | Some st' =>
        if (length (ms_rest st') <? length s)%nat
        then repl ++ sub_loop r repl f false (ms_prev st') (ms_rest st')
        else repl ++ sub_loop r repl f true prev s
    | None =>
        match s with
        | [] => []
        | c :: t => c :: sub_loop r repl f false (Some c) t
        end
    end.
Proof. reflexivity. Qed.







End SubFacts.

(** ** Deduplication *)

Section DedupProps.
Context {U : UnicodeData}.



Lemma dedup_fresh (seen : gset pystr) (ls : list Listing) (x : Listing) :
  x ∈ dedup seen ls → dedup_key x ∉ seen.
Proof.
  revert seen. induction ls as [|l ls IH]; intros seen; simpl.
  - by intros ?%elem_of_nil.
  - destruct (decide (dedup_key l ∈ seen)) as [Hin|Hout]; [apply IH|].
    intros [->|H]%elem_of_cons; [done|]. apply IH in H. set_solver.
Qed.

Lemma dedup_keys_NoDup (seen : gset pystr) (ls : list Listing) :
  NoDup (dedup_key <$> dedup seen ls).
Proof.
  revert seen. induction ls as [|l ls IH]; intros seen; simpl.
  - constructor.
  - destruct (decide (dedup_key l ∈ seen)) as [Hin|Hout]; [apply IH|].
    simpl. constructor; [|apply IH].
    intros (x & Hk & Hx)%list_elem_of_fmap. apply dedup_fresh in Hx.
    set_solver.
Qed.

Lemma dedup_sublist (seen : gset pystr) (ls : list Listing) :
  dedup seen ls `sublist_of` ls.
Proof.
  revert seen. induction ls as [|l ls IH]; intros seen; simpl; [done|].
  destruct (decide (dedup_key l ∈ seen)).
  - by apply sublist_cons.
  - by apply sublist_skip.
Qed.


End DedupProps.


(** Two listings whose titles both normalise to the empty key are told
    apart by their URLs, and both are kept. *)
Lemma empty_keys_fall_back_to_url :
  let a := plain_listing raywhite "1" "QLD" "https://a.example/1" in
  let b := plain_listing domain "2" "Australia!" "https://b.example/2" in
  @normalize_title ascii_only (title a) = @normalize_title ascii_only (title b)
  ∧ @dedup ascii_only ∅ [a; b] = [a; b].
Proof. vm_compute. split; reflexivity. Qed.


(** ** The refresh *)

Section RefreshFacts.
Context {U : UnicodeData} {L : PyLib}.

Lemma build_listing_derived (src : source) (lid link : pystr) (it : item)
    (d : details) :
  derived (build_listing src lid link it d).
Proof. split; reflexivity. Qed.

Lemma process_item_ok (web : Web) (src : source) (it : item)
    (log log' : list call) (l : Listing) :
  process_item web src it log = (Ok l, log') →
  ∃ link lid d,
    canonical_url (item_url it) = Ok link ∧ make_id link = Ok lid
    ∧ d = match parse_fn web src link with Ok d => d | Raise _ => no_details end
    ∧ l = build_listing src lid link it d
    ∧ log' = CallSleep :: CallParse src link :: log.
Proof.
  unfold process_item.
  destruct (canonical_url (item_url it)) as [link|e]; [|discriminate].
  destruct (make_id link) as [lid|e] eqn:Hid; [|discriminate].
  intros [= <- <-]. by eexists link, lid, _.
Qed.

Lemma process_items_ok (web : Web) (src : source) (items : list item) :
  ∀ (combined : list Listing) (log : list call) (combined' : list Listing)
    (log' : list call),
    process_items web src items combined log = (Ok combined', log') →
    ∃ new, combined' = combined ++ new ∧ Forall derived new.
Proof.
  induction items as [|it rest IH]; intros combined log combined' log' H;
    simpl in H.
  - injection H as <- <-. exists []. by rewrite app_nil_r.
  - destruct (process_item web src it log) as [[l|e] log1] eqn:Hit;
      [|discriminate].
    apply IH in H as (new & -> & Hnew).
    apply process_item_ok in Hit as (link & lid & d & _ & _ & _ & -> & _).
    exists (build_listing src lid link it d :: new).
    split; [by rewrite <- app_assoc|].
    constructor; [apply build_listing_derived | exact Hnew].
Qed.

Lemma process_sources_ok (web : Web) (srcs : list source) :
  ∀ (combined : list Listing) (log : list call) (combined' : list Listing)
    (log' : list call),
    process_sources web srcs combined log = (Ok combined', log') →
    ∃ new, combined' = combined ++ new ∧ Forall derived new.
Proof.
  induction srcs as [|src rest IH]; intros combined log combined' log' H;
    simpl in H.
  - injection H as <- <-. exists []. by rewrite app_nil_r.
  - destruct (search_fn web src) as [base|e]; [|discriminate].
    destruct (process_items web src base combined (CallSearch src :: log))
      as [[c1|e] log1] eqn:Hits; [|discriminate].
    apply process_items_ok in Hits as (new1 & -> & Hnew1).
    apply IH in H as (new2 & -> & Hnew2).
    exists (new1 ++ new2). split; [by rewrite <- app_assoc|].
    by apply Forall_app.
Qed.

Lemma dedup_elem (seen : gset pystr) (ls : list Listing) (x : Listing) :
  x ∈ dedup seen ls → x ∈ ls.
Proof. intros H. eapply elem_of_sublist; [exact H | apply dedup_sublist]. Qed.

Lemma index_foldl_elem (ls : list Listing) :
  ∀ (m : gmap pystr Listing) (k : pystr) (l : Listing),
    foldl (fun m l => <[id l := l]> m) m ls !! k = Some l →
    l ∈ ls ∨ m !! k = Some l.
Proof.
  induction ls as [|x t IH]; intros m k l H; simpl in H; [by right|].
  apply IH in H as [H|H]; [left; by right|].
  destruct (decide (id x = k)) as [<-|Hne].
  - rewrite lookup_insert_eq in H. injection H as ->. left. by left.
  - rewrite lookup_insert_ne in H by done. by right.
Qed.

Lemma index_by_id_elem (ls : list Listing) (k : pystr) (l : Listing) :
  index_by_id ls !! k = Some l → l ∈ ls.
Proof.
  unfold index_by_id. intros H. apply index_foldl_elem in H as [H|H]; [done|].
  by rewrite lookup_empty in H.
Qed.

Lemma index_foldl_notin (ls : list Listing) :
  ∀ (m : gmap pystr Listing) (k : pystr),
    k ∉ id <$> ls →
    foldl (fun m l => <[id l := l]> m) m ls !! k = m !! k.
Proof.
  induction ls as [|x t IH]; intros m k Hk; simpl; [done|].
  rewrite fmap_cons in Hk. apply not_elem_of_cons in Hk as [Hne Hk].
  rewrite IH by done. by rewrite lookup_insert_ne.
Qed.

(** With distinct identifiers the index resolves every listing. *)
Lemma index_by_id_lookup (ls : list Listing) (l : Listing) :
  NoDup (id <$> ls) → l ∈ ls → index_by_id ls !! id l = Some l.
Proof.
  unfold index_by_id. generalize (∅ : gmap pystr Listing).
  induction ls as [|x t IH]; intros m Hnd Hin; [by apply elem_of_nil in Hin|].
  rewrite fmap_cons in Hnd. apply NoDup_cons in Hnd as [Hx Hnd].
  simpl. apply elem_of_cons in Hin as [->|Hin].
  - rewrite index_foldl_notin by done. apply lookup_insert_eq.
  - by apply IH.
Qed.

Lemma dedup_distinct (seen : gset pystr) (ls : list Listing) :
  NoDup (dedup_key <$> ls) → (∀ x, x ∈ ls → dedup_key x ∉ seen) →
  dedup seen ls = ls.
Proof.
  revert seen. induction ls as [|l t IH]; intros seen Hnd Hout; [done|].
  rewrite fmap_cons in Hnd. apply NoDup_cons in Hnd as [Hl Hnd].
  simpl. rewrite decide_False by (apply Hout; by left).
  f_equal. apply IH; [done|].
  intros x Hx. rewrite elem_of_union, elem_of_singleton.
  intros [Heq|Hin].
  - apply Hl. rewrite <- Heq. by apply list_elem_of_fmap_2.
  - eapply Hout; [by right|done].
Qed.

(** A refresh leaves the cache as it was, or leaves listings whose numeric
    fields are derived from their texts. *)
Lemma refresh_cache_derived (web : Web) (now : spec_float) (force : bool)
    (c : Cache) (log : list call) :
  cache_after (refresh_cache web now force c log) = c
  ∨ cache_derived (cache_after (refresh_cache web now force c log)).
Proof.
  unfold refresh_cache.
  destruct (negb force && within_ttl now c && _); [by left|].
  destruct (process_sources web the_sources [] log) as [[combined|e] log']
    eqn:Hps; [|by left].
  right. apply process_sources_ok in Hps as (new & -> & Hnew).
  rewrite Forall_forall in Hnew.
  unfold cache_after, cache_derived. simpl. split.
  - intros l Hl. by apply Hnew, (dedup_elem ∅).
  - intros k l Hl. by apply Hnew, (dedup_elem ∅), (index_by_id_elem _ k).
Qed.

(** C9. In every cache the program can hold, each listing's [price_num] is
    the money normalisation of its [price_text] and its [land_m2] is the
    area normalisation of its [land_text] (in the list and in the index by
    identifier alike): the numeric fields are never set on their own. *)
Theorem cached_numeric_fields_derived (c : Cache) :
  reachable c →
  (∀ l, l ∈ listings c →
     price_num l = parse_money_best_effort (price_text l)
     ∧ land_m2 l = parse_land_to_m2_best_effort (land_text l))
  ∧ (∀ k l, by_id c !! k = Some l →
       price_num l = parse_money_best_effort (price_text l)
       ∧ land_m2 l = parse_land_to_m2_best_effort (land_text l)).
Proof.
  induction 1 as [|web now force c log Hc IH].
  - split; [by intros l ?%elem_of_nil | intros k l H].
    unfold empty_cache in H. cbn [by_id] in H. by rewrite lookup_empty in H.
  - destruct (refresh_cache_derived web now force c log) as [-> | Hd];
      [exact IH | exact Hd].
Qed.
End RefreshFacts.

Lemma cached_numeric_fields_derived_witness :
  ((∀ l, l ∈ listings ex_cache →
      price_num l = @parse_money_best_effort ascii_only (price_text l)
      ∧ land_m2 l = @parse_land_to_m2_best_effort ascii_only (land_text l))
   ∧ (∀ k l, by_id ex_cache !! k = Some l →
        price_num l = @parse_money_best_effort ascii_only (price_text l)
        ∧ land_m2 l = @parse_land_to_m2_best_effort ascii_only (land_text l)))
  ∧ (price_num <$> listings ex_cache)
    = [Some (float_of_decimal 450000 0); None; None].
Proof.
  split.
  - apply (@cached_numeric_fields_derived ascii_only toy_lib ex_cache).
    apply (@reach_refresh ascii_only toy_lib ex_web _ false empty_cache []).
    apply reach_init.
  - vm_compute. reflexivity.
Defined.

Section RefreshControl.
Context {U : UnicodeData} {L : PyLib}.

Lemma process_items_log (web : Web) (src : source) (items : list item) :
  ∀ (combined : list Listing) (log : list call),
    ∃ calls, snd (process_items web src items combined log) = calls ++ log.
Proof.
  induction items as [|it rest IH]; intros combined log; simpl.
  - by exists [].
  - unfold process_item.
    destruct (canonical_url (item_url it)) as [link|e]; [|by exists []].
    destruct (make_id link) as [lid|e]; [|by exists []].
    edestruct IH as [calls ->].
    exists (calls ++ [CallSleep; CallParse src link]).
    by rewrite <- app_assoc.
Qed.

Lemma process_sources_log (web : Web) (srcs : list source) :
  ∀ (combined : list Listing) (log : list call),
    ∃ calls, snd (process_sources web srcs combined log) = calls ++ log.
Proof.
  induction srcs as [|src rest IH]; intros combined log; simpl.
  - by exists [].
  - destruct (search_fn web src) as [base|e]; [|by exists [CallSearch src]].
    destruct (process_items_log web src base combined (CallSearch src :: log))
      as [calls1 H1].
    destruct (process_items web src base combined (CallSearch src :: log))
      as [[c1|e] log1]; simpl in H1; subst log1.
    + edestruct IH as [calls2 ->].
      exists (calls2 ++ calls1 ++ [CallSearch src]).
      by rewrite <- !app_assoc.
    + exists (calls1 ++ [CallSearch src]). by rewrite <- app_assoc.
Qed.

Lemma process_sources_first (web : Web) (src : source) (rest : list source)
    (combined : list Listing) (log : list call) :
  ∃ calls,
    snd (process_sources web (src :: rest) combined log)
    = calls ++ CallSearch src :: log.
Proof.
  simpl. destruct (search_fn web src) as [base|e]; [|by exists []].
  destruct (process_items_log web src base combined (CallSearch src :: log))
    as [calls1 H1].
  destruct (process_items web src base combined (CallSearch src :: log))
    as [[c1|e1] log1]; cbn [snd] in H1 |- *; subst log1; [|by exists calls1].
  destruct (process_sources_log web rest c1 (calls1 ++ CallSearch src :: log))
    as [calls2 ->].
  exists (calls2 ++ calls1). by rewrite <- app_assoc.
Qed.

(** A search that raises ends the refresh with that exception; the cache
    stays as it was. *)
Lemma search_failure_aborts (web : Web) (now : spec_float) (c : Cache)
    (log : list call) (e : exn) :
  search_fn web raywhite = Raise e →
  refresh_cache web now true c log = (Raise e, c, CallSearch raywhite :: log).
Proof. intros H. unfold refresh_cache. simpl. by rewrite H. Qed.

(** A detail parser that raises is caught: the candidate is built from
    what the search gave. *)
Lemma parse_failure_is_caught (web : Web) (src : source) (it : item)
    (log : list call) (link lid : pystr) (e : exn) :
  canonical_url (item_url it) = Ok link → make_id link = Ok lid →
  parse_fn web src link = Raise e →
  process_item web src it log
  = (Ok (build_listing src lid link it no_details),
     CallSleep :: CallParse src link :: log).
Proof. intros H1 H2 H3. unfold process_item. by rewrite H1, H2, H3. Qed.

(** C4 (as amended). When each of the three sources finds one URL and one
    of the three detail extractions raises while the other two succeed,
    every refresh that the TTL gate lets through (a forced one, one after
    the TTL, one on an empty cache) succeeds and leaves in the cache the
    three candidates without those whose dedup key an earlier one has: all
    three when their dedup keys differ. The candidate whose extraction
    failed is kept with the title of the search result (or its URL) and no
    enriched field. Each listing's identifier is the identifier of its
    URL, and when the three identifiers differ as well the index by
    identifier resolves each. *)
Theorem refresh_keeps_failed_candidate (web : Web) (now : spec_float)
    (force : bool) (c : Cache) (log : list call) (it : source -> item)
    (link lid : source -> pystr) (d : source -> details)
    (failed : source) (e : exn) :
  (∀ s, search_fn web s = Ok [it s]) →
  (∀ s, canonical_url (item_url (it s)) = Ok (link s)) →
  (∀ s, make_id (link s) = Ok (lid s)) →
  parse_fn web failed (link failed) = Raise e →
  (∀ s, s ≠ failed → parse_fn web s (link s) = Ok (d s)) →
  force = true ∨ within_ttl now c = false ∨ listings c = [] →
  let kept := fun s =>
    build_listing s (lid s) (link s) (it s)
      (if decide (s = failed) then no_details else d s) in
  let r := refresh_cache web now force c log in
  outcome r = Ok ()
  ∧ listings (cache_after r) = dedup ∅ [kept raywhite; kept domain; kept rea]
  ∧ (NoDup (dedup_key <$> [kept raywhite; kept domain; kept rea]) →
     listings (cache_after r) = [kept raywhite; kept domain; kept rea]
     ∧ (NoDup [lid raywhite; lid domain; lid rea] →
        ∀ s, by_id (cache_after r) !! id (kept s) = Some (kept s)))
  ∧ (∀ s, make_id (url (kept s)) = Ok (id (kept s)))
  ∧ title (kept failed) = choose_title no_details (it failed) (link failed)
  ∧ price_text (kept failed) = None ∧ price_num (kept failed) = None
  ∧ land_text (kept failed) = None ∧ land_m2 (kept failed) = None.
Proof.
  intros Hsearch Hlink Hid Hfail Hok Hgate kept r.
  assert (Hitem : ∀ s lg,
    process_item web s (it s) lg
    = (Ok (kept s), CallSleep :: CallParse s (link s) :: lg)).
  { intros s lg. unfold process_item, kept. rewrite Hlink, Hid.
    destruct (decide (s = failed)) as [->|Hne].
    - by rewrite Hfail.
    - by rewrite Hok. }
  assert (Hopen : negb force && within_ttl now c
                  && negb (bool_decide (listings c = [])) = false).
  { destruct Hgate as [->|[->| ->]]; [done|by rewrite andb_false_r|].
    by rewrite bool_decide_true, andb_false_r. }
  assert (Hr : ∃ lg, r = (Ok (),
      {| ts := now;
         listings := dedup ∅ [kept raywhite; kept domain; kept rea];
         by_id := index_by_id (dedup ∅ [kept raywhite; kept domain; kept rea]) |},
      lg)).
  { unfold r, refresh_cache, the_sources. rewrite Hopen.
    cbn [process_sources].
    repeat (rewrite ?Hsearch; cbn [process_items]; rewrite ?Hitem;
            cbn [process_items process_sources]).
    cbn [app]. by eexists. }
  destruct Hr as [lg ->]. unfold outcome, cache_after. cbn [fst snd listings by_id].
  split; [reflexivity|]. split; [reflexivity|]. split; [|split].
  - intros Hkeys. rewrite dedup_distinct;
      [|exact Hkeys|intros x _; apply not_elem_of_empty].
    split; [reflexivity|]. intros Hids s.
    apply index_by_id_lookup; [exact Hids|].
    destruct s; [by left | right; by left | right; right; by left].
  - intros s. apply Hid.
  - unfold kept. rewrite decide_True by reflexivity. by repeat split.
Qed.

(** The calls of a refresh are added to the log. *)
Lemma refresh_log_grows (web : Web) (now : spec_float) (force : bool)
    (c : Cache) (log : list call) :
  ∃ calls, log_after (refresh_cache web now force c log) = calls ++ log.
Proof.
  unfold refresh_cache, log_after.
  destruct (negb force && within_ttl now c && _); [by exists []|].
  destruct (process_sources_log web the_sources [] log) as [calls H].
  exists calls.
  by destruct (process_sources web the_sources [] log) as [[combined|e] log'].
Qed.

(** C5 (as amended). For a cache refreshed less than the TTL ago that
    holds at least one listing, [refresh_cache(force=False)] does nothing:
    no call is made and the cache stays as it is; so of two such calls
    within the TTL the second makes no call when the first left a listing.
    With [force=True] the refresh always starts fetching, whatever the
    cache: the search of the first source is called. *)
Theorem refresh_ttl_gate (web : Web) (now : spec_float) (c : Cache)
    (log : list call) :
  (within_ttl now c = true → listings c ≠ [] →
     refresh_cache web now false c log = (Ok (), c, log))
  ∧ (∃ calls,
       log_after (refresh_cache web now true c log)
       = calls ++ CallSearch raywhite :: log)
  ∧ (∀ (web0 : Web) (now0 : spec_float) (c0 : Cache) (log0 : list call),
       c = cache_after (refresh_cache web0 now0 false c0 log0) →
       log = log_after (refresh_cache web0 now0 false c0 log0) →
       within_ttl now c = true → listings c ≠ [] →
       log_after (refresh_cache web now false c log) = log
       ∧ cache_after (refresh_cache web now false c log) = c).
Proof.
  assert (Hnoop : within_ttl now c = true → listings c ≠ [] →
            refresh_cache web now false c log = (Ok (), c, log)).
  { intros Hfresh Hne. unfold refresh_cache. rewrite Hfresh.
    by rewrite bool_decide_false. }
  split; [exact Hnoop|]. split.
  - destruct (process_sources_first web raywhite [domain; rea] [] log)
      as [calls H].
    exists calls. unfold refresh_cache, log_after, the_sources.
    cbn [negb andb].
    by destruct (process_sources web [raywhite; domain; rea] [] log)
      as [[combined|e] log'].
  - intros web0 now0 c0 log0 _ _ Hfresh Hne. by rewrite Hnoop.
Qed.
End RefreshControl.

(** C3. When the search of a source raises, the refresh raises too: here
    the first source's search page cannot be fetched, the refresh ends
    with that error, and nothing of the other two sources is fetched.
    (The failure of one listing's detail page, in [ex_web], is caught.) *)
Theorem refresh_aborts_when_search_raises :
  search_fn web_down raywhite = Raise (OtherError 503)
  ∧ outcome (ex_refresh web_down 2000 true empty_cache []) = Raise (OtherError 503)
  ∧ listings (cache_after (ex_refresh web_down 2000 true empty_cache [])) = []
  ∧ log_after (ex_refresh web_down 2000 true empty_cache []) = [CallSearch raywhite]
  ∧ outcome (ex_refresh ex_web 2000 true empty_cache []) = Ok ().
Proof. vm_compute. repeat split. Qed.

(** C4, the claim as stated fails: with one URL per source and the second
    detail extraction failing, the cache holds three listings, not two. *)
Lemma failed_extraction_is_not_dropped :
  search_fn ex_web raywhite = Ok [ex_item raywhite]
  ∧ search_fn ex_web domain = Ok [ex_item domain]
  ∧ search_fn ex_web rea = Ok [ex_item rea]
  ∧ parse_fn ex_web domain (item_url (ex_item domain)) = Raise (OtherError 503)
  ∧ (title <$> listings ex_cache)
    = [u "12 Alpha Street"; u "7 Beta Rd"; u "3 Gamma Ct"]
  ∧ length (listings ex_cache) = 3%nat.
Proof. vm_compute. repeat split. Qed.

(** C5, the claim as stated fails: a cache refreshed a second ago that
    holds no listing is refreshed again by [refresh_cache(force=False)]. *)
Lemma empty_cache_is_refetched_within_ttl :
  ts quiet_cache = float_of_decimal 1000 0
  ∧ @within_ttl (float_of_decimal 1001 0) quiet_cache = true
  ∧ listings quiet_cache = []
  ∧ log_after (ex_refresh quiet_web 1001 false quiet_cache [])
    = [CallSearch rea; CallSearch domain; CallSearch raywhite].
Proof. vm_compute. repeat split. Qed.

Lemma refresh_keeps_failed_candidate_witness :
  let kept := fun s =>
    @build_listing ascii_only s (ex_lid s) (ex_link s) (ex_item s)
      (if decide (s = domain) then no_details else ex_details s) in
  let r := ex_refresh ex_web 1000 false empty_cache [] in
  outcome r = Ok ()
  ∧ listings (cache_after r) = [kept raywhite; kept domain; kept rea]
  ∧ (∀ s, by_id (cache_after r) !! id (kept s) = Some (kept s))
  ∧ (∀ s, @make_id toy_lib (url (kept s)) = Ok (id (kept s)))
  ∧ title (kept domain) = choose_title no_details (ex_item domain) (ex_link domain)
  ∧ price_text (kept domain) = None ∧ price_num (kept domain) = None
  ∧ land_text (kept domain) = None ∧ land_m2 (kept domain) = None.
Proof.
  intros kept r.
  assert (Hkeys : NoDup (@dedup_key ascii_only
                           <$> [kept raywhite; kept domain; kept rea])).
  { apply (bool_decide_unpack _). vm_compute. exact I. }
  assert (Hids : NoDup [ex_lid raywhite; ex_lid domain; ex_lid rea]).
  { apply (bool_decide_unpack _). vm_compute. exact I. }
  destruct (@refresh_keeps_failed_candidate ascii_only toy_lib ex_web
              (float_of_decimal 1000 0) false empty_cache [] ex_item ex_link
              ex_lid ex_details domain (OtherError 503))
    as (H1 & _ & H3 & H4 & H5).
  - intros s. reflexivity.
  - intros []; vm_compute; reflexivity.
  - intros []; vm_compute; reflexivity.
  - vm_compute. reflexivity.
  - intros [] Hs; try (vm_compute; reflexivity). by destruct Hs.
  - right. right. reflexivity.
  - destruct (H3 Hkeys) as [H3a H3b].
    split; [exact H1|]. split; [exact H3a|]. split; [exact (H3b Hids)|].
    split; [exact H4|exact H5].
Defined.

Lemma refresh_ttl_gate_witness :
  ex_refresh quiet_web 1001 false ex_cache [] = (Ok (), ex_cache, []).
Proof.
  apply (proj1 (@refresh_ttl_gate ascii_only toy_lib quiet_web
                  (float_of_decimal 1001 0) ex_cache [])).
  - vm_compute. reflexivity.
  - intros H. vm_compute in H. discriminate H.
Defined.

(** ** Sorting *)

Section KeyOrder.

Lemma SFltb_rk (x y : spec_float) :
  is_nan x = false → is_nan y = false →
  SFltb x y = true ↔ lex_lt (rk (PFloat x)) (rk (PFloat y)).
Proof.
  unfold SFltb, lex_lt.
  destruct x as [sx|sx| |sx mx ex], y as [sy|sy| |sy my ey];
    try discriminate; intros _ _; simpl;
    repeat match goal with
           | s : bool |- _ => destruct s; simpl
           end;
    try (split; [discriminate | lia]);
    try (split; [lia | discriminate]);
    try (split; [reflexivity | lia]);
    try (split; [lia | reflexivity]);
    try (split; [intros _; lia | reflexivity]).
  all: destruct (Z.compare_spec ex ey);
    change (Pos.compare_cont Eq mx my) with (Pos.compare mx my);
    try destruct (Pos.compare_spec mx my); simpl;
    split; try discriminate; try reflexivity; try lia.
Qed.

Lemma float_keys_rk (a b : pynum) :
  float_key a = true → float_key b = true →
  pynum_lt a b = true ↔ lex_lt (rk a) (rk b).
Proof.
  destruct a as [|x], b as [|y]; try discriminate. simpl.
  intros Hx%negb_true_iff Hy%negb_true_iff. by apply SFltb_rk.
Qed.

Lemma int_keys_rk (a b : pynum) :
  int_key a = true → int_key b = true →
  pynum_lt a b = true ↔ lex_lt (rk a) (rk b).
Proof.
  destruct a as [x|[| sx | |]], b as [y|[| sy | |]]; try discriminate;
    intros _ _; simpl.
  - rewrite Z.ltb_lt. lia.
  - destruct sy; simpl; split; try discriminate; try reflexivity; lia.
  - destruct sx; simpl; split; try discriminate; try reflexivity; lia.
  - apply (SFltb_rk (S754_infinity sx) (S754_infinity sy)); reflexivity.
Qed.
End KeyOrder.

Section SortFacts.
Context {A : Type}.
Variable K : pynum -> bool.
Hypothesis K_rk : ∀ a b : pynum,
  K a = true → K b = true → pynum_lt a b = true ↔ lex_lt (rk a) (rk b).

Lemma lt_asym (a b : pynum) :
  K a = true → K b = true → pynum_lt a b = true → pynum_lt b a = false.
Proof.
  intros Ha Hb. pose proof (K_rk a b Ha Hb) as H1.
  pose proof (K_rk b a Hb Ha) as H2.
  destruct (pynum_lt b a); [|done]. intros H.
  apply H1 in H. destruct H2 as [H2 _]. specialize (H2 eq_refl).
  unfold lex_lt in *. destruct (rk a) as [[a1 a2] a3], (rk b) as [[b1 b2] b3].
  lia.
Qed.

Lemma lt_negtrans (a b c : pynum) :
  K a = true → K b = true → K c = true →
  pynum_lt a c = true → pynum_lt a b = false → pynum_lt b c = true.
Proof.
  intros Ha Hb Hc Hac Hab.
  apply (K_rk a c Ha Hc) in Hac. apply (K_rk b c Hb Hc).
  assert (Hnab : ¬ lex_lt (rk a) (rk b)).
  { intros H%(K_rk a b Ha Hb). congruence. }
  unfold lex_lt in *.
  destruct (rk a) as [[a1 a2] a3], (rk b) as [[b1 b2] b3],
    (rk c) as [[c1 c2] c3].
  lia.
Qed.

Lemma eqv_not_lt (k a b : pynum) :
  K k = true → K a = true → K b = true →
  key_eqv k a = true → key_eqv k b = true → pynum_lt a b = false.
Proof.
  unfold key_eqv. intros Hk Ha Hb [H1 H2]%andb_true_iff [H3 H4]%andb_true_iff.
  apply negb_true_iff in H1, H2, H3, H4.
  destruct (pynum_lt a b) eqn:Hab; [|done].
  pose proof (lt_negtrans a k b Ha Hk Hb Hab H2). congruence.
Qed.

Lemma insert_sorted_perm (x : pynum * A) (l : list (pynum * A)) :
  insert_sorted x l ≡ₚ x :: l.
Proof.
  induction l as [|y t IH]; simpl; [done|].
  destruct (pynum_lt (fst y) (fst x)); [|done].
  rewrite IH. apply perm_swap.
Qed.

Lemma stable_sort_perm (l : list (pynum * A)) : stable_sort l ≡ₚ l.
Proof.
  induction l as [|x t IH]; simpl; [done|].
  by rewrite insert_sorted_perm, IH.
Qed.

Lemma insert_sorted_ordered (x : pynum * A) (l : list (pynum * A)) :
  K (fst x) = true → all_keys K l →
  StronglySorted ordered l → StronglySorted ordered (insert_sorted x l).
Proof.
  intros Hx. induction l as [|y t IH]; intros Hk Hs; simpl.
  - repeat constructor.
  - apply Forall_cons in Hk as [Hy Hk].
    apply StronglySorted_cons in Hs as [Hyt Hs].
    destruct (pynum_lt (fst y) (fst x)) eqn:Hyx.
    + apply StronglySorted_cons. split; [|by apply IH].
      rewrite insert_sorted_perm. constructor; [|done].
      unfold ordered. by apply lt_asym.
    + apply StronglySorted_cons. split.
      * constructor; [exact Hyx|].
        rewrite Forall_forall in Hyt, Hk |- *. intros z Hz.
        unfold ordered in *.
        destruct (pynum_lt (fst z) (fst x)) eqn:Hzx; [|done].
        pose proof (lt_negtrans (fst z) (fst y) (fst x) (Hk z Hz) Hy Hx Hzx
                      (Hyt z Hz)).
        congruence.
      * apply StronglySorted_cons. by split.
Qed.

Lemma stable_sort_all_keys (l : list (pynum * A)) :
  all_keys K l → all_keys K (stable_sort l).
Proof. unfold all_keys. by rewrite stable_sort_perm. Qed.

Lemma stable_sort_ordered (l : list (pynum * A)) :
  all_keys K l → StronglySorted ordered (stable_sort l).
Proof.
  induction l as [|x t IH]; intros Hk; simpl; [constructor|].
  apply Forall_cons in Hk as [Hx Hk].
  apply insert_sorted_ordered; [done | by apply stable_sort_all_keys | by apply IH].
Qed.

Lemma insert_sorted_filter (k : pynum) (x : pynum * A) (l : list (pynum * A)) :
  K k = true → K (fst x) = true → all_keys K l →
  filter (fun p => key_eqv k (fst p)) (insert_sorted x l)
  = filter (fun p => key_eqv k (fst p)) (x :: l).
Proof.
  intros Hk Hx. induction l as [|y t IH]; intros Hl; simpl; [done|].
  apply Forall_cons in Hl as [Hy Hl].
  destruct (pynum_lt (fst y) (fst x)) eqn:Hyx; [|done].
  rewrite (filter_cons _ y (insert_sorted x t)), IH by done.
  rewrite !(filter_cons _ x), !(filter_cons _ y).
  destruct (decide (key_eqv k (fst y))) as [Ey|Ey];
    destruct (decide (key_eqv k (fst x))) as [Ex|Ex]; try done.
  apply Is_true_true in Ey, Ex.
  pose proof (eqv_not_lt k (fst y) (fst x) Hk Hy Hx Ey Ex). congruence.
Qed.

(** The sort is stable: the elements whose keys equal [k] keep their
    order. *)
Lemma stable_sort_filter (k : pynum) (l : list (pynum * A)) :
  K k = true → all_keys K l →
  filter (fun p => key_eqv k (fst p)) (stable_sort l)
  = filter (fun p => key_eqv k (fst p)) l.
Proof.
  intros Hk. induction l as [|x t IH]; intros Hl; simpl; [done|].
  apply Forall_cons in Hl as [Hx Hl].
  rewrite insert_sorted_filter; [|done..|by apply stable_sort_all_keys].
  rewrite !(filter_cons _ x), IH by done. done.
Qed.
End SortFacts.

Section PySorted.
Context {A : Type}.
Variable K : pynum -> bool.
Hypothesis K_rk : ∀ a b : pynum,
  K a = true → K b = true → pynum_lt a b = true ↔ lex_lt (rk a) (rk b).
Variable key : A -> result pynum.
Hypothesis key_K : ∀ (x : A) (k : pynum), key x = Ok k → K k = true.

Lemma decorate_ok (l : list A) (kl : list (pynum * A)) :
  decorate key l = Ok kl → snd <$> kl = l ∧ Forall (keyed key) kl.
Proof.
  revert kl. induction l as [|x t IH]; intros kl H; simpl in H.
  - injection H as <-. by split.
  - destruct (key x) as [k|e] eqn:Hk; [|discriminate]. simpl in H.
    destruct (decorate key t) as [kt|e]; [|discriminate]. simpl in H.
    injection H as <-. destruct (IH kt eq_refl) as [<- Hf].
    split; [done|]. by constructor.
Qed.

Lemma decorate_total (l : list A) :
  (∀ x, x ∈ l → ∃ k, key x = Ok k) → ∃ kl, decorate key l = Ok kl.
Proof.
  induction l as [|x t IH]; intros H; simpl; [by eexists|].
  destruct (H x) as [k ->]; [by left|].
  destruct IH as [kt ->]; [intros y Hy; apply H; by right|].
  by eexists.
Qed.

Lemma keyed_all_keys (kl : list (pynum * A)) :
  Forall (keyed key) kl → all_keys K kl.
Proof.
  unfold all_keys. intros H. eapply Forall_impl; [exact H|].
  intros [k x] Hk. by eapply key_K.
Qed.

Lemma sort_pairs_perm (reversed : bool) (kl : list (pynum * A)) :
  sort_pairs reversed kl ≡ₚ kl.
Proof.
  unfold sort_pairs. destruct reversed.
  - by rewrite reverse_Permutation, stable_sort_perm, reverse_Permutation.
  - apply stable_sort_perm.
Qed.

Lemma sort_pairs_filter (reversed : bool) (k : pynum) (kl : list (pynum * A)) :
  K k = true → all_keys K kl →
  filter (fun p => key_eqv k (fst p)) (sort_pairs reversed kl)
  = filter (fun p => key_eqv k (fst p)) kl.
Proof.
  intros Hk Hkl. unfold sort_pairs. destruct reversed.
  - rewrite filter_reverse, (stable_sort_filter K K_rk) by
      (done || (unfold all_keys; by rewrite reverse_Permutation)).
    by rewrite filter_reverse, reverse_involutive.
  - by apply (stable_sort_filter K K_rk).
Qed.

Lemma StronglySorted_flip_reverse {B : Type} (R : relation B) (l : list B) :
  StronglySorted R l → StronglySorted (flip R) (reverse l).
Proof.
  induction l as [|x t IH]; intros H; [constructor|].
  apply StronglySorted_cons in H as [Hx Ht].
  rewrite reverse_cons. apply StronglySorted_app. split; [|split].
  - intros a b Ha ->%list_elem_of_singleton. unfold flip.
    rewrite Forall_forall in Hx. by apply Hx, elem_of_reverse.
  - by apply IH.
  - repeat constructor.
Qed.

Lemma sort_pairs_in_order (reversed : bool) (kl : list (pynum * A)) :
  all_keys K kl → StronglySorted (in_order reversed) (sort_pairs reversed kl).
Proof.
  intros Hkl. unfold sort_pairs, in_order. destruct reversed.
  - apply StronglySorted_flip_reverse, (stable_sort_ordered K K_rk).
    unfold all_keys. by rewrite reverse_Permutation.
  - by apply (stable_sort_ordered K K_rk).
Qed.

Lemma filter_keyed (x : A) (kx : pynum) (kl : list (pynum * A)) :
  key x = Ok kx → Forall (keyed key) kl →
  filter (fun y => same_key key x y) (snd <$> kl)
  = snd <$> filter (fun p => key_eqv kx (fst p)) kl.
Proof.
  intros Hx. induction 1 as [|[k y] t Hy Ht IH]; [done|].
  rewrite fmap_cons, !filter_cons, IH. unfold keyed in Hy. simpl in *.
  assert (E : same_key key x y = key_eqv kx k)
    by (unfold same_key; by rewrite Hx, Hy).
  destruct (decide (same_key key x y)) as [H1|H1],
    (decide (key_eqv kx k)) as [H2|H2]; rewrite E in H1; done.
Qed.

Lemma filter_unkeyed (x : A) (e : exn) (l : list A) :
  key x = Raise e → filter (fun y => same_key key x y) l = [].
Proof.
  intros Hx. induction l as [|y t IH]; [done|].
  rewrite filter_cons, IH.
  assert (E : same_key key x y = false) by (unfold same_key; by rewrite Hx).
  destruct (decide (same_key key x y)) as [H1|H1]; [|done].
  by rewrite E in H1.
Qed.

(** What [sorted] returns: a permutation of the list in which the elements
    with equal keys stand as they stood, in the order of the keys. *)
Lemma py_sorted_spec (l l' : list A) (reversed : bool) :
  py_sorted l key reversed = Ok l' →
  l' ≡ₚ l
  ∧ (∀ x, filter (fun y => same_key key x y) l'
          = filter (fun y => same_key key x y) l)
  ∧ ∃ skl, l' = snd <$> skl ∧ Forall (keyed key) skl
           ∧ StronglySorted (in_order reversed) skl.
Proof.
  unfold py_sorted. destruct (decorate key l) as [kl|e] eqn:Hd; [|discriminate].
  simpl. intros [= <-]. apply decorate_ok in Hd as [<- Hkl].
  assert (Hs : Forall (keyed key) (sort_pairs reversed kl))
    by (by rewrite sort_pairs_perm).
  split; [by rewrite sort_pairs_perm|]. split.
  - intros x. destruct (key x) as [kx|e] eqn:Hx.
    + rewrite !(filter_keyed x kx) by done.
      rewrite sort_pairs_filter; [done | by eapply key_K | by apply keyed_all_keys].
    + by rewrite !(filter_unkeyed x e).
  - exists (sort_pairs reversed kl). split; [done|]. split; [done|].
    by apply sort_pairs_in_order, keyed_all_keys.
Qed.

Lemma py_sorted_total (l : list A) (reversed : bool) :
  (∀ x, x ∈ l → ∃ k, key x = Ok k) → ∃ l', py_sorted l key reversed = Ok l'.
Proof.
  intros H. unfold py_sorted. destruct (decorate_total l H) as [kl ->].
  by eexists.
Qed.
End PySorted.

Section SortListings.

Lemma StronglySorted_lookup {B : Type} (R : relation B) (l : list B) :
  StronglySorted R l →
  ∀ (i j : nat) (a b : B),
    l !! i = Some a → l !! j = Some b → (i < j)%nat → R a b.
Proof.
  induction 1 as [|x t Ht IH Hx]; intros i j a b Hi Hj Hlt.
  - by rewrite lookup_nil in Hi.
  - destruct j as [|j]; [lia|]. simpl in Hj. destruct i as [|i].
    + injection Hi as <-. rewrite Forall_forall in Hx.
      by eapply Hx, list_elem_of_lookup_2.
    + simpl in Hi. eapply IH; [exact Hi | exact Hj | lia].
Qed.

Lemma safe_num_float_key (x : option spec_float) (fb : spec_float) (k : pynum) :
  is_nan fb = false → safe_num (of_float x) fb = Ok k → float_key k = true.
Proof.
  intros Hfb. destruct x as [f|]; simpl.
  - destruct (is_nan f) eqn:Hf; intros [= <-]; simpl; by rewrite ?Hfb, ?Hf.
  - intros [= <-]. simpl. by rewrite Hfb.
Qed.

Lemma safe_num_int_key (x : option Z) (s : bool) (k : pynum) :
  safe_num (of_int x) (S754_infinity s) = Ok k → int_key k = true.
Proof.
  destruct x as [z|]; simpl.
  - destruct (int_to_float z); simpl; [|discriminate]. by intros [= <-].
  - by intros [= <-].
Qed.

Lemma safe_num_float_total (x : option spec_float) (fb : spec_float) :
  ∃ k, safe_num (of_float x) fb = Ok k.
Proof. destruct x as [f|]; simpl; [destruct (is_nan f)|]; by eexists. Qed.

(** The keys of one sort are all floats, or all integers and infinities. *)
Lemma sort_choice_keys (sort_key : pystr) (keyfn : Listing -> result pynum)
    (reversed : bool) :
  sort_choice sort_key = Some (keyfn, reversed) →
  (∀ x k, keyfn x = Ok k → float_key k = true)
  ∨ (∀ x k, keyfn x = Ok k → int_key k = true).
Proof.
  unfold sort_choice.
  repeat match goal with
         | |- (if ?b then _ else _) = _ → _ => destruct b
         end;
    intros [= <- <-] || discriminate;
    first [ left; intros x k; by apply safe_num_float_key
          | right; intros x k; by apply safe_num_int_key ].
Qed.

Lemma sort_listings_spec (l l' : list Listing) (sort_key : pystr)
    (keyfn : Listing -> result pynum) (reversed : bool) :
  sort_choice sort_key = Some (keyfn, reversed) →
  sort_listings l sort_key = Ok l' →
  l' ≡ₚ l
  ∧ (∀ x, filter (fun y => same_key keyfn x y) l'
          = filter (fun y => same_key keyfn x y) l)
  ∧ ∃ skl, l' = snd <$> skl ∧ Forall (keyed keyfn) skl
           ∧ StronglySorted (in_order reversed) skl.
Proof.
  intros Hc. unfold sort_listings. rewrite Hc.
  destruct (sort_choice_keys _ _ _ Hc) as [Hk|Hk].
  - by apply (py_sorted_spec float_key float_keys_rk keyfn Hk).
  - by apply (py_sorted_spec int_key int_keys_rk keyfn Hk).
Qed.

Lemma lookup_keyed (keyfn : Listing -> result pynum)
    (skl : list (pynum * Listing)) (i : nat) (x : Listing) :
  Forall (keyed keyfn) skl → (snd <$> skl) !! i = Some x →
  ∃ k, skl !! i = Some (k, x) ∧ keyfn x = Ok k.
Proof.
  intros Hk Hi. rewrite list_lookup_fmap in Hi.
  destruct (skl !! i) as [[k y]|] eqn:Hp; [|discriminate].
  simpl in Hi. injection Hi as ->. exists k. split; [done|].
  rewrite Forall_forall in Hk. apply list_elem_of_lookup_2 in Hp.
  exact (Hk (k, x) Hp).
Qed.

Lemma price_sort_absent_last (l l' : list Listing) (reversed : bool) :
  py_sorted l
    (fun x => safe_num (of_float (price_num x))
                (S754_infinity reversed)) reversed = Ok l' →
  absent_after_finite l'.
Proof.
  intros H.
  apply (py_sorted_spec float_key float_keys_rk) in H
    as (_ & _ & skl & -> & Hk & Hs);
    [|intros x k; by apply safe_num_float_key].
  intros i j x y f Hi Hj Hx Hy Hf.
  apply (lookup_keyed _ _ _ _ Hk) in Hi as (kx & Hi & Ekx).
  apply (lookup_keyed _ _ _ _ Hk) in Hj as (ky & Hj & Eky).
  rewrite Hx in Ekx. rewrite Hy in Eky. simpl in Ekx, Eky.
  assert (Hnan : is_nan f = false) by (by destruct f).
  rewrite Hnan in Eky. injection Ekx as <-. injection Eky as <-.
  destruct (decide (i < j)%nat) as [Hlt|Hge].
  - pose proof (StronglySorted_lookup _ _ Hs i j _ _ Hi Hj Hlt) as Ho.
    unfold in_order, flip, ordered in Ho.
    destruct reversed, f; simpl in Ho; try discriminate;
      destruct s; discriminate.
  - destruct (decide (i = j)) as [->|Hne]; [|lia].
    rewrite Hi in Hj. injection Hj as E.
    destruct reversed, f; discriminate.
Qed.

Lemma sort_choice_price_asc :
  sort_choice (u "price_asc")
  = Some (fun l => safe_num (of_float (price_num l)) float_inf, false).
Proof. reflexivity. Qed.

Lemma sort_choice_price_desc :
  sort_choice (u "price_desc")
  = Some (fun l => safe_num (of_float (price_num l)) float_neg_inf, true).
Proof. reflexivity. Qed.

(** C6 (as amended). Sorting by [price_asc] and by [price_desc] returns a
    permutation of the list in which no listing without a price stands
    before a listing with a finite price. Every sort is stable: the
    listings whose keys compare equal to the key of any given listing
    stand in the result as they stood in the list; and the keys that do
    not sort return the list itself. *)
Theorem sort_missing_last_and_stable (l : list Listing) :
  (∃ l', sort_listings l (u "price_asc") = Ok l'
         ∧ l' ≡ₚ l ∧ absent_after_finite l')
  ∧ (∃ l', sort_listings l (u "price_desc") = Ok l'
           ∧ l' ≡ₚ l ∧ absent_after_finite l')
  ∧ (∀ (sort_key : pystr) (keyfn : Listing -> result pynum)
       (reversed : bool) (l' : list Listing),
       sort_choice sort_key = Some (keyfn, reversed) →
       sort_listings l sort_key = Ok l' →
       l' ≡ₚ l
       ∧ ∀ x, filter (fun y => same_key keyfn x y) l'
              = filter (fun y => same_key keyfn x y) l)
  ∧ (∀ (sort_key : pystr) (l' : list Listing),
       sort_choice sort_key = None →
       sort_listings l sort_key = Ok l' → l' = l).
Proof.
  split; [|split; [|split]].
  - destruct (py_sorted_total
                (fun x => safe_num (of_float (price_num x)) float_inf) l false)
      as [l' Hl']; [intros x _; apply safe_num_float_total|].
    exists l'. split; [exact Hl'|]. split.
    + by apply (sort_listings_spec l l' (u "price_asc") _ false
                  sort_choice_price_asc).
    + by apply (price_sort_absent_last l l' false).
  - destruct (py_sorted_total
                (fun x => safe_num (of_float (price_num x)) float_neg_inf) l true)
      as [l' Hl']; [intros x _; apply safe_num_float_total|].
    exists l'. split; [exact Hl'|]. split.
    + by apply (sort_listings_spec l l' (u "price_desc") _ true
                  sort_choice_price_desc).
    + by apply (price_sort_absent_last l l' true).
  - intros sort_key keyfn reversed l' Hc Hs.
    destruct (sort_listings_spec l l' sort_key keyfn reversed Hc Hs)
      as (Hp & Hf & _). by split.
  - intros sort_key l' Hc. unfold sort_listings. rewrite Hc. by intros [= <-].
Qed.
End SortListings.

(** C6, the claim as stated fails: a price text of a dollar sign and 310
    digits is read as infinity, which is also what a missing price counts
    as in an ascending sort; the listing without a price, first in the
    list, stays before the listing with that price. (In a descending sort
    that price comes first.) *)
Lemma unpriced_stays_before_infinite_price :
  price_text ex_huge = Some (36 :: repeat 57 310)
  ∧ price_num ex_unpriced = None
  ∧ price_num ex_huge = Some float_inf
  ∧ sort_listings [ex_unpriced; ex_huge] (u "price_asc")
    = Ok [ex_unpriced; ex_huge]
  ∧ sort_listings [ex_unpriced; ex_huge] (u "price_desc")
    = Ok [ex_huge; ex_unpriced].
Proof. vm_compute. repeat split. Qed.

Lemma sort_missing_last_and_stable_witness :
  let keyfn := fun l : Listing => safe_num (of_float (price_num l)) float_neg_inf in
  let l := [ex_priced_a; ex_unpriced; ex_priced_c; ex_priced_b] in
  let l' := [ex_priced_c; ex_priced_a; ex_priced_b; ex_unpriced] in
  sort_listings l (u "price_desc") = Ok l'
  ∧ l' ≡ₚ l
  ∧ ∀ x, filter (fun y => same_key keyfn x y) l'
         = filter (fun y => same_key keyfn x y) l.
Proof.
  intros keyfn l l'. split; [vm_compute; reflexivity|].
  apply (proj1 (proj2 (proj2 (sort_missing_last_and_stable l)))
           (u "price_desc") keyfn true l').
  - reflexivity.
  - vm_compute. reflexivity.
Defined.

Lemma parse_money_best_effort_spec_witness :
  @parse_money_best_effort ascii_only (Some (u "Contact Agent")) = None.
Proof.
  apply (proj1 (proj2 (proj2 (proj2 (proj2 (proj2 (proj2 (proj2
           (@parse_money_best_effort_spec ascii_only))))))))).
  intros (pre & ws & d & post & H & _ & _).
  assert (Hin : (36 : N) ∈ u "Contact Agent").
  { rewrite H. apply elem_of_app. right. by left. }
  revert Hin. apply (bool_decide_unpack _). vm_compute. exact I.
Defined.

Section SortIdentity.

Lemma sort_choice_none (sort_key : pystr) :
  sort_key = u "newest" ∨ sort_key ∉ recognized_keys →
  sort_choice sort_key = None.
Proof.
  intros [->|Hout]; [reflexivity|].
  unfold sort_choice, is_key.
  repeat (let E := fresh "E" in
          case_bool_decide as E;
          [first [reflexivity
                 | exfalso; apply Hout; rewrite E;
                   apply (bool_decide_unpack _); vm_compute; exact I]|]).
  reflexivity.
Qed.

Lemma alloc_keeps (h : store) (l : list Listing) (r0 : nat) (ys : list Listing) :
  h !! r0 = Some ys → snd (alloc h l) !! r0 = Some ys.
Proof.
  intros H. unfold alloc, store in *. cbn [snd].
  rewrite lookup_insert_ne; [exact H|].
  intros E. pose proof (is_fresh (dom h)) as Hf.
  apply Hf. rewrite E. apply elem_of_dom. by eexists.
Qed.

(** C10. With the key "newest", and with any key that is not one of the
    nine known keys, [sort_listings] returns the list it was given, in its
    order (the very list, not a copy); and with no key at all does it
    change the list it was given, or any other list: a sort builds a new
    list. *)
Theorem sort_listings_newest_is_identity (h : store) (r : nat)
    (xs : list Listing) (sort_key : pystr) :
  h !! r = Some xs →
  (sort_key = u "newest" ∨ sort_key ∉ recognized_keys →
     sort_listings xs sort_key = Ok xs
     ∧ sort_listings_ref h r sort_key = (Ok r, h))
  ∧ (∀ (r0 : nat) (ys : list Listing),
       h !! r0 = Some ys → snd (sort_listings_ref h r sort_key) !! r0 = Some ys)
  ∧ (∀ r', fst (sort_listings_ref h r sort_key) = Ok r' →
       snd (sort_listings_ref h r sort_key) !! r'
       = match sort_listings xs sort_key with
         | Ok l' => Some l'
         | Raise _ => None
         end).
Proof.
  intros Hr. split; [|split].
  - intros Hk. apply sort_choice_none in Hk.
    unfold sort_listings, sort_listings_ref. by rewrite Hr, Hk.
  - intros r0 ys H0. unfold sort_listings_ref. rewrite Hr.
    destruct (sort_choice sort_key) as [[keyfn reversed]|]; [|exact H0].
    destruct (py_sorted xs keyfn reversed) as [l'|e]; [|exact H0].
    by apply alloc_keeps.
  - intros r'. unfold sort_listings_ref, sort_listings. rewrite Hr.
    destruct (sort_choice sort_key) as [[keyfn reversed]|].
    + destruct (py_sorted xs keyfn reversed) as [l'|e]; [|discriminate].
      unfold alloc, store in *. cbn [fst snd]. intros [= <-].
      apply lookup_insert_eq.
    + simpl. by intros [= <-].
Qed.
End SortIdentity.

Lemma sort_listings_newest_is_identity_witness :
  (sort_listings [ex_unpriced; ex_priced_a; ex_priced_c] (u "cheapest")
   = Ok [ex_unpriced; ex_priced_a; ex_priced_c]
   ∧ sort_listings_ref ex_store 0 (u "cheapest") = (Ok 0%nat, ex_store))
  ∧ snd (sort_listings_ref ex_store 0 (u "price_asc")) !! 0%nat
    = Some [ex_unpriced; ex_priced_a; ex_priced_c].
Proof.
  split.
  - apply (proj1 (sort_listings_newest_is_identity ex_store 0
                    [ex_unpriced; ex_priced_a; ex_priced_c] (u "cheapest")
                    eq_refl)).
    right. apply (bool_decide_unpack _). vm_compute. exact I.
  - apply (proj1 (proj2 (sort_listings_newest_is_identity ex_store 0
                    [ex_unpriced; ex_priced_a; ex_priced_c] (u "price_asc")
                    eq_refl))).
    reflexivity.
Defined.

(** ** URLs *)

Section SplitFacts.

Lemma split_first_app (c : N) (a b : pystr) :
  c ∉ a → split_first c (a ++ c :: b) = Some (a, b).
Proof.
  induction a as [|x a IH]; intros Ha; simpl.
  - by rewrite N.eqb_refl.
  - apply not_elem_of_cons in Ha as [Hx Ha].
    destruct (N.eqb_spec x c) as [->|_]; [done|]. by rewrite IH.
Qed.

Lemma split_first_Some (c : N) (s a b : pystr) :
  split_first c s = Some (a, b) → s = a ++ c :: b ∧ c ∉ a.
Proof.
  revert a. induction s as [|x s IH]; intros a; simpl; [discriminate|].
  destruct (N.eqb_spec x c) as [->|Hne].
  - intros [= <- <-]. split; [done|]. by intros ?%elem_of_nil.
  - destruct (split_first c s) as [[a' b']|]; [|discriminate].
    intros [= <- <-]. destruct (IH a' eq_refl) as [-> Ha].
    split; [done|]. apply not_elem_of_cons. by split.
Qed.

Lemma split_first_None (c : N) (s : pystr) :
  split_first c s = None ↔ c ∉ s.
Proof.
  induction s as [|x s IH]; simpl.
  - split; [intros _; by intros ?%elem_of_nil | done].
  - destruct (N.eqb_spec x c) as [->|Hne].
    + split; [discriminate|]. intros H. exfalso. apply H. by left.
    + destruct (split_first c s) as [[a b]|].
      * split; [discriminate|]. intros H%not_elem_of_cons.
        destruct H as [_ H]. by apply IH in H.
      * split; [|done]. intros _. apply not_elem_of_cons. split; [done|].
        by apply IH.
Qed.

Lemma split_or_app (c : N) (a b : pystr) :
  c ∉ a → split_or c (a ++ c :: b) = (a, b).
Proof. intros H. unfold split_or. by rewrite split_first_app. Qed.

Lemma split_or_none (c : N) (s : pystr) : c ∉ s → split_or c s = (s, []).
Proof. intros H%split_first_None. unfold split_or. by rewrite H. Qed.

Lemma split_or_spec (c : N) (s a b : pystr) :
  split_or c s = (a, b) →
  (c ∉ a) ∧ (s = a ++ c :: b ∨ (s = a ∧ b = [])).
Proof.
  unfold split_or. destruct (split_first c s) as [[a' b']|] eqn:H.
  - intros [= <- <-]. apply split_first_Some in H as [-> H]. split; [done|by left].
  - intros [= <- <-]. apply split_first_None in H. split; [done|by right].
Qed.

Lemma mem_char_elem (c : N) (s : pystr) : mem_char c s = true ↔ c ∈ s.
Proof.
  unfold mem_char. rewrite existsb_exists. split.
  - intros (x & Hx & ->%N.eqb_eq). by apply list_elem_of_In.
  - intros H. exists c. split; [by apply list_elem_of_In | apply N.eqb_refl].
Qed.

Lemma mem_char_false (c : N) (s : pystr) : mem_char c s = false ↔ c ∉ s.
Proof.
  rewrite <- mem_char_elem. by destruct (mem_char c s).
Qed.

Lemma span_until_app (p : N -> bool) (a b : pystr) :
  Forall (fun x => p x = false) a →
  match b with x :: _ => p x = true | [] => True end →
  span_until p (a ++ b) = (a, b).
Proof.
  intros Ha Hb. induction Ha as [|x a Hx Ha IH]; simpl.
  - destruct b as [|x t]; [done|]. simpl. by rewrite Hb.
  - by rewrite Hx, IH.
Qed.

Lemma span_until_spec (p : N -> bool) (s a b : pystr) :
  span_until p s = (a, b) →
  s = a ++ b ∧ Forall (fun x => p x = false) a
  ∧ match b with x :: _ => p x = true | [] => True end.
Proof.
  revert a. induction s as [|x s IH]; intros a; simpl.
  - by intros [= <- <-].
  - destruct (p x) eqn:Hx.
    + intros [= <- <-]. by rewrite Hx.
    + destruct (span_until p s) as [a' b']. intros [= <- <-].
      destruct (IH a' eq_refl) as (-> & Ha & Hb). split; [done|].
      split; [by constructor | done].
Qed.
End SplitFacts.

Section CharFacts.

Local Ltac chars :=
  unfold scheme_char, is_ascii_alpha, is_ascii_lower, is_ascii_upper, is_digit,
    in_range, netloc_delim, unsafe_url_char, c0_control_or_space in *;
  repeat match goal with
         | H : context [?a <=? ?b] |- _ => destruct (N.leb_spec a b)
         | H : context [?a =? ?b] |- _ => destruct (N.eqb_spec a b)
         | |- context [?a <=? ?b] => destruct (N.leb_spec a b)
         | |- context [?a =? ?b] => destruct (N.eqb_spec a b)
         end;
  cbn [andb orb negb] in *; try discriminate; try lia; try reflexivity.

Lemma tolower_cases (c : N) :
  (65 ≤ c ∧ c ≤ 90 ∧ ascii_tolower c = c + 32)
  ∨ ((c < 65 ∨ 90 < c) ∧ ascii_tolower c = c).
Proof.
  unfold ascii_tolower, is_ascii_upper, in_range.
  destruct (N.leb_spec 65 c), (N.leb_spec c 90); cbn [andb]; lia.
Qed.

Lemma scheme_char_plain (c : N) :
  scheme_char c = true →
  c ≠ 58 ∧ c ≠ 63 ∧ c ≠ 35 ∧ c ≠ 47
  ∧ unsafe_url_char c = false ∧ c0_control_or_space c = false.
Proof. intros H. repeat split; chars. Qed.

Lemma scheme_char_tolower (c : N) :
  scheme_char c = true → scheme_char (ascii_tolower c) = true.
Proof.
  intros H. destruct (tolower_cases c) as [(H1 & H2 & ->)|(H1 & ->)]; [|done].
  clear H. chars.
Qed.

Lemma alpha_tolower (c : N) :
  is_ascii_alpha c = true → is_ascii_alpha (ascii_tolower c) = true.
Proof.
  intros H. destruct (tolower_cases c) as [(H1 & H2 & ->)|(H1 & ->)]; [|done].
  clear H. chars.
Qed.

Lemma tolower_tolower (c : N) :
  ascii_tolower (ascii_tolower c) = ascii_tolower c.
Proof.
  destruct (tolower_cases c) as [(H1 & H2 & ->)|(H1 & ->)].
  - destruct (tolower_cases (c + 32)) as [(H3 & H4 & _)|(_ & ->)]; [lia|done].
  - destruct (tolower_cases c) as [(H3 & H4 & _)|(_ & ->)]; [lia|done].
Qed.

Lemma alpha_plain (c : N) :
  is_ascii_alpha c = true → scheme_char c = true ∧ c ≠ 47.
Proof. intros H. split; chars. Qed.

Lemma delim_chars (c : N) :
  netloc_delim c = true ↔ c = 47 ∨ c = 63 ∨ c = 35.
Proof. split; [intros H | intros [-> | [-> | ->]]]; chars. Qed.
End CharFacts.

Section SchemeFacts.

Lemma urlunsplit_eq (s n p q : pystr) :
  urlunsplit s n p q []
  = (if non_empty s then s ++ 58 :: url_body s n p else url_body s n p)
      ++ query_part q.
Proof.
  unfold urlunsplit. change (non_empty []) with false. cbv zeta iota.
  unfold query_part, url_body.
  destruct (non_empty s), (non_empty q); by rewrite ?app_nil_r.
Qed.

Lemma scheme_ok_chars (s : pystr) :
  scheme_ok s = true →
  Forall (fun c => scheme_char c = true) s
  ∧ ∃ c t, s = c :: t ∧ is_ascii_alpha c = true.
Proof.
  destruct s as [|c t]; [discriminate|]. unfold scheme_ok.
  intros [Ha Hs]%andb_true_iff. split; [|by eexists _, _].
  apply Forall_forall. intros x Hx. rewrite forallb_forall in Hs.
  by apply Hs, list_elem_of_In.
Qed.

Lemma scheme_ok_no_colon (s : pystr) : scheme_ok s = true → 58 ∉ s.
Proof.
  intros [Hs _]%scheme_ok_chars Hin. rewrite Forall_forall in Hs.
  by destruct (scheme_char_plain 58 (Hs 58 Hin)) as [? _].
Qed.

Lemma scheme_ok_tolower (s : pystr) :
  scheme_ok s = true →
  scheme_ok (map ascii_tolower s) = true
  ∧ map ascii_tolower (map ascii_tolower s) = map ascii_tolower s.
Proof.
  intros H. split.
  - destruct (scheme_ok_chars s H) as [Hs (c & t & E & Ha)].
    assert (Hf : forallb scheme_char (map ascii_tolower s) = true).
    { apply forallb_forall. intros x (y & <- & Hy)%in_map_iff.
      apply scheme_char_tolower. rewrite Forall_forall in Hs.
      by apply Hs, list_elem_of_In. }
    subst s. unfold scheme_ok. change (map ascii_tolower (c :: t))
      with (ascii_tolower c :: map ascii_tolower t) in *.
    by rewrite Hf, alpha_tolower.
  - rewrite map_map. apply map_ext. intros x. apply tolower_tolower.
Qed.

Lemma split_scheme_app (s rest : pystr) :
  scheme_ok s = true → map ascii_tolower s = s →
  split_scheme (s ++ 58 :: rest) = (s, rest).
Proof.
  intros Hs Hl. unfold split_scheme.
  rewrite split_first_app by (by apply scheme_ok_no_colon).
  destruct s as [|c t]; [discriminate|].
  unfold scheme_ok in Hs. by rewrite Hs, Hl.
Qed.

Lemma split_scheme_none (x : pystr) :
  no_scheme_prefix x → split_scheme x = ([], x).
Proof.
  intros H. unfold split_scheme.
  destruct (split_first 58 x) as [[[|c pre] rest]|] eqn:Hx; try done.
  apply split_first_Some in Hx as [Hx _]. apply H in Hx.
  unfold scheme_ok in Hx. by rewrite Hx.
Qed.

Lemma split_scheme_spec (x s r : pystr) :
  split_scheme x = (s, r) →
  (s = [] ∧ r = x ∧ no_scheme_prefix x)
  ∨ (∃ pre, scheme_ok pre = true ∧ s = map ascii_tolower pre
            ∧ x = pre ++ 58 :: r).
Proof.
  unfold split_scheme.
  destruct (split_first 58 x) as [[pre rest]|] eqn:Hx.
  - pose proof (split_first_Some _ _ _ _ Hx) as [Hx' Hpre].
    assert (Hno : scheme_ok pre = false → no_scheme_prefix x).
    { intros Hbad pre' rest' E.
      destruct (scheme_ok pre') eqn:Hok; [|done].
      pose proof (scheme_ok_no_colon _ Hok) as Hc.
      rewrite E, split_first_app in Hx by done.
      injection Hx as -> ->. congruence. }
    destruct pre as [|c t].
    + intros [= <- <-]. left. by auto.
    + destruct (is_ascii_alpha c && forallb scheme_char (c :: t)) eqn:Hok.
      * intros [= <- <-]. right. by exists (c :: t).
      * intros [= <- <-]. left. by auto.
  - intros [= <- <-]. left. split; [done|]. split; [done|].
    intros pre' rest' E. apply split_first_None in Hx.
    exfalso. apply Hx. rewrite E. apply elem_of_app. right. by left.
Qed.

Lemma no_scheme_prefix_slash (x : pystr) :
  match x with c :: _ => is_ascii_alpha c = false | [] => True end →
  no_scheme_prefix x.
Proof.
  intros H pre rest E. destruct pre as [|c t]; [done|].
  rewrite E in H. simpl in H. unfold scheme_ok. by rewrite H.
Qed.

Lemma no_scheme_prefix_prefix (x k : pystr) :
  no_scheme_prefix (x ++ k) → no_scheme_prefix x.
Proof.
  intros H pre rest E. apply (H pre (rest ++ k)).
  by rewrite E, <- app_assoc.
Qed.

Lemma no_scheme_prefix_query (p q : pystr) :
  no_scheme_prefix p → no_scheme_prefix (p ++ query_part q).
Proof.
  intros H pre rest E. destruct (scheme_ok pre) eqn:Hok; [|done].
  exfalso. destruct (scheme_ok_chars _ Hok) as [Hs _].
  rewrite Forall_forall in Hs.
  apply app_eq_inv in E as [(k & -> & E)|(k & -> & E)].
  - destruct k as [|x k].
    + unfold query_part in E. destruct (non_empty q); discriminate.
    + injection E as <- _. rewrite (H pre k eq_refl) in Hok. discriminate.
  - destruct k as [|x k].
    + unfold query_part in E. destruct (non_empty q); discriminate.
    + unfold query_part in E. destruct (non_empty q); [|discriminate].
      injection E as <- _.
      assert (Hin : 63 ∈ p ++ 63 :: k) by (apply elem_of_app; right; by left).
      by destruct (scheme_char_plain 63 (Hs 63 Hin)) as (_ & ? & _).
Qed.

Lemma lstrip_with_id (p : N -> bool) (x : pystr) :
  match x with c :: _ => p c = false | [] => True end → lstrip_with p x = x.
Proof. destruct x as [|c t]; simpl; [done|]. by intros ->. Qed.

Lemma cleanup_id (x : pystr) :
  Forall (fun c => unsafe_url_char c = false) x → head_ok x →
  url_cleanup x = x.
Proof.
  intros Hs Hh. unfold url_cleanup. rewrite lstrip_with_id by exact Hh.
  clear Hh. induction Hs as [|c t Hc Ht IH]; [done|].
  rewrite filter_cons, decide_True by done. by f_equal.
Qed.
End SchemeFacts.

Section RoundTrip.
Context {L : PyLib}.

Lemma starts_with_slash_eq (p : pystr) :
  starts_with_slash p = true ↔ ∃ t, p = 47 :: t.
Proof.
  destruct p as [|c t]; simpl.
  - split; [done | by intros [? ?]].
  - split; [intros ->%N.eqb_eq; by eexists | by intros [? [= -> _]]].
Qed.

Lemma starts_with_2slash_eq (p : pystr) :
  starts_with_2slash p = true ↔ ∃ t, p = 47 :: 47 :: t.
Proof.
  destruct p as [|c1 [|c2 t]]; simpl; try (split; [done | by intros [? ?]]).
  rewrite andb_true_iff, !N.eqb_eq. split.
  - intros [-> ->]. by eexists.
  - by intros [? [= -> -> _]].
Qed.

Lemma written_path_cases (s n p : pystr) :
  written_path s n p = p
  ∨ (written_path s n p = 47 :: p ∧ starts_with_slash p = false ∧ p ≠ []).
Proof.
  unfold written_path.
  destruct (_ || _); cbn [andb]; [|by left].
  destruct p as [|c t]; cbn [non_empty andb]; [by left|].
  destruct (starts_with_slash (c :: t)) eqn:Hc; cbn [negb]; [by left|by right].
Qed.

Lemma url_body_cases (s n p : pystr) :
  (n ≠ [] → p = [] ∨ starts_with_slash p = true) →
  (n ≠ [] ∧ url_body s n p = 47 :: 47 :: n ++ p ∧ written_path s n p = p)
  ∨ (n = [] ∧ s ≠ [] ∧ url_body s n p = 47 :: 47 :: written_path s n p
     ∧ (written_path s n p = [] ∨ starts_with_slash (written_path s n p) = true))
  ∨ (n = [] ∧ url_body s n p = p ∧ written_path s n p = p).
Proof.
  intros Hnp. unfold url_body, written_path. destruct n as [|x n].
  - cbn [non_empty orb app].
    destruct (non_empty s && in_list s uses_netloc
              && negb (starts_with_2slash p)) eqn:Hc.
    + right. left.
      apply andb_true_iff in Hc as [[Hs _]%andb_true_iff _].
      split; [done|]. split; [by destruct s|]. cbn [andb].
      destruct p as [|c t]; [by auto|]. cbn [non_empty andb].
      destruct (starts_with_slash (c :: t)) eqn:Hsl; cbn [negb];
        (split; [done|by right]).
    + right. right. by split.
  - left. split; [done|]. cbn [non_empty orb andb].
    destruct (Hnp ltac:(done)) as [->|Hs]; [done|].
    by rewrite Hs, andb_false_r.
Qed.

Lemma delim_head (p q : pystr) :
  p = [] ∨ starts_with_slash p = true →
  match p ++ query_part q with
  | x :: _ => netloc_delim x = true
  | [] => True
  end.
Proof.
  intros [->|[t ->]%starts_with_slash_eq]; [|done].
  unfold query_part. by destruct (non_empty q).
Qed.

Lemma split_netloc_body (s n p q : pystr) :
  Forall (fun x => netloc_delim x = false) n →
  (n ≠ [] → p = [] ∨ starts_with_slash p = true) →
  n ≠ [] ∨ starts_with_2slash p = false →
  split_netloc (url_body s n p ++ query_part q)
  = (n, written_path s n p ++ query_part q).
Proof.
  intros Hn Hnp HC.
  destruct (url_body_cases s n p Hnp)
    as [(Hne & -> & ->)|[(-> & Hs & -> & Hw)|(-> & -> & ->)]].
  - cbn [app split_netloc]. rewrite N.eqb_refl. cbn [andb].
    rewrite <- app_assoc.
    apply span_until_app; [done|]. apply delim_head. by apply Hnp.
  - cbn [app split_netloc]. rewrite N.eqb_refl. cbn [andb].
    apply (span_until_app netloc_delim []); [done|]. by apply delim_head.
  - destruct HC as [?|H2]; [done|]. unfold split_netloc.
    destruct p as [|c1 [|c2 t]]; cbn [app].
    + unfold query_part. destruct (non_empty q); [|done].
      by destruct q.
    + unfold query_part. destruct (non_empty q); [|done].
      by rewrite andb_false_r.
    + simpl in H2. by rewrite H2.
Qed.

Lemma query_split (p q : pystr) :
  63 ∉ p → 35 ∉ p → 35 ∉ q →
  split_or 35 (p ++ query_part q) = (p ++ query_part q, [])
  ∧ split_or 63 (p ++ query_part q) = (p, q).
Proof.
  intros H63 H35 Hq. split.
  - apply split_or_none. intros [H|H]%elem_of_app; [done|].
    unfold query_part in H. destruct (non_empty q); [|by apply elem_of_nil in H].
    apply elem_of_cons in H as [H|H]; [discriminate|done].
  - unfold query_part. destruct q as [|x q]; cbn [non_empty].
    + rewrite app_nil_r. by apply split_or_none.
    + by apply split_or_app.
Qed.
End RoundTrip.

Section RoundTripSplit.
Context {L : PyLib}.

Lemma safe_scheme (s : pystr) :
  scheme_ok s = true → Forall (fun c => unsafe_url_char c = false) s.
Proof.
  intros [Hs _]%scheme_ok_chars. eapply Forall_impl; [exact Hs|].
  intros c Hc. by destruct (scheme_char_plain c Hc) as (_ & _ & _ & _ & ? & _).
Qed.

Lemma head_ok_scheme (s rest : pystr) : scheme_ok s = true → head_ok (s ++ rest).
Proof.
  intros (Hs & c & t & -> & Ha)%scheme_ok_chars. simpl.
  destruct (alpha_plain c Ha) as [Hc _].
  by destruct (scheme_char_plain c Hc) as (_ & _ & _ & _ & _ & ?).
Qed.

Lemma head_ok_app (p k : pystr) : head_ok p → head_ok k → head_ok (p ++ k).
Proof. by destruct p. Qed.

Lemma head_ok_query (q : pystr) : head_ok (query_part q).
Proof. unfold query_part. by destruct (non_empty q). Qed.

(** Splitting what [urlunsplit] wrote gives the components back, the
    path as it was written, unless the network location is empty and the
    path starts with "//". *)
Lemma urlsplit_unsplit (s n p q : pystr) :
  url_inv s n p q → n ≠ [] ∨ starts_with_2slash p = false →
  urlsplit (urlunsplit s n p q [])
  = Ok (Build_SplitResult s n (written_path s n p) q []).
Proof.
  intros [I1 I2 [I3 I3'] Iq I4 I5 I6 I7 _] HC.
  rewrite urlunsplit_eq.
  apply Forall_app in I5 as [Sn I5]. apply Forall_app in I5 as [Sp Sq].
  assert (Sqp : Forall (fun c => unsafe_url_char c = false) (query_part q)).
  { unfold query_part. destruct (non_empty q); by constructor. }
  assert (Hw : Forall (fun c => unsafe_url_char c = false) (written_path s n p)
               ∧ (63 ∉ written_path s n p) ∧ (35 ∉ written_path s n p)).
  { destruct (written_path_cases s n p) as [->|(-> & _)]; [done|].
    split; [by constructor|]. split; by apply not_elem_of_cons. }
  destruct Hw as (Sw & W63 & W35).
  assert (HB : Forall (fun c => unsafe_url_char c = false) (url_body s n p)
               ∧ (s = [] → head_ok (url_body s n p ++ query_part q)
                           ∧ no_scheme_prefix (url_body s n p ++ query_part q))).
  { destruct (url_body_cases s n p I4)
      as [(Hne & -> & _)|[(-> & Hs & -> & _)|(-> & -> & _)]].
    - split; [repeat constructor; by apply Forall_app|].
      intros _. split; [done|]. by apply no_scheme_prefix_slash.
    - split; [by repeat constructor|]. by intros ?.
    - split; [done|]. intros Hs. destruct (I6 Hs) as [Hno Hh].
      split; [apply head_ok_app; [done|apply head_ok_query]|].
      by apply no_scheme_prefix_query. }
  destruct HB as [SB HB].
  pose proof (split_netloc_body s n p q I2 I4 HC) as Hnl.
  set (B := url_body s n p) in *.
  assert (Hsch : url_cleanup
                   ((if non_empty s then s ++ 58 :: B else B) ++ query_part q)
                 = (if non_empty s then s ++ 58 :: B else B) ++ query_part q
                 ∧ split_scheme
                     ((if non_empty s then s ++ 58 :: B else B) ++ query_part q)
                   = (s, B ++ query_part q)).
  { destruct I1 as [->|[Hok Hlow]].
    - cbn [non_empty]. destruct (HB eq_refl) as [Hh Hno]. split.
      + apply cleanup_id; [by apply Forall_app | done].
      + by apply split_scheme_none.
    - assert (non_empty s = true) as -> by (by destruct s).
      rewrite <- app_assoc. cbn [app]. split.
      + apply cleanup_id; [|by apply head_ok_scheme].
        apply Forall_app. split; [by apply safe_scheme|].
        constructor; [done|]. by apply Forall_app.
      + by apply split_scheme_app. }
  destruct Hsch as [Hclean Hsch].
  unfold urlsplit. rewrite Hclean, Hsch. cbv beta iota zeta.
  rewrite Hnl. cbv beta iota zeta.
  destruct (query_split (written_path s n p) q W63 W35 Iq) as [-> ->].
  cbv beta iota zeta.
  destruct n as [|x n]; [done|].
  destruct I7 as [?| ->]; done.
Qed.

(** Writing the written path gives the same URL. *)
Lemma urlunsplit_written (s n p q f : pystr) :
  urlunsplit s n (written_path s n p) q f = urlunsplit s n p q f.
Proof.
  unfold written_path.
  destruct (non_empty n || _) eqn:Hc; cbn [andb]; [|done].
  destruct p as [|c t]; cbn [non_empty andb]; [done|].
  destruct (starts_with_slash (c :: t)) eqn:Hsl; cbn [negb]; [done|].
  cbn [starts_with_slash] in Hsl.
  assert (H2 : starts_with_2slash (c :: t) = false).
  { destruct t; cbn [starts_with_2slash]; [done|]. by rewrite Hsl. }
  assert (H2' : starts_with_2slash (47 :: c :: t) = false)
    by (cbn [starts_with_2slash]; by rewrite Hsl, andb_false_r).
  unfold urlunsplit. rewrite H2, H2'. rewrite H2 in Hc. rewrite Hc.
  cbn [non_empty andb starts_with_slash]. by rewrite Hsl, N.eqb_refl.
Qed.
End RoundTripSplit.

Section ParamsFacts.

Lemma split_last_None (c : N) (s : pystr) : c ∉ s → split_last c s = None.
Proof.
  induction s as [|x s IH]; [done|]. intros [Hx Hs]%not_elem_of_cons.
  simpl. rewrite IH by done. by destruct (N.eqb_spec x c).
Qed.

Lemma split_last_app (c : N) (a b : pystr) :
  c ∉ b → split_last c (a ++ c :: b) = Some (a, b).
Proof.
  intros Hb. induction a as [|x a IH]; simpl.
  - by rewrite split_last_None, N.eqb_refl.
  - by rewrite IH.
Qed.

Lemma split_last_Some (c : N) (s a b : pystr) :
  split_last c s = Some (a, b) → s = a ++ c :: b ∧ c ∉ b.
Proof.
  revert a. induction s as [|x s IH]; intros a; simpl; [discriminate|].
  destruct (split_last c s) as [[a' b']|] eqn:Hs.
  - intros [= <- <-]. by destruct (IH a' eq_refl) as [-> ?].
  - destruct (N.eqb_spec x c) as [->|]; [|discriminate].
    intros [= <- <-]. split; [done|].
    clear IH. revert Hs. induction s as [|y s IH]; [by intros _ ?%elem_of_nil|].
    simpl. destruct (split_last c s) as [[? ?]|]; [discriminate|].
    destruct (N.eqb_spec y c); [discriminate|]. intros _.
    apply not_elem_of_cons. split; [done|]. by apply IH.
Qed.

(** The path either stays, or loses the ";" that ended it. *)
Lemma params_norm_spec (s p : pystr) :
  params_norm s p = p
  ∨ (p = params_norm s p ++ [59]
     ∧ ∀ a b, params_norm s p = a ++ 47 :: b → 47 ∉ b → 59 ∉ b)
     ∧ (47 ∉ params_norm s p → 59 ∉ params_norm s p).
Proof.
  unfold params_norm.
  destruct (in_list s uses_params && mem_char 59 p); [|by left].
  unfold splitparams.
  destruct (split_last 47 p) as [[a b]|] eqn:Hl.
  - apply split_last_Some in Hl as [-> Hb].
    destruct (split_first 59 b) as [[b1 b2]|] eqn:Hf; [|by left].
    apply split_first_Some in Hf as [-> Hb1].
    destruct b2 as [|x b2]; cbn [non_empty];
      [|left; by rewrite <- app_assoc]. right.
    assert (H47 : 47 ∉ b1).
    { intros H. apply Hb, elem_of_app. by left. }
    split; [split|].
    + by rewrite <- app_assoc.
    + intros a' b' E Hb'.
      assert (E' : split_last 47 (a ++ 47 :: b1) = Some (a', b'))
        by (rewrite E; by apply split_last_app).
      rewrite split_last_app in E' by done. by injection E' as <- <-.
    + intros H. exfalso. apply H, elem_of_app. right. by left.
  - unfold split_or. destruct (split_first 59 p) as [[x y]|] eqn:Hf; [|by left].
    apply split_first_Some in Hf as [-> Hx].
    destruct y as [|c y]; [|by left]. right. cbn [non_empty].
    split; [split; [done|]|done].
    intros a' b' -> _. exfalso.
    assert (H : split_last 47 ((a' ++ 47 :: b') ++ [59]) = None) by exact Hl.
    rewrite <- app_assoc in H. cbn [app] in H.
    assert (H' : 47 ∈ a' ++ 47 :: b' ++ [59]) by (apply elem_of_app; right; by left).
    clear -H H'. revert H H'. generalize (a' ++ 47 :: b' ++ [59]).
    intros l. induction l as [|z l IH]; [by intros _ ?%elem_of_nil|].
    simpl. destruct (split_last 47 l) as [[? ?]|]; [discriminate|].
    destruct (N.eqb_spec z 47) as [->|Hz]; [discriminate|].
    intros _ [?|?]%elem_of_cons; [done|]. by apply IH.
Qed.

Lemma params_norm_fixed (s r : pystr) :
  (∀ a b, r = a ++ 47 :: b → 47 ∉ b → 59 ∉ b) →
  (47 ∉ r → 59 ∉ r) →
  params_norm s r = r.
Proof.
  intros Hslash Hnone. unfold params_norm.
  destruct (in_list s uses_params && mem_char 59 r) eqn:Hc; [|done].
  apply andb_true_iff in Hc as [_ Hc%mem_char_elem].
  unfold splitparams.
  destruct (split_last 47 r) as [[a b]|] eqn:Hl.
  - apply split_last_Some in Hl as [-> Hb].
    pose proof (Hslash a b eq_refl Hb) as H59.
    apply split_first_None in H59. by rewrite H59.
  - exfalso. apply Hnone; [|done].
    intros H47. apply list_elem_of_split in H47 as (l1 & l2 & ->).
    clear -Hl. induction l1 as [|z l1 IH]; simpl in Hl.
    + destruct (split_last 47 l2) as [[? ?]|]; discriminate.
    + destruct (split_last 47 (l1 ++ 47 :: l2)) as [[? ?]|]; [discriminate|].
      by apply IH.
Qed.

Lemma params_norm_idem (s p : pystr) :
  params_norm s (params_norm s p) = params_norm s p.
Proof.
  destruct (params_norm_spec s p) as [E|[[_ H1] H2]]; [by rewrite !E|].
  by apply params_norm_fixed.
Qed.

Lemma params_norm_prefix (s p : pystr) : ∃ k, p = params_norm s p ++ k.
Proof.
  destruct (params_norm_spec s p) as [E|[[E _] _]].
  - exists []. by rewrite app_nil_r.
  - by exists [59].
Qed.

Lemma params_norm_slash (s p : pystr) :
  params_norm s (47 :: p) = 47 :: params_norm s p.
Proof.
  unfold params_norm.
  assert (mem_char 59 (47 :: p) = mem_char 59 p) as -> by done.
  destruct (in_list s uses_params && mem_char 59 p); [|done].
  unfold splitparams. cbn [split_last].
  destruct (split_last 47 p) as [[a b]|] eqn:Hl.
  - destruct (split_first 59 b) as [[b1 b2]|]; [|done].
    by destruct (non_empty b2).
  - rewrite N.eqb_refl. unfold split_or.
    destruct (split_first 59 p) as [[b1 b2]|]; [|done].
    by destruct (non_empty b2).
Qed.

Lemma params_norm_2slash (s p : pystr) :
  starts_with_2slash (params_norm s p) = starts_with_2slash p.
Proof.
  destruct (params_norm_spec s p) as [->|[[E _] _]]; [done|].
  set (pn := params_norm s p) in *. rewrite E. clearbody pn. clear E.
  destruct pn as [|c1 [|c2 t]]; cbn [app starts_with_2slash]; [done| |done].
  by rewrite andb_false_r.
Qed.

Lemma params_norm_written (s n p : pystr) :
  params_norm s p = p →
  params_norm s (written_path s n p) = written_path s n p.
Proof.
  intros E. destruct (written_path_cases s n p) as [->|(-> & _)]; [done|].
  by rewrite params_norm_slash, E.
Qed.
End ParamsFacts.

Section FirstPass.
Context {L : PyLib}.

Lemma cleanup_props (url : pystr) :
  Forall (fun c => unsafe_url_char c = false) (url_cleanup url)
  ∧ head_ok (url_cleanup url).
Proof.
  unfold url_cleanup. split.
  - apply Forall_forall. by intros x [? _]%list_elem_of_filter.
  - induction url as [|c t IH]; [done|]. simpl.
    destruct (c0_control_or_space c) eqn:Hc; [exact IH|].
    rewrite filter_cons. destruct (decide (unsafe_url_char c = false)) as [|Hu].
    + exact Hc.
    + exfalso. apply Hu. clear -Hc.
      unfold unsafe_url_char, c0_control_or_space in *.
      apply N.leb_gt in Hc.
      destruct (N.eqb_spec c 9), (N.eqb_spec c 13), (N.eqb_spec c 10);
        simpl; try lia; done.
Qed.

Lemma split_netloc_spec (r1 n r2 : pystr) :
  split_netloc r1 = (n, r2) →
  (n = [] ∧ r2 = r1 ∧ starts_with_2slash r1 = false)
  ∨ (r1 = 47 :: 47 :: n ++ r2
     ∧ Forall (fun x => netloc_delim x = false) n
     ∧ match r2 with x :: _ => netloc_delim x = true | [] => True end).
Proof.
  unfold split_netloc. destruct r1 as [|c1 [|c2 r]]; try (intros [= <- <-]; by left).
  destruct ((c1 =? 47) && (c2 =? 47)) eqn:Hc.
  - apply andb_true_iff in Hc as [->%N.eqb_eq ->%N.eqb_eq].
    intros (-> & Hn & Hr)%span_until_spec. by right.
  - intros [= <- <-]. left. by rewrite <- Hc.
Qed.

Lemma path_head (r2 r3 p0 p k x y : pystr) :
  match r2 with c :: _ => netloc_delim c = true | [] => True end →
  r2 = r3 ++ x → r3 = p0 ++ y → p0 = p ++ k → 63 ∉ p0 → 35 ∉ r3 →
  p = [] ∨ starts_with_slash p = true.
Proof.
  intros Hd -> -> -> H63 H35. destruct p as [|c t]; [by left|]. right.
  simpl in *. apply delim_chars in Hd as [-> | [-> | ->]]; [apply N.eqb_refl| |].
  - exfalso. apply H63. by left.
  - exfalso. apply H35. by left.
Qed.

(** The components of a split URL, the path taken with its parameters,
    are such that writing and splitting them again changes nothing. *)
Lemma urlsplit_inv (url : pystr) (sr : SplitResult) :
  urlsplit url = Ok sr →
  url_inv (sr_scheme sr) (sr_netloc sr)
    (params_norm (sr_scheme sr) (sr_path sr)) (sr_query sr).
Proof.
  unfold urlsplit. destruct (cleanup_props url) as [Sc Hc].
  set (c := url_cleanup url) in *. clearbody c.
  destruct (split_scheme c) as [s r1] eqn:Hs.
  destruct (split_netloc r1) as [n r2] eqn:Hn.
  destruct (split_or 35 r2) as [r3 f] eqn:Hf.
  destruct (split_or 63 r3) as [p0 q] eqn:Hq.
  intros Hok.
  assert (Hsr : sr = Build_SplitResult s n p0 q f
                ∧ (n = [] ∨ netloc_ok n = true)).
  { destruct n as [|x n]; [injection Hok as <-; by auto|].
    destruct (netloc_ok (x :: n)) eqn:Hnl; [|discriminate].
    injection Hok as <-. by auto. }
  destruct Hsr as [-> I7]. cbn [sr_scheme sr_netloc sr_path sr_query].
  destruct (params_norm_prefix s p0) as [k Hk].
  set (p := params_norm s p0) in *.
  apply split_or_spec in Hf as [H35 Hf], Hq as [H63 Hq].
  apply split_scheme_spec in Hs.
  apply split_netloc_spec in Hn.
  assert (Ef : ∃ x, r2 = r3 ++ x).
  { destruct Hf as [->|[-> _]]; [by eexists|]. exists []. by rewrite app_nil_r. }
  assert (Eq : ∃ y, r3 = p0 ++ y ∧ (∀ z, z ∈ q → z ∈ r3)).
  { destruct Hq as [->|[-> ->]].
    - eexists. split; [done|]. intros z Hz. apply elem_of_app. right. by right.
    - exists []. split; [by rewrite app_nil_r|]. by intros z ?%elem_of_nil. }
  destruct Ef as [xf Ef], Eq as (yq & Eq & Hqsub).
  assert (Hr1 : ∀ z, z ∈ r1 → z ∈ c).
  { destruct Hs as [(_ & -> & _)|(pre & _ & _ & ->)]; [done|].
    intros z Hz. apply elem_of_app. right. by right. }
  assert (Hnr : (∀ z, z ∈ n → z ∈ r1) ∧ (∀ z, z ∈ r2 → z ∈ r1)).
  { destruct Hn as [(-> & -> & _)|(-> & _ & _)].
    - split; [by intros z ?%elem_of_nil | done].
    - split; intros z Hz; do 2 right; apply elem_of_app; by auto. }
  destruct Hnr as [Hnsub Hr2sub].
  assert (Hp0 : ∀ z, z ∈ p0 → z ∈ r2).
  { intros z Hz. rewrite Ef, Eq. apply elem_of_app. left. apply elem_of_app. by left. }
  assert (Hpsub : ∀ z, z ∈ p → z ∈ p0).
  { intros z Hz. rewrite Hk. apply elem_of_app. by left. }
  assert (Hhead : match r2 with x :: _ => netloc_delim x = true | [] => True end →
                  p = [] ∨ starts_with_slash p = true).
  { intros Hd. by eapply (path_head r2 r3 p0 p k xf yq). }
  rewrite Forall_forall in Sc.
  split.
  - destruct Hs as [(-> & _)|(pre & Hpre & -> & _)]; [by left|right].
    by apply scheme_ok_tolower.
  - destruct Hn as [(-> & _)|(_ & ? & _)]; [constructor|done].
  - split; intros H; apply Hpsub in H; [done|].
    apply H35. rewrite Eq. apply elem_of_app. by left.
  - intros H. by apply H35, Hqsub.
  - intros Hne. destruct Hn as [(-> & _)|(_ & _ & Hd)]; [done|]. by apply Hhead.
  - apply Forall_forall. intros z Hz. apply Sc, Hr1.
    apply elem_of_app in Hz as [Hz|Hz]; [by apply Hnsub|].
    apply Hr2sub. apply elem_of_app in Hz as [Hz|Hz].
    + by apply Hp0, Hpsub.
    + rewrite Ef. apply elem_of_app. left. by apply Hqsub.
  - intros ->. destruct Hs as [(_ & -> & Hno)|(pre & Hpre & Hnil & _)].
    + destruct Hn as [(-> & -> & _)|(_ & _ & Hd)].
      * assert (E : c = p ++ (k ++ yq ++ xf)).
        { rewrite Ef, Eq, Hk. by rewrite <- !app_assoc. }
        split.
        -- apply (no_scheme_prefix_prefix p (k ++ yq ++ xf)). by rewrite <- E.
        -- rewrite E in Hc. by destruct p.
      * destruct (Hhead Hd) as [->|[t Ht]%starts_with_slash_eq].
        -- split; [by apply no_scheme_prefix_slash | done].
        -- rewrite Ht. split; [by apply no_scheme_prefix_slash | done].
    + exfalso. destruct pre; [discriminate Hpre | discriminate Hnil].
  - exact I7.
  - apply params_norm_idem.
Qed.

Lemma canonical_url_eq (url : pystr) :
  canonical_url url
  = bind (urlsplit url) (fun sr =>
      Ok (urlunsplit (sr_scheme sr) (sr_netloc sr)
            (params_norm (sr_scheme sr) (sr_path sr)) (sr_query sr) [])).
Proof.
  unfold canonical_url, urlparse. destruct (urlsplit url) as [sr|e]; [|done].
  cbn [bind]. unfold params_norm, urlunparse.
  by destruct (if in_list (sr_scheme sr) uses_params && mem_char 59 (sr_path sr)
               then splitparams (sr_path sr) else (sr_path sr, [])) as [p params].
Qed.
End FirstPass.

Section Fragment.
Context {L : PyLib}.

Lemma strip_fragment_cons (c : N) (t : pystr) :
  strip_fragment (c :: t) = if c =? 35 then [] else c :: strip_fragment t.
Proof.
  unfold strip_fragment, split_or. simpl.
  destruct (c =? 35); [done|]. by destruct (split_first 35 t) as [[a b]|].
Qed.

Lemma strip_fragment_app (a x : pystr) :
  35 ∉ a → strip_fragment (a ++ x) = a ++ strip_fragment x.
Proof.
  induction a as [|c a IH]; [done|]. intros [Hc Ha]%not_elem_of_cons.
  cbn [app]. rewrite strip_fragment_cons.
  destruct (N.eqb_spec c 35); [done|]. by rewrite IH.
Qed.

Lemma strip_fragment_split (x : pystr) :
  split_or 35 (strip_fragment x) = (strip_fragment x, [])
  ∧ strip_fragment x = fst (split_or 35 x).
Proof.
  split; [|done]. apply split_or_none. unfold strip_fragment.
  destruct (split_or 35 x) as [a b] eqn:H. by apply split_or_spec in H as [? _].
Qed.

Lemma lstrip_strip (x : pystr) :
  lstrip_with c0_control_or_space (strip_fragment x)
  = strip_fragment (lstrip_with c0_control_or_space x).
Proof.
  induction x as [|c t IH]; [done|]. rewrite strip_fragment_cons.
  destruct (N.eqb_spec c 35) as [->|Hc]; [done|]. simpl.
  destruct (c0_control_or_space c); [exact IH|].
  rewrite strip_fragment_cons. by destruct (N.eqb_spec c 35).
Qed.

Lemma cleanup_strip (url : pystr) :
  url_cleanup (strip_fragment url) = strip_fragment (url_cleanup url).
Proof.
  unfold url_cleanup. rewrite lstrip_strip.
  generalize (lstrip_with c0_control_or_space url). intros x.
  induction x as [|c t IH]; [done|]. rewrite strip_fragment_cons.
  destruct (N.eqb_spec c 35) as [->|Hc].
  - rewrite filter_cons_True by done. by rewrite strip_fragment_cons.
  - rewrite !filter_cons. destruct (decide (unsafe_url_char c = false)).
    + rewrite strip_fragment_cons. destruct (N.eqb_spec c 35); [done|].
      by rewrite IH.
    + exact IH.
Qed.

Lemma scheme_ok_no_hash (pre : pystr) : scheme_ok pre = true → 35 ∉ pre.
Proof.
  intros [Hs _]%scheme_ok_chars Hin. rewrite Forall_forall in Hs.
  by destruct (scheme_char_plain 35 (Hs 35 Hin)) as (_ & _ & ? & _).
Qed.

Lemma split_scheme_prefix (pre r : pystr) :
  scheme_ok pre = true →
  split_scheme (pre ++ 58 :: r) = (map ascii_tolower pre, r).
Proof.
  intros Hs. unfold split_scheme.
  rewrite split_first_app by (by apply scheme_ok_no_colon).
  destruct pre as [|c t]; [discriminate|].
  unfold scheme_ok in Hs. by rewrite Hs.
Qed.

Lemma url_cleanup_scheme (pre rest : pystr) :
  scheme_ok pre = true →
  url_cleanup (pre ++ 58 :: rest)
  = pre ++ 58 :: filter (fun c => unsafe_url_char c = false) rest.
Proof.
  intros Hok. unfold url_cleanup.
  rewrite lstrip_with_id.
  - rewrite filter_app, filter_cons_True by done. f_equal.
    pose proof (safe_scheme pre Hok) as Hs.
    clear Hok. induction Hs as [|c t Hc _ IH]; [done|].
    by rewrite filter_cons_True, IH.
  - apply scheme_ok_chars in Hok as [Hc (c & t & -> & Ha)]. cbn [app].
    apply Forall_cons in Hc as [Hc _].
    by destruct (scheme_char_plain c Hc) as (_ & _ & _ & _ & _ & ?).
Qed.

Lemma filter_safe_id (x : list N) :
  Forall (fun c => unsafe_url_char c = false) x →
  filter (fun c => unsafe_url_char c = false) x = x.
Proof.
  induction 1 as [|c t Hc _ IH]; [done|]. by rewrite filter_cons_True, IH.
Qed.

(** A URL that is written with a scheme, "//", a host and a path has that
    host as its network location. *)
Lemma urlsplit_host (pre host rest : pystr) (sr : SplitResult) :
  scheme_ok pre = true →
  Forall (fun c => netloc_delim c = false) host →
  Forall (fun c => unsafe_url_char c = false) host →
  urlsplit (pre ++ 58 :: 47 :: 47 :: host ++ 47 :: rest) = Ok sr →
  sr_scheme sr = map ascii_tolower pre ∧ sr_netloc sr = host.
Proof.
  intros Hpre Hd Hs. unfold urlsplit.
  rewrite (url_cleanup_scheme pre _ Hpre), (split_scheme_prefix pre _ Hpre).
  change (@filter N pystr) with (@filter N (list N)).
  rewrite !filter_cons_True by done.
  rewrite filter_app, (filter_safe_id host Hs), filter_cons_True by done.
  cbn [split_netloc]. rewrite N.eqb_refl. cbn [andb].
  rewrite (span_until_app netloc_delim host (47 :: _)) by done.
  destruct (split_or 35 _) as [r3 f]. destruct (split_or 63 r3) as [p0 q].
  destruct host as [|x host]; [by intros [= <-]|].
  destruct (netloc_ok (x :: host)); [|discriminate]. by intros [= <-].
Qed.

Lemma strip_fragment_prefix (x : pystr) : ∃ k, x = strip_fragment x ++ k.
Proof.
  unfold strip_fragment. destruct (split_or 35 x) as [a b] eqn:H.
  apply split_or_spec in H as [_ [->|[-> ->]]]; [by eexists|].
  exists []. by rewrite app_nil_r.
Qed.

Lemma split_scheme_strip (c s r1 : pystr) :
  split_scheme c = (s, r1) →
  split_scheme (strip_fragment c) = (s, strip_fragment r1).
Proof.
  intros [(-> & -> & Hno)|(pre & Hpre & -> & ->)]%split_scheme_spec.
  - apply split_scheme_none.
    destruct (strip_fragment_prefix c) as [k Hk]. rewrite Hk in Hno.
    by apply no_scheme_prefix_prefix in Hno.
  - rewrite strip_fragment_app by (by apply scheme_ok_no_hash).
    rewrite strip_fragment_cons. cbn [N.eqb Pos.eqb].
    by apply split_scheme_prefix.
Qed.

Lemma split_netloc_strip (r1 n r2 : pystr) :
  split_netloc r1 = (n, r2) →
  split_netloc (strip_fragment r1) = (n, strip_fragment r2).
Proof.
  intros [(-> & -> & H2)|(-> & Hn & Hd)]%split_netloc_spec.
  - unfold split_netloc.
    destruct r1 as [|c1 [|c2 t]]; [done| |].
    + rewrite strip_fragment_cons. by destruct (c1 =? 35).
    + rewrite !strip_fragment_cons.
      destruct (N.eqb_spec c1 35) as [->|H1]; [done|].
      destruct (N.eqb_spec c2 35) as [->|H2']; [done|].
      simpl in H2. by rewrite H2.
  - rewrite !strip_fragment_cons. cbn [N.eqb Pos.eqb].
    rewrite strip_fragment_app.
    + cbn [split_netloc]. rewrite N.eqb_refl. cbn [andb].
      apply span_until_app; [done|].
      destruct r2 as [|x t]; [done|]. rewrite strip_fragment_cons.
      by destruct (x =? 35).
    + intros H. rewrite Forall_forall in Hn. by specialize (Hn 35 H).
Qed.

(** Without its fragment a URL splits into the same components, the
    fragment apart. *)
Lemma urlsplit_strip (url : pystr) :
  urlsplit (strip_fragment url)
  = bind (urlsplit url) (fun sr =>
      Ok (Build_SplitResult (sr_scheme sr) (sr_netloc sr) (sr_path sr)
            (sr_query sr) [])).
Proof.
  unfold urlsplit. rewrite cleanup_strip.
  destruct (split_scheme (url_cleanup url)) as [s r1] eqn:Hs.
  rewrite (split_scheme_strip _ _ _ Hs).
  destruct (split_netloc r1) as [n r2] eqn:Hn.
  rewrite (split_netloc_strip _ _ _ Hn).
  destruct (strip_fragment_split r2) as [-> E].
  destruct (split_or 35 r2) as [r3 f]. cbn [fst] in E. rewrite E.
  destruct (split_or 63 r3) as [p0 q].
  destruct n as [|x n]; [done|]. by destruct (netloc_ok (x :: n)).
Qed.

(** The canonical form of a URL with a plain path splits into the
    components it was written from, and is a fixed point. *)
Lemma canonical_url_resplit (url c : pystr) (sr : SplitResult) :
  urlsplit url = Ok sr → plain_path sr → canonical_url url = Ok c →
  urlsplit c
  = Ok (Build_SplitResult (sr_scheme sr) (sr_netloc sr)
          (written_path (sr_scheme sr) (sr_netloc sr)
             (params_norm (sr_scheme sr) (sr_path sr)))
          (sr_query sr) [])
  ∧ canonical_url c = Ok c.
Proof.
  intros Hsr Hplain. rewrite (canonical_url_eq url), Hsr. cbn [bind].
  intros [= <-]. pose proof (urlsplit_inv url sr Hsr) as Hinv.
  assert (HC : sr_netloc sr ≠ []
               ∨ starts_with_2slash (params_norm (sr_scheme sr) (sr_path sr))
                 = false).
  { rewrite params_norm_2slash. exact Hplain. }
  pose proof (urlsplit_unsplit _ _ _ _ Hinv HC) as Hre. split; [exact Hre|].
  rewrite canonical_url_eq, Hre.
  cbn [bind sr_scheme sr_netloc sr_path sr_query].
  rewrite params_norm_written by apply (inv_params _ _ _ _ Hinv).
  by rewrite urlunsplit_written.
Qed.

Lemma canonical_url_fixed (url c : pystr) :
  (∀ sr, urlsplit url = Ok sr → plain_path sr) →
  canonical_url url = Ok c → canonical_url c = Ok c.
Proof.
  intros Hplain Hc. pose proof Hc as Hc'. rewrite canonical_url_eq in Hc'.
  destruct (urlsplit url) as [sr|e] eqn:Hsr; [|discriminate].
  by destruct (canonical_url_resplit url c sr Hsr (Hplain sr eq_refl) Hc).
Qed.

(** C8 (as amended). A URL without its fragment has the same canonical
    form, so the same identifier, as the URL itself. Canonicalising the
    canonical form of a URL gives that form again (and a URL that
    [urlsplit] rejects is rejected both times) when the URL has a network
    location or a path that does not start with "//"; that form then has
    the scheme, the network location and the query of the URL. *)
Theorem canonical_url_idempotent_plain (url : pystr) :
  canonical_url (strip_fragment url) = canonical_url url
  ∧ bind (canonical_url (strip_fragment url)) make_id
    = bind (canonical_url url) make_id
  ∧ ((∀ sr, urlsplit url = Ok sr → plain_path sr) →
     bind (canonical_url url) canonical_url = canonical_url url
     ∧ ∀ sr c, urlsplit url = Ok sr → canonical_url url = Ok c →
         ∃ sr', urlsplit c = Ok sr'
                ∧ sr_scheme sr' = sr_scheme sr ∧ sr_netloc sr' = sr_netloc sr
                ∧ sr_query sr' = sr_query sr ∧ sr_fragment sr' = []).
Proof.
  assert (Hstrip : canonical_url (strip_fragment url) = canonical_url url).
  { rewrite !canonical_url_eq, urlsplit_strip.
    by destruct (urlsplit url) as [sr|e]. }
  split; [exact Hstrip|]. split; [by rewrite Hstrip|].
  intros Hplain. split.
  - destruct (canonical_url url) as [c|e] eqn:Hc; [|done]. cbn [bind].
    by apply (canonical_url_fixed url).
  - intros sr c Hsr Hc.
    destruct (canonical_url_resplit url c sr Hsr (Hplain sr Hsr) Hc) as [H _].
    eexists. split; [exact H|done].
Qed.
End Fragment.

(** The canonical form of a concrete link: the scheme is lowered, the
    fragment dropped, and the result is a fixed point. *)
Example canonical_url_example :
  @canonical_url toy_lib (u "HTTPS://Example.com/a/b;x?q=1#top")
  = Ok (u "https://Example.com/a/b;x?q=1")
  ∧ @canonical_url toy_lib (u "https://Example.com/a/b;x?q=1")
    = Ok (u "https://Example.com/a/b;x?q=1").
Proof. split; vm_compute; reflexivity. Qed.

(** C8, the claim as stated fails: without a network location a path of
    two slashes is written as it is, and read again as an empty network
    location; so "////" has the canonical form "//", whose canonical form
    is the empty text. *)
Lemma canonical_url_not_idempotent :
  @canonical_url toy_lib (u "////") = Ok (u "//")
  ∧ @canonical_url toy_lib (u "//") = Ok []
  ∧ bind (@canonical_url toy_lib (u "////")) (@canonical_url toy_lib)
    ≠ @canonical_url toy_lib (u "////").
Proof. vm_compute. repeat split. discriminate. Qed.

Lemma canonical_url_idempotent_plain_witness :
  let url := u "HTTPS://Example.com/a/b;x?q=1#top" in
  bind (@canonical_url toy_lib url) (@canonical_url toy_lib)
  = @canonical_url toy_lib url
  ∧ @canonical_url toy_lib url = Ok (u "https://Example.com/a/b;x?q=1").
Proof.
  intros url. split; [|vm_compute; reflexivity].
  refine (proj1 (proj2 (proj2 (@canonical_url_idempotent_plain toy_lib url)) _)).
  intros sr H. vm_compute in H. injection H as <-. left. discriminate.
Defined.

(** ** What a refresh leaves in the cache *)

Section CacheInvariants.
Context {U : UnicodeData} {L : PyLib}.

Lemma canonical_url_raises (url : pystr) (e : exn) :
  canonical_url url = Raise e → e = ValueError.
Proof.
  rewrite canonical_url_eq. unfold urlsplit.
  destruct (split_scheme (url_cleanup url)) as [s r1].
  destruct (split_netloc r1) as [n r2].
  destruct (split_or 35 r2) as [r3 f].
  destruct (split_or 63 r3) as [p q].
  destruct n as [|x n]; [discriminate|].
  destruct (netloc_ok (x :: n)); [discriminate|]. by intros [= <-].
Qed.

Lemma make_id_raises (url : pystr) (e : exn) :
  make_id url = Raise e → e = UnicodeEncodeError.
Proof.
  unfold make_id, utf8_encode.
  destruct (existsb is_surrogate url); [by intros [= <-]|discriminate].
Qed.

Lemma candidate_raises (web : Web) (src : source) (it : item) (e : exn) :
  candidate web src it = Raise e → e = ValueError ∨ e = UnicodeEncodeError.
Proof.
  unfold candidate.
  destruct (canonical_url (item_url it)) as [link|e1] eqn:Hc.
  - cbn [bind]. destruct (make_id link) as [lid|e2] eqn:Hid; [discriminate|].
    intros [= <-]. right. by eapply make_id_raises.
  - intros [= <-]. left. by eapply canonical_url_raises.
Qed.

Lemma candidate_well_formed (web : Web) (src : source) (it : item) (l : Listing) :
  candidate web src it = Ok l → well_formed l ∧ source_of l = src.
Proof.
  unfold candidate.
  destruct (canonical_url (item_url it)) as [link|e1] eqn:Hc; [|discriminate].
  cbn [bind]. destruct (make_id link) as [lid|e2] eqn:Hid; [|discriminate].
  intros [= <-]. split; [|done]. split; [|split]; cbn.
  - exists (item_url it). split; [done|]. intros Hp.
    by apply (canonical_url_fixed (item_url it)).
  - done.
  - unfold choose_title.
    destruct (truthy (d_title _)) as [t|] eqn:Ht.
    { destruct (d_title _) as [[|? ?]|]; simplify_eq/=. done. }
    destruct (truthy (item_title it)) as [t|] eqn:Hi; [|done].
    destruct (item_title it) as [[|? ?]|]; simplify_eq/=. done.
Qed.

Lemma process_item_candidate (web : Web) (src : source) (it : item)
    (log : list call) :
  process_item web src it log
  = match candidate web src it with
    | Ok l => (Ok l, CallSleep :: CallParse src (url l) :: log)
    | Raise e => (Raise e, log)
    end.
Proof.
  unfold process_item, candidate.
  destruct (canonical_url (item_url it)) as [link|e1]; [|done].
  cbn [bind]. by destruct (make_id link) as [lid|e2].
Qed.

Lemma process_items_collect (web : Web) (src : source) (items : list item)
    (new : list Listing) :
  collect (candidate web src) items = Ok new →
  ∀ (combined : list Listing) (log : list call),
    process_items web src items combined log
    = (Ok (combined ++ new),
       reverse (flat_map (fun l => [CallParse src (url l); CallSleep]) new) ++ log).
Proof.
  revert new. induction items as [|it rest IH]; intros new H combined log.
  - injection H as <-. by rewrite app_nil_r.
  - cbn [collect] in H. cbn [process_items]. rewrite process_item_candidate.
    destruct (candidate web src it) as [l|e]; [|discriminate]. cbn [bind] in H.
    destruct (collect (candidate web src) rest) as [ls|e]; [|discriminate].
    injection H as <-. rewrite (IH ls eq_refl). f_equal.
    + by rewrite <- app_assoc.
    + cbn [flat_map]. rewrite (reverse_app [_; _]), <- app_assoc. done.
Qed.

Lemma process_items_raise (web : Web) (src : source) (items : list item) (e : exn) :
  ∀ (combined : list Listing) (log log' : list call),
    process_items web src items combined log = (Raise e, log') →
    ∃ it, it ∈ items ∧ candidate web src it = Raise e.
Proof.
  induction items as [|it rest IH]; intros combined log log' H;
    cbn [process_items] in H; [discriminate|].
  rewrite process_item_candidate in H.
  destruct (candidate web src it) as [l|e1] eqn:Hc.
  - apply IH in H as (it' & Hin & H). exists it'. split; [by right|done].
  - injection H as <- <-. exists it. split; [by left|done].
Qed.

Lemma process_sources_raise (web : Web) (srcs : list source) (e : exn) :
  ∀ (combined : list Listing) (log log' : list call),
    process_sources web srcs combined log = (Raise e, log') →
    ∃ s, search_fn web s = Raise e
         ∨ ∃ items it, search_fn web s = Ok items ∧ it ∈ items
                       ∧ candidate web s it = Raise e.
Proof.
  induction srcs as [|src rest IH]; intros combined log log' H;
    cbn [process_sources] in H; [discriminate|].
  destruct (search_fn web src) as [base|e1] eqn:Hs.
  - destruct (process_items web src base combined (CallSearch src :: log))
      as [[c1|e1] log1] eqn:Hits.
    + by apply IH in H.
    + injection H as <- <-. apply process_items_raise in Hits as (it & Hin & Hc).
      exists src. right. by exists base, it.
  - injection H as <- <-. exists src. by left.
Qed.

Lemma process_items_forall (P : Listing → Prop) (web : Web) (src : source)
    (items : list item) :
  (∀ it l, candidate web src it = Ok l → P l) →
  ∀ (combined : list Listing) (log : list call) (combined' : list Listing)
    (log' : list call),
    process_items web src items combined log = (Ok combined', log') →
    ∃ new, combined' = combined ++ new ∧ Forall P new.
Proof.
  intros HP. induction items as [|it rest IH]; intros combined log combined' log' H;
    cbn [process_items] in H.
  - injection H as <- <-. exists []. by rewrite app_nil_r.
  - rewrite process_item_candidate in H.
    destruct (candidate web src it) as [l|e] eqn:Hc; [|discriminate].
    apply IH in H as (new & -> & Hnew). exists (l :: new).
    split; [by rewrite <- app_assoc|]. constructor; [by eapply HP|done].
Qed.

Lemma process_sources_forall (P : Listing → Prop) (web : Web) (srcs : list source) :
  (∀ src it l, candidate web src it = Ok l → P l) →
  ∀ (combined : list Listing) (log : list call) (combined' : list Listing)
    (log' : list call),
    process_sources web srcs combined log = (Ok combined', log') →
    ∃ new, combined' = combined ++ new ∧ Forall P new.
Proof.
  intros HP. induction srcs as [|src rest IH]; intros combined log combined' log' H;
    cbn [process_sources] in H.
  - injection H as <- <-. exists []. by rewrite app_nil_r.
  - destruct (search_fn web src) as [base|e]; [|discriminate].
    destruct (process_items web src base combined (CallSearch src :: log))
      as [[c1|e] log1] eqn:Hits; [|discriminate].
    apply (process_items_forall P) in Hits as (new1 & -> & Hnew1); [|by apply HP].
    apply IH in H as (new2 & -> & Hnew2).
    exists (new1 ++ new2). split; [by rewrite <- app_assoc|].
    by apply Forall_app.
Qed.
End CacheInvariants.

Section CacheShape.
Context {U : UnicodeData} {L : PyLib}.

Lemma index_foldl_key (ls : list Listing) :
  ∀ (m : gmap pystr Listing) (k : pystr) (l : Listing),
    (∀ k l, m !! k = Some l → id l = k) →
    foldl (fun m l => <[id l := l]> m) m ls !! k = Some l → id l = k.
Proof.
  induction ls as [|x t IH]; intros m k l Hm H; cbn [foldl] in H; [by apply Hm|].
  eapply IH; [|exact H]. intros k' l' H'.
  destruct (decide (id x = k')) as [<-|Hne].
  - rewrite lookup_insert_eq in H'. by injection H' as ->.
  - rewrite lookup_insert_ne in H' by done. by apply Hm.
Qed.

Lemma index_by_id_key (ls : list Listing) (k : pystr) (l : Listing) :
  index_by_id ls !! k = Some l → id l = k.
Proof.
  apply index_foldl_key. intros k' l' H. by rewrite lookup_empty in H.
Qed.

(** Of the listings with one identifier the index holds the last. *)
Lemma index_by_id_last (pre : list Listing) (l : Listing) (post : list Listing) :
  id l ∉ id <$> post → index_by_id (pre ++ l :: post) !! id l = Some l.
Proof.
  intros Hpost. unfold index_by_id. rewrite foldl_app. cbn [foldl].
  rewrite index_foldl_notin by done. apply lookup_insert_eq.
Qed.

Lemma last_with_id (ls : list Listing) (k : pystr) :
  k ∈ id <$> ls →
  ∃ pre l post, ls = pre ++ l :: post ∧ id l = k ∧ k ∉ id <$> post.
Proof.
  induction ls as [|x t IH]; intros Hin; [by apply elem_of_nil in Hin|].
  destruct (decide (k ∈ id <$> t)) as [Ht|Ht].
  - destruct (IH Ht) as (pre & l & post & -> & E & Hn).
    by exists (x :: pre), l, post.
  - rewrite fmap_cons in Hin. apply elem_of_cons in Hin as [->|Hin]; [|done].
    by exists [], x, t.
Qed.

(** The index and the list of a cache agree: an entry of the index is a
    listing of the list under its own identifier, and the identifier of a
    listing of the list has an entry. *)
Lemma index_by_id_agrees (ls : list Listing) :
  (∀ k l, index_by_id ls !! k = Some l → l ∈ ls ∧ id l = k)
  ∧ (∀ l, l ∈ ls → ∃ l', index_by_id ls !! id l = Some l' ∧ l' ∈ ls ∧ id l' = id l)
  ∧ (∀ pre l post, ls = pre ++ l :: post → id l ∉ id <$> post →
       index_by_id ls !! id l = Some l).
Proof.
  split; [|split].
  - intros k l H. split; [by eapply index_by_id_elem | by eapply index_by_id_key].
  - intros l Hl.
    destruct (last_with_id ls (id l)) as (pre & l' & post & -> & E & Hn);
      [by apply list_elem_of_fmap_2|].
    exists l'. rewrite <- E in Hn |- *. split; [by apply index_by_id_last|].
    split; [|done]. apply elem_of_app. right. by left.
  - intros pre l post -> Hn. by apply index_by_id_last.
Qed.

(** A cache the program can hold is the initial one or the one a completed
    refresh has built. *)
Lemma reachable_shape (c : Cache) :
  reachable c →
  c = empty_cache
  ∨ ∃ web now log combined log',
      process_sources web the_sources [] log = (Ok combined, log')
      ∧ c = {| ts := now; listings := dedup ∅ combined;
               by_id := index_by_id (dedup ∅ combined) |}.
Proof.
  induction 1 as [|web now force c log Hc IH]; [by left|].
  unfold refresh_cache.
  destruct (negb force && within_ttl now c && _); [exact IH|].
  destruct (process_sources web the_sources [] log) as [[combined|e] log'] eqn:Hps;
    [|exact IH].
  right. by exists web, now, log, combined, log'.
Qed.

Lemma reachable_listings (P : Listing → Prop) (c : Cache) :
  (∀ web src it l, candidate web src it = Ok l → P l) →
  reachable c → Forall P (listings c).
Proof.
  intros HP [->|(web & now & log & combined & log' & Hps & ->)]%reachable_shape;
    [constructor|].
  apply (process_sources_forall P) in Hps as (new & -> & Hnew); [|by apply HP].
  cbn. apply Forall_forall. intros l Hl%dedup_elem.
  rewrite Forall_forall in Hnew. by apply Hnew.
Qed.

(** X1. In every cache the program can hold, the index by identifier and the
    list agree: an entry of the index is a listing of the list, stored
    under its own identifier; every listing of the list finds an entry
    under its identifier (so no link to a detail page dangles); and of
    several listings with one identifier the index holds the last. *)
Theorem cache_index_consistent (c : Cache) :
  reachable c →
  (∀ k l, by_id c !! k = Some l → l ∈ listings c ∧ id l = k)
  ∧ (∀ l, l ∈ listings c →
       ∃ l', by_id c !! id l = Some l' ∧ l' ∈ listings c ∧ id l' = id l)
  ∧ (∀ pre l post, listings c = pre ++ l :: post → id l ∉ id <$> post →
       by_id c !! id l = Some l)
  ∧ NoDup (dedup_key <$> listings c).
Proof.
  intros [->|(web & now & log & combined & log' & _ & ->)]%reachable_shape.
  - cbn. split; [|split; [|split]].
    + intros k l H. by rewrite lookup_empty in H.
    + intros l H. by apply elem_of_nil in H.
    + intros pre l post H. by destruct pre.
    + constructor.
  - cbn. destruct (index_by_id_agrees (dedup ∅ combined)) as (H1 & H2 & H3).
    split; [exact H1|]. split; [exact H2|]. split; [exact H3|].
    apply dedup_keys_NoDup.
Qed.

(** X2. In every cache the program can hold, each listing's URL is the
    canonical form of a URL, its identifier is the one derived from the
    URL it holds, and its title is empty only when the URL is; the entries
    of the index are stored under the identifier of their URL. When the
    URL that was canonicalised has a network location, or a path that
    does not start with "//", canonicalising the listing's URL again
    changes nothing. *)
Theorem cached_listings_well_formed (c : Cache) :
  reachable c →
  (∀ l, l ∈ listings c →
     (∃ found, canonical_url found = Ok (url l)
               ∧ ((∀ sr, urlsplit found = Ok sr → plain_path sr) →
                  canonical_url (url l) = Ok (url l)))
     ∧ make_id (url l) = Ok (id l)
     ∧ (title l = [] → url l = []))
  ∧ (∀ k l, by_id c !! k = Some l →
       (∃ found, canonical_url found = Ok (url l)) ∧ make_id (url l) = Ok k).
Proof.
  intros Hc.
  assert (Hwf : Forall well_formed (listings c)).
  { apply reachable_listings; [|done]. intros web src it l H.
    by apply candidate_well_formed in H as [H _]. }
  rewrite Forall_forall in Hwf. split; [exact Hwf|].
  intros k l H.
  (* an entry of the index is a listing of the list *)
  apply reachable_shape in Hc as [->|(web & now & log & combined & log' & _ & ->)].
  { cbn in H. by rewrite lookup_empty in H. }
  cbn in H, Hwf. destruct (index_by_id_agrees (dedup ∅ combined)) as (H1 & _).
  destruct (H1 k l H) as [Hin <-].
  destruct (Hwf l Hin) as ((found & Hf & _) & ? & _). split; [by exists found|done].
Qed.

End CacheShape.

Section RefreshResult.
Context {U : UnicodeData} {L : PyLib}.

(** X3. When every search returns and every URL found can be canonicalised
    and encoded, a forced refresh completes whatever the detail parsers
    raise: the cache gets the time of the refresh and the listings of the
    three sources, Ray White's first, then Domain's, then REA's, without
    the later ones of equal key, and the index built from them; the calls
    made are one search per source, each followed by one detail fetch and
    one pause per URL found. *)
Theorem refresh_forced_result (web : Web) (now : spec_float) (c : Cache)
    (log : list call) (items : source → list item) (ls : source → list Listing) :
  (∀ s, search_fn web s = Ok (items s)) →
  (∀ s, collect (candidate web s) (items s) = Ok (ls s)) →
  let all := ls raywhite ++ ls domain ++ ls rea in
  refresh_cache web now true c log
  = (Ok (),
     {| ts := now; listings := dedup ∅ all; by_id := index_by_id (dedup ∅ all) |},
     reverse (calls_of raywhite (ls raywhite) ++ calls_of domain (ls domain)
              ++ calls_of rea (ls rea)) ++ log).
Proof.
  intros Hs Hc all. unfold refresh_cache, the_sources. cbn [negb andb].
  cbn [process_sources].
  rewrite (Hs raywhite), (process_items_collect _ _ _ _ (Hc raywhite)).
  rewrite (Hs domain), (process_items_collect _ _ _ _ (Hc domain)).
  rewrite (Hs rea), (process_items_collect _ _ _ _ (Hc rea)).
  cbn [app]. rewrite <- app_assoc. fold all. f_equal.
  unfold calls_of. rewrite !reverse_app, !reverse_cons, <- !app_assoc. done.
Qed.

(** X4. A refresh that raises leaves the cache as it was, and what it raises
    comes from a search, or is the [ValueError] or [UnicodeEncodeError]
    of canonicalising or encoding a URL found: never from a detail
    parser. *)
Theorem refresh_failure_leaves_cache (web : Web) (now : spec_float)
    (force : bool) (c : Cache) (log : list call) (e : exn) :
  outcome (refresh_cache web now force c log) = Raise e →
  cache_after (refresh_cache web now force c log) = c
  ∧ ∃ s, search_fn web s = Raise e
         ∨ ∃ items it, search_fn web s = Ok items ∧ it ∈ items
                       ∧ candidate web s it = Raise e
                       ∧ (e = ValueError ∨ e = UnicodeEncodeError).
Proof.
  unfold refresh_cache, outcome, cache_after.
  destruct (negb force && within_ttl now c && _); [discriminate|].
  destruct (process_sources web the_sources [] log) as [[combined|e'] log'] eqn:Hps;
    [discriminate|].
  cbn. intros [= ->]. split; [done|].
  apply process_sources_raise in Hps as [s [Hs|(items & it & Hs & Hin & Hc)]].
  - exists s. by left.
  - exists s. right. exists items, it. repeat split; try done.
    by eapply candidate_raises.
Qed.
End RefreshResult.

Lemma cache_index_consistent_witness :
  (∀ k l, by_id ex_cache !! k = Some l → l ∈ listings ex_cache ∧ id l = k)
  ∧ (∀ l, l ∈ listings ex_cache →
       ∃ l', by_id ex_cache !! id l = Some l' ∧ l' ∈ listings ex_cache
             ∧ id l' = id l)
  ∧ (∀ pre l post, listings ex_cache = pre ++ l :: post → id l ∉ id <$> post →
       by_id ex_cache !! id l = Some l)
  ∧ NoDup (@dedup_key ascii_only <$> listings ex_cache).
Proof.
  apply (@cache_index_consistent ascii_only toy_lib ex_cache).
  apply (@reach_refresh ascii_only toy_lib ex_web _ false empty_cache []).
  apply reach_init.
Defined.

Lemma cached_listings_well_formed_witness :
  (∀ l, l ∈ listings ex_cache →
     (∃ found, @canonical_url toy_lib found = Ok (url l)
               ∧ ((∀ sr, @urlsplit toy_lib found = Ok sr → plain_path sr) →
                  @canonical_url toy_lib (url l) = Ok (url l)))
     ∧ @make_id toy_lib (url l) = Ok (id l)
     ∧ (title l = [] → url l = []))
  ∧ (∀ k l, by_id ex_cache !! k = Some l →
       (∃ found, @canonical_url toy_lib found = Ok (url l))
       ∧ @make_id toy_lib (url l) = Ok k).
Proof.
  apply (@cached_listings_well_formed ascii_only toy_lib ex_cache).
  apply (@reach_refresh ascii_only toy_lib ex_web _ false empty_cache []).
  apply reach_init.
Defined.

Lemma refresh_forced_result_witness :
  let all := ex_listings raywhite ++ ex_listings domain ++ ex_listings rea in
  ex_refresh ex_web 1000 true empty_cache []
  = (Ok (),
     {| ts := float_of_decimal 1000 0; listings := @dedup ascii_only ∅ all;
        by_id := index_by_id (@dedup ascii_only ∅ all) |},
     reverse (calls_of raywhite (ex_listings raywhite)
              ++ calls_of domain (ex_listings domain)
              ++ calls_of rea (ex_listings rea)) ++ []).
Proof.
  apply (@refresh_forced_result ascii_only toy_lib ex_web
           (float_of_decimal 1000 0) empty_cache [] (fun s => [ex_item s])
           ex_listings).
  - intros s. reflexivity.
  - intros []; vm_compute; reflexivity.
Defined.

Lemma refresh_failure_leaves_cache_witness :
  cache_after (ex_refresh web_down 2000 true empty_cache []) = empty_cache
  ∧ ∃ s, search_fn web_down s = Raise (OtherError 503)
         ∨ ∃ items it, search_fn web_down s = Ok items ∧ it ∈ items
             ∧ @candidate ascii_only toy_lib web_down s it = Raise (OtherError 503)
             ∧ (OtherError 503 = ValueError ∨ OtherError 503 = UnicodeEncodeError).
Proof.
  apply (@refresh_failure_leaves_cache ascii_only toy_lib web_down
           (float_of_decimal 2000 0) true empty_cache [] (OtherError 503)).
  vm_compute. reflexivity.
Defined.

(** ** More on deduplication *)

Section DedupMore.
Context {U : UnicodeData}.

Lemma dedup_covers (seen : gset pystr) (ls : list Listing) (x : Listing) :
  x ∈ ls →
  dedup_key x ∈ seen ∨ ∃ y, y ∈ dedup seen ls ∧ dedup_key y = dedup_key x.
Proof.
  revert seen. induction ls as [|l t IH]; intros seen Hin;
    [by apply elem_of_nil in Hin|].
  cbn [dedup]. destruct (decide (dedup_key l ∈ seen)) as [Hl|Hl].
  - apply elem_of_cons in Hin as [->|Hin]; [by left | by apply IH].
  - apply elem_of_cons in Hin as [->|Hin].
    + right. exists l. split; [by left|done].
    + destruct (IH ({[dedup_key l]} ∪ seen) Hin) as [Hs|(y & Hy & E)].
      * apply elem_of_union in Hs as [Hs%elem_of_singleton|Hs]; [|by left].
        right. exists l. split; [by left|done].
      * right. exists y. split; [by right|done].
Qed.

Lemma dedup_length (seen : gset pystr) (ls : list Listing) :
  (length (dedup seen ls) ≤ length ls)%nat.
Proof. apply sublist_length, dedup_sublist. Qed.

(** X5. Deduplicating loses no key and is idempotent: every candidate has a
    kept listing with its key; a list whose keys are already distinct is
    returned as it is, so deduplicating a second time changes nothing;
    and the result is never longer than the input. *)
Theorem dedup_idempotent (combined : list Listing) :
  (∀ x, x ∈ combined →
     ∃ y, y ∈ dedup ∅ combined ∧ dedup_key y = dedup_key x)
  ∧ (NoDup (dedup_key <$> combined) → dedup ∅ combined = combined)
  ∧ dedup ∅ (dedup ∅ combined) = dedup ∅ combined
  ∧ (length (dedup ∅ combined) ≤ length combined)%nat.
Proof.
  split; [|split; [|split]].
  - intros x Hx. destruct (dedup_covers ∅ combined x Hx) as [H|H]; [|done].
    by apply not_elem_of_empty in H.
  - intros Hnd. apply dedup_distinct; [done|]. intros x _. apply not_elem_of_empty.
  - apply dedup_distinct; [apply dedup_keys_NoDup|].
    intros x _. apply not_elem_of_empty.
  - apply dedup_length.
Qed.
End DedupMore.

(** ** More on sorting *)

Section SortMore.
Context {A : Type}.

Lemma decorate_raise (key : A → result pynum) (l : list A) (e : exn) :
  decorate key l = Raise e → ∃ x, x ∈ l ∧ key x = Raise e.
Proof.
  induction l as [|x t IH]; cbn [decorate]; [discriminate|].
  destruct (key x) as [k|e1] eqn:Hx; cbn [bind].
  - destruct (decorate key t) as [kt|e2]; cbn [bind]; [discriminate|].
    intros [= <-]. destruct (IH eq_refl) as (y & Hy & E).
    exists y. split; [by right|done].
  - intros [= <-]. exists x. split; [by left|done].
Qed.

Lemma decorate_raises_on (key : A → result pynum) (l : list A) (x : A) (e : exn) :
  (∀ y e', key y = Raise e' → e' = e) →
  x ∈ l → key x = Raise e → decorate key l = Raise e.
Proof.
  intros He. induction l as [|y t IH]; intros Hin Hx;
    [by apply elem_of_nil in Hin|].
  cbn [decorate]. destruct (key y) as [k|e1] eqn:Hy; cbn [bind].
  - apply elem_of_cons in Hin as [->|Hin]; [congruence|].
    by rewrite IH.
  - by rewrite (He y e1 Hy).
Qed.

Lemma decorate_keyed (key : A → result pynum) (kl : list (pynum * A)) :
  Forall (keyed key) kl → decorate key (snd <$> kl) = Ok kl.
Proof.
  induction 1 as [|[k x] t Hx _ IH]; [done|].
  cbn [fmap list_fmap decorate snd]. unfold keyed in Hx. cbn [fst snd] in Hx.
  rewrite Hx. cbn [bind]. change (list_fmap _ _ snd t) with (snd <$> t).
  by rewrite IH.
Qed.

Lemma stable_sort_sorted (l : list (pynum * A)) :
  StronglySorted ordered l → stable_sort l = l.
Proof.
  induction 1 as [|x t Ht IH Hx]; [done|].
  unfold stable_sort in *. cbn [foldr]. rewrite IH.
  destruct t as [|y t']; [done|]. cbn [insert_sorted].
  apply Forall_cons in Hx as [Hxy _]. unfold ordered in Hxy. by rewrite Hxy.
Qed.

Lemma sort_pairs_sorted (reversed : bool) (l : list (pynum * A)) :
  StronglySorted (in_order reversed) l → sort_pairs reversed l = l.
Proof.
  unfold sort_pairs, in_order. destruct reversed; intros H.
  - apply StronglySorted_flip_reverse in H.
    rewrite stable_sort_sorted; [apply reverse_involutive | exact H].
  - by apply stable_sort_sorted.
Qed.
End SortMore.

Section SortListingsMore.

Lemma int_to_float_raises (z : Z) (e : exn) :
  int_to_float z = Raise e → e = OverflowError.
Proof.
  unfold int_to_float. destruct (is_finite _); [discriminate|]. by intros [= <-].
Qed.

Lemma safe_num_raises (x : option pynum) (fb : spec_float) (e : exn) :
  safe_num x fb = Raise e →
  e = OverflowError ∧ ∃ z, x = Some (PInt z) ∧ int_to_float z = Raise OverflowError.
Proof.
  destruct x as [[z|f]|]; cbn [safe_num]; [| destruct (is_nan f) |]; try discriminate.
  destruct (int_to_float z) as [y|e'] eqn:Hz; cbn [bind]; [discriminate|].
  intros [= <-]. pose proof (int_to_float_raises _ _ Hz) as ->. split; [done|].
  by exists z.
Qed.

Lemma of_float_not_int (x : option spec_float) (z : Z) : of_float x ≠ Some (PInt z).
Proof. by destruct x. Qed.

Lemma of_int_int (x : option Z) (z : Z) : of_int x = Some (PInt z) → x = Some z.
Proof. destruct x; cbn; [by intros [= ->] | discriminate]. Qed.

Lemma py_sorted_raise {A : Type} (key : A → result pynum) (l : list A)
    (reversed : bool) (e : exn) :
  py_sorted l key reversed = Raise e → ∃ x, x ∈ l ∧ key x = Raise e.
Proof.
  unfold py_sorted. destruct (decorate key l) as [kl|e'] eqn:Hd; [discriminate|].
  cbn [bind]. intros [= <-]. by apply decorate_raise.
Qed.

Lemma py_sorted_raises_on {A : Type} (key : A → result pynum) (l : list A)
    (reversed : bool) (x : A) (e : exn) :
  (∀ y e', key y = Raise e' → e' = e) →
  x ∈ l → key x = Raise e → py_sorted l key reversed = Raise e.
Proof.
  intros He Hin Hx. unfold py_sorted.
  by rewrite (decorate_raises_on key l x e He Hin Hx).
Qed.

Lemma sorted_missing_last (K : pynum → bool)
    (K_rk : ∀ a b : pynum, K a = true → K b = true →
              pynum_lt a b = true ↔ lex_lt (rk a) (rk b))
    (get : Listing → option pynum) (reversed : bool) (l l' : list Listing) :
  (∀ x k, safe_num (get x) (S754_infinity reversed) = Ok k → K k = true) →
  py_sorted l (fun x => safe_num (get x) (S754_infinity reversed)) reversed = Ok l' →
  missing_last get l'.
Proof.
  intros HK H.
  apply (py_sorted_spec K K_rk) in H as (_ & _ & skl & -> & Hk & Hs); [|exact HK].
  intros i j x y k Hi Hj Hx Hy Hf.
  apply (lookup_keyed _ _ _ _ Hk) in Hi as (kx & Hi & Ekx).
  apply (lookup_keyed _ _ _ _ Hk) in Hj as (ky & Hj & Eky).
  rewrite Hx in Ekx. rewrite Hy in Eky. cbn [safe_num] in Ekx. injection Ekx as <-.
  assert (ky = k) as ->.
  { destruct k as [z|f]; cbn [safe_num] in Eky.
    - destruct (int_to_float z); cbn [bind] in Eky; [by injection Eky|discriminate].
    - assert (is_nan f = false) as Hn by (by destruct f).
      rewrite Hn in Eky. by injection Eky. }
  destruct (decide (i < j)%nat) as [Hlt|Hge].
  - pose proof (StronglySorted_lookup _ _ Hs i j _ _ Hi Hj Hlt) as Ho.
    unfold in_order, flip, ordered in Ho. exfalso.
    destruct reversed, k as [z|[| | |s m e]]; cbn in Ho, Hf; try discriminate;
      destruct s; discriminate.
  - destruct (decide (i = j)) as [->|Hne]; [|lia].
    rewrite Hi in Hj. injection Hj as E1 E2. subst y. congruence.
Qed.

(** X6. The result of a sort is in the order of its key: of two listings of
    the result the earlier one's key is not greater than the later one's
    for an ascending key, and not smaller for a descending key. *)
Theorem sort_listings_in_order (l l' : list Listing) (sort_key : pystr)
    (keyfn : Listing → result pynum) (reversed : bool)
    (i j : nat) (x y : Listing) (kx ky : pynum) :
  sort_choice sort_key = Some (keyfn, reversed) →
  sort_listings l sort_key = Ok l' →
  l' !! i = Some x → l' !! j = Some y → (i < j)%nat →
  keyfn x = Ok kx → keyfn y = Ok ky →
  if reversed then pynum_lt kx ky = false else pynum_lt ky kx = false.
Proof.
  intros Hc Hs Hi Hj Hlt Hx Hy.
  destruct (sort_listings_spec _ _ _ _ _ Hc Hs) as (_ & _ & skl & -> & Hk & Hso).
  apply (lookup_keyed _ _ _ _ Hk) in Hi as (kx' & Hi & Ekx).
  apply (lookup_keyed _ _ _ _ Hk) in Hj as (ky' & Hj & Eky).
  assert (kx' = kx) as -> by congruence. assert (ky' = ky) as -> by congruence.
  pose proof (StronglySorted_lookup _ _ Hso i j _ _ Hi Hj Hlt) as Ho.
  unfold in_order, flip, ordered in Ho. by destruct reversed.
Qed.

(** X7. Sorting is idempotent: a list that [sort_listings] returned is
    returned as it is when sorted again by the same key. *)
Theorem sort_listings_idempotent (l l' : list Listing) (sort_key : pystr) :
  sort_listings l sort_key = Ok l' → sort_listings l' sort_key = Ok l'.
Proof.
  intros Hs. destruct (sort_choice sort_key) as [[keyfn reversed]|] eqn:Hc.
  - destruct (sort_listings_spec _ _ _ _ _ Hc Hs) as (_ & _ & skl & -> & Hk & Hso).
    unfold sort_listings, py_sorted. rewrite Hc, (decorate_keyed _ _ Hk).
    cbn [bind]. by rewrite sort_pairs_sorted.
  - unfold sort_listings in *. rewrite Hc in *. by injection Hs as <-.
Qed.

(** X8. Sorting by price or by land area never raises. Sorting by bedrooms or
    bathrooms raises [OverflowError], from [math.isnan], exactly when a
    listing holds a count too large for a float, which is so from
    [2^1024 - 2^970] on; nothing else is ever raised. *)
Theorem sort_listings_overflow (l : list Listing) :
  (∀ name : string,
     name ∈ ["price_asc"; "price_desc"; "land_asc"; "land_desc"]%string →
     ∃ l', sort_listings l (u name) = Ok l')
  ∧ (∀ (sort_key : pystr) (e : exn),
       sort_listings l sort_key = Raise e →
       e = OverflowError
       ∧ ∃ x z, x ∈ l ∧ int_to_float z = Raise OverflowError
           ∧ (((sort_key = u "beds_asc" ∨ sort_key = u "beds_desc")
               ∧ beds x = Some z)
              ∨ ((sort_key = u "baths_asc" ∨ sort_key = u "baths_desc")
                 ∧ baths x = Some z)))
  ∧ (∀ x z, x ∈ l → beds x = Some z → int_to_float z = Raise OverflowError →
       sort_listings l (u "beds_asc") = Raise OverflowError
       ∧ sort_listings l (u "beds_desc") = Raise OverflowError)
  ∧ (∀ x z, x ∈ l → baths x = Some z → int_to_float z = Raise OverflowError →
       sort_listings l (u "baths_asc") = Raise OverflowError
       ∧ sort_listings l (u "baths_desc") = Raise OverflowError)
  ∧ int_to_float (2 ^ 1024 - 2 ^ 970) = Raise OverflowError
  ∧ int_to_float (2 ^ 1024 - 2 ^ 970 - 1)
    = Ok (S754_finite false (2 ^ 53 - 1) 971).
Proof.
  split; [|split; [|split; [|split; [|split]]]].
  - intros name Hn.
    assert (∀ get fb rev, ∃ l',
              py_sorted l (fun x : Listing => safe_num (of_float (get x)) fb) rev
              = Ok l') as Ht.
    { intros get fb rev.
      apply py_sorted_total.
      intros x _. apply safe_num_float_total. }
    repeat (apply elem_of_cons in Hn as [->|Hn]; [apply Ht|]).
    by apply elem_of_nil in Hn.
  - intros sort_key e. unfold sort_listings, sort_choice, is_key.
    repeat case_bool_decide; try discriminate;
      intros (x & Hx & [-> (z & Hz & Hi)]%safe_num_raises)%py_sorted_raise;
      try (by apply of_float_not_int in Hz);
      apply of_int_int in Hz; (split; [done|]); exists x, z;
      (split; [done|]); (split; [done|]); subst sort_key; auto.
  - intros x z Hx Hb Hz.
    split; apply (py_sorted_raises_on _ _ _ x);
      try done; try (intros y e' [-> _]%safe_num_raises; done);
      rewrite Hb; cbn [of_int option_map safe_num]; by rewrite Hz.
  - intros x z Hx Hb Hz.
    split; apply (py_sorted_raises_on _ _ _ x);
      try done; try (intros y e' [-> _]%safe_num_raises; done);
      rewrite Hb; cbn [of_int option_map safe_num]; by rewrite Hz.
  - vm_compute. reflexivity.
  - vm_compute. reflexivity.
Qed.

(** X9. Sorting by land area, bedrooms or bathrooms, ascending or descending,
    puts no listing that lacks the field before a listing in which the
    field is a finite number. *)
Theorem sort_missing_last_other_fields (l l' : list Listing) :
  (sort_listings l (u "land_asc") = Ok l' ∨ sort_listings l (u "land_desc") = Ok l' →
   missing_last (fun x => of_float (land_m2 x)) l')
  ∧ (sort_listings l (u "beds_asc") = Ok l' ∨ sort_listings l (u "beds_desc") = Ok l' →
     missing_last (fun x => of_int (beds x)) l')
  ∧ (sort_listings l (u "baths_asc") = Ok l' ∨ sort_listings l (u "baths_desc") = Ok l' →
     missing_last (fun x => of_int (baths x)) l').
Proof.
  split; [|split]; intros [H|H].
  - apply (sorted_missing_last float_key float_keys_rk _ false l l'); [|exact H].
    intros x k. by apply safe_num_float_key.
  - apply (sorted_missing_last float_key float_keys_rk _ true l l'); [|exact H].
    intros x k. by apply safe_num_float_key.
  - apply (sorted_missing_last int_key int_keys_rk _ false l l'); [|exact H].
    intros x k. by apply safe_num_int_key.
  - apply (sorted_missing_last int_key int_keys_rk _ true l l'); [|exact H].
    intros x k. by apply safe_num_int_key.
  - apply (sorted_missing_last int_key int_keys_rk _ false l l'); [|exact H].
    intros x k. by apply safe_num_int_key.
  - apply (sorted_missing_last int_key int_keys_rk _ true l l'); [|exact H].
    intros x k. by apply safe_num_int_key.
Qed.
End SortListingsMore.

Lemma sort_listings_in_order_witness :
  pynum_lt (PFloat (float_of_decimal 750000 0)) (PFloat (float_of_decimal 500000 0))
  = false.
Proof.
  refine (sort_listings_in_order
            [ex_priced_a; ex_unpriced; ex_priced_c; ex_priced_b]
            [ex_priced_c; ex_priced_a; ex_priced_b; ex_unpriced]
            (u "price_desc")
            (fun l => safe_num (of_float (price_num l)) float_neg_inf) true
            0 1 ex_priced_c ex_priced_a _ _ _ _ _ _ _ _ _).
  - reflexivity.
  - vm_compute. reflexivity.
  - reflexivity.
  - reflexivity.
  - lia.
  - vm_compute. reflexivity.
  - vm_compute. reflexivity.
Defined.

Lemma sort_listings_idempotent_witness :
  sort_listings [ex_priced_c; ex_priced_a; ex_priced_b; ex_unpriced] (u "price_desc")
  = Ok [ex_priced_c; ex_priced_a; ex_priced_b; ex_unpriced].
Proof.
  apply (sort_listings_idempotent
           [ex_priced_a; ex_unpriced; ex_priced_c; ex_priced_b]).
  vm_compute. reflexivity.
Defined.

(** A count of bedrooms with 400 digits: sorting by bedrooms raises, and
    sorting by price does not. *)
Example sort_by_bedrooms_overflow :
  let l := [bedroom_listing "a" 3; bedroom_listing "b" (10 ^ 399); bedroom_listing "c" 2] in
  sort_listings l (u "beds_asc") = Raise OverflowError
  ∧ sort_listings l (u "price_asc") = Ok l
  ∧ sort_listings [bedroom_listing "a" 3; bedroom_listing "c" 2] (u "beds_asc")
    = Ok [bedroom_listing "c" 2; bedroom_listing "a" 3].
Proof. repeat split; vm_compute; reflexivity. Qed.

(** ** Identifiers and the shape of canonical URLs *)

Section Encoding.

(* quotients and remainders become variables, their equations kept *)
Local Ltac hide_div :=
  repeat match goal with
         | H : context [N.div ?a ?b] |- _ =>
             let q := fresh "q" in set (q := N.div a b) in *; clearbody q
         | |- context [N.div ?a ?b] =>
             let q := fresh "q" in set (q := N.div a b) in *; clearbody q
         | H : context [N.modulo ?a ?b] |- _ =>
             let q := fresh "m" in set (q := N.modulo a b) in *; clearbody q
         | |- context [N.modulo ?a ?b] =>
             let q := fresh "m" in set (q := N.modulo a b) in *; clearbody q
         end.

Lemma utf8_decode_encode_char (c : N) (r : list N) :
  utf8_decode (utf8_encode_char c ++ r) = c :: utf8_decode r.
Proof.
  unfold utf8_encode_char.
  destruct (N.ltb_spec c 128) as [H1|H1].
  { cbn [app utf8_decode]. by destruct (N.ltb_spec c 128); [|lia]. }
  destruct (N.ltb_spec c 2048) as [H2|H2].
  { cbn [app utf8_decode].
    pose proof (N.div_mod c 64 ltac:(lia)) as E.
    pose proof (N.mod_lt c 64 ltac:(lia)) as M.
    assert (c / 64 < 32) by (apply N.Div0.div_lt_upper_bound; lia).
    destruct (N.ltb_spec (192 + c / 64) 128); [hide_div; lia|].
    destruct (N.ltb_spec (192 + c / 64) 224); [|hide_div; lia].
    f_equal. hide_div. lia. }
  destruct (N.ltb_spec c 65536) as [H3|H3].
  { cbn [app utf8_decode].
    pose proof (N.div_mod c 64 ltac:(lia)) as E.
    pose proof (N.mod_lt c 64 ltac:(lia)) as M.
    pose proof (N.div_mod (c / 64) 64 ltac:(lia)) as E2.
    pose proof (N.mod_lt (c / 64) 64 ltac:(lia)) as M2.
    assert (c / 4096 = c / 64 / 64) as E3 by (by rewrite N.Div0.div_div).
    assert (c / 4096 < 16) by (apply N.Div0.div_lt_upper_bound; lia).
    destruct (N.ltb_spec (224 + c / 4096) 128); [hide_div; lia|].
    destruct (N.ltb_spec (224 + c / 4096) 224); [hide_div; lia|].
    destruct (N.ltb_spec (224 + c / 4096) 240); [|hide_div; lia].
    f_equal. hide_div. lia. }
  cbn [app utf8_decode].
  pose proof (N.div_mod c 64 ltac:(lia)) as E.
  pose proof (N.mod_lt c 64 ltac:(lia)) as M.
  pose proof (N.div_mod (c / 64) 64 ltac:(lia)) as E2.
  pose proof (N.mod_lt (c / 64) 64 ltac:(lia)) as M2.
  pose proof (N.div_mod (c / 4096) 64 ltac:(lia)) as E4.
  pose proof (N.mod_lt (c / 4096) 64 ltac:(lia)) as M4.
  assert (c / 4096 = c / 64 / 64) as E3 by (by rewrite N.Div0.div_div).
  assert (c / 262144 = c / 4096 / 64) as E5 by (by rewrite N.Div0.div_div).
  destruct (N.ltb_spec (240 + c / 262144) 128); [hide_div; lia|].
  destruct (N.ltb_spec (240 + c / 262144) 224); [hide_div; lia|].
  destruct (N.ltb_spec (240 + c / 262144) 240); [hide_div; lia|].
  f_equal. hide_div. lia.
Qed.

Lemma utf8_decode_encode (s : pystr) :
  utf8_decode (concat (map utf8_encode_char s)) = s.
Proof.
  induction s as [|c t IH]; [done|].
  cbn [map concat]. by rewrite utf8_decode_encode_char, IH.
Qed.

Lemma utf8_encode_ascii (s : pystr) :
  Forall (fun c => c < 128) s → utf8_encode s = Ok s.
Proof.
  intros H. unfold utf8_encode.
  assert (existsb is_surrogate s = false) as ->.
  { induction H as [|c t Hc _ IH]; [done|]. cbn [existsb]. rewrite IH.
    unfold is_surrogate, in_range.
    destruct (N.leb_spec 55296 c); [lia|]. done. }
  f_equal. induction H as [|c t Hc _ IH]; [done|].
  cbn [map concat]. rewrite IH. unfold utf8_encode_char.
  by destruct (N.ltb_spec c 128); [|lia].
Qed.
End Encoding.

Section Identifiers.
Context {L : PyLib}.

(** X10. [make_id] raises for a URL with a lone surrogate, the
    [UnicodeEncodeError] of [encode], and for no other URL; else the
    identifier is at most the first ten characters of the digest of the
    URL's UTF-8 bytes, which are the URL itself when it is ASCII. The
    encoding can be decoded again, so two different URLs are never hashed
    as the same bytes. *)
Theorem make_id_spec (url : pystr) :
  (make_id url = Raise UnicodeEncodeError
   ↔ ∃ c, c ∈ url ∧ is_surrogate c = true)
  ∧ (∀ e, make_id url = Raise e → e = UnicodeEncodeError)
  ∧ (∀ i, make_id url = Ok i →
       (length i ≤ 10)%nat
       ∧ ∃ b, utf8_encode url = Ok b ∧ utf8_decode b = url
              ∧ i = take 10 (sha1_hexdigest b))
  ∧ (Forall (fun c => c < 128) url →
     make_id url = Ok (take 10 (sha1_hexdigest url)))
  ∧ (∀ url' b, utf8_encode url = Ok b → utf8_encode url' = Ok b → url' = url).
Proof.
  split; [|split; [|split; [|split]]].
  - unfold make_id, utf8_encode.
    destruct (existsb is_surrogate url) eqn:Hs; cbn [bind].
    + split; [|done]. intros _. apply existsb_exists in Hs as (c & Hc & Hs).
      exists c. split; [by apply list_elem_of_In|done].
    + split; [discriminate|]. intros (c & Hc & Hcs).
      assert (existsb is_surrogate url = true) as E
        by (apply existsb_exists; exists c; split; [by apply list_elem_of_In|done]).
      congruence.
  - intros e. apply make_id_raises.
  - intros i. unfold make_id, utf8_encode.
    destruct (existsb is_surrogate url); cbn [bind]; [discriminate|].
    intros [= <-]. split; [rewrite length_take; lia|].
    eexists. split; [done|]. split; [apply utf8_decode_encode|done].
  - intros H. unfold make_id. by rewrite utf8_encode_ascii.
  - intros url' b. unfold utf8_encode.
    destruct (existsb is_surrogate url); [discriminate|].
    destruct (existsb is_surrogate url'); [discriminate|].
    intros [= <-] [= E]. apply (f_equal utf8_decode) in E.
    by rewrite !utf8_decode_encode in E.
Qed.

Lemma urlunsplit_Forall (P : N → Prop) (s n p q : pystr) :
  P 47 → P 58 → P 63 →
  Forall P s → Forall P n → Forall P p → Forall P q →
  Forall P (urlunsplit s n p q []).
Proof.
  intros H47 H58 H63 Hs Hn Hp Hq. rewrite urlunsplit_eq.
  assert (HB : Forall P (url_body s n p)).
  { unfold url_body.
    repeat match goal with
           | |- context [if ?b then _ else _] => destruct b
           end;
      repeat first [ apply Forall_app; split | apply Forall_cons; split ];
      done. }
  apply Forall_app. split.
  - destruct (non_empty s); [|done].
    apply Forall_app. split; [done|]. by constructor.
  - unfold query_part. destruct (non_empty q); [by constructor|done].
Qed.

(** X11. A canonical URL holds no "#", no tab, carriage return or line feed
    and does not start with a space or a control character: cleaning it as
    [urlsplit] does changes nothing. [canonical_url] raises nothing but
    the [ValueError] of [urlsplit] for a network location that the
    library refuses. *)
Theorem canonical_url_clean (url : pystr) :
  (∀ c, canonical_url url = Ok c →
     (35 ∉ c) ∧ (9 ∉ c) ∧ (10 ∉ c) ∧ (13 ∉ c) ∧ head_ok c ∧ url_cleanup c = c)
  ∧ (∀ e, canonical_url url = Raise e →
       e = ValueError ∧ ∃ n, n ≠ [] ∧ netloc_ok n = false)
  ∧ ((∀ n, netloc_ok n = true) → ∃ c, canonical_url url = Ok c).
Proof.
  split; [|split].
  - intros c. rewrite canonical_url_eq.
    destruct (urlsplit url) as [sr|e] eqn:Hsr; [|discriminate].
    cbn [bind]. intros [= <-].
    destruct (urlsplit_inv url sr Hsr) as [I1 I2 [I3 I3'] Iq I4 I5 I6 I7 _].
    set (s := sr_scheme sr) in *. set (n := sr_netloc sr) in *.
    set (p := params_norm s (sr_path sr)) in *. set (q := sr_query sr) in *.
    apply Forall_app in I5 as [Sn I5]. apply Forall_app in I5 as [Sp Sq].
    assert (HP : Forall (fun x => x ≠ 35 ∧ unsafe_url_char x = false)
                   (urlunsplit s n p q [])).
    { apply urlunsplit_Forall; try done.
      - destruct I1 as [->|[Hok _]]; [done|].
        apply scheme_ok_chars in Hok as [Hok _].
        eapply Forall_impl; [exact Hok|]. intros x Hx. cbn beta in Hx.
        by destruct (scheme_char_plain x Hx) as (_ & _ & ? & _ & ? & _).
      - apply Forall_forall. intros x Hx. rewrite Forall_forall in I2, Sn.
        split; [|by apply Sn]. intros ->. by specialize (I2 35 Hx).
      - apply Forall_forall. intros x Hx. rewrite Forall_forall in Sp.
        split; [|by apply Sp]. by intros ->.
      - apply Forall_forall. intros x Hx. rewrite Forall_forall in Sq.
        split; [|by apply Sq]. by intros ->. }
    assert (Hh : head_ok (urlunsplit s n p q [])).
    { rewrite urlunsplit_eq. destruct I1 as [Hs|[Hok _]].
      - rewrite Hs. cbn [non_empty].
        destruct (url_body_cases [] n p I4)
          as [(Hne & -> & _)|[(_ & ? & _)|(-> & -> & _)]]; [done|done|].
        apply head_ok_app; [|apply head_ok_query]. by apply I6.
      - assert (non_empty s = true) as -> by (by destruct s).
        rewrite <- app_assoc. by apply head_ok_scheme. }
    rewrite Forall_forall in HP.
    repeat split; try (intros Hin; by destruct (HP _ Hin)); [done|].
    apply cleanup_id; [|done]. apply Forall_forall. intros x Hx.
    by destruct (HP x Hx).
  - intros e H. split; [by eapply canonical_url_raises|].
    rewrite canonical_url_eq in H. unfold urlsplit in H.
    destruct (split_scheme (url_cleanup url)) as [s r1].
    destruct (split_netloc r1) as [n r2].
    destruct (split_or 35 r2) as [r3 f].
    destruct (split_or 63 r3) as [p q].
    destruct n as [|x n]; [discriminate|].
    destruct (netloc_ok (x :: n)) eqn:Hn; [discriminate|]. by exists (x :: n).
  - intros Hall. destruct (canonical_url url) as [c|e] eqn:Hc; [by eexists|].
    exfalso. rewrite canonical_url_eq in Hc. unfold urlsplit in Hc.
    destruct (split_scheme (url_cleanup url)) as [s r1].
    destruct (split_netloc r1) as [n r2].
    destruct (split_or 35 r2) as [r3 f].
    destruct (split_or 63 r3) as [p q].
    destruct n as [|x n]; [discriminate|].
    by rewrite Hall in Hc.
Qed.
End Identifiers.

(** ** The property type *)

Section PropertyType.
Context {U : UnicodeData}.

Lemma starts_with_spec (a s : pystr) :
  starts_with a s = true ↔ ∃ post, s = a ++ post.
Proof.
  revert s. induction a as [|x a IH]; intros s; cbn [starts_with].
  - split; [by exists s|done].
  - destruct s as [|y s].
    + split; [discriminate|]. by intros [post H].
    + rewrite andb_true_iff, N.eqb_eq, IH. split.
      * intros [-> [post ->]]. by exists post.
      * intros [post [= -> ->]]. split; [done|]. by exists post.
Qed.

Lemma py_in_spec (a s : pystr) :
  py_in a s = true ↔ ∃ pre post, s = pre ++ a ++ post.
Proof.
  induction s as [|y s IH]; cbn [py_in]; rewrite orb_true_iff, starts_with_spec.
  - split.
    + intros [[post H]|H]; [|discriminate]. by exists [], post.
    + intros (pre & post & H). left. destruct pre; [by exists post|discriminate].
  - rewrite IH. split.
    + intros [[post H]|(pre & post & ->)]; [by exists [], post|].
      by exists (y :: pre), post.
    + intros ([|z pre] & post & H); [left; by exists post|].
      right. injection H as -> ->. by exists pre, post.
Qed.

(** A text that holds [a ++ b ++ c] holds [b]. *)
Lemma py_in_part (a b c s : pystr) :
  py_in (a ++ b ++ c) s = true → py_in b s = true.
Proof.
  rewrite !py_in_spec. intros (pre & post & ->).
  exists (pre ++ a), (c ++ post). by rewrite <- !app_assoc.
Qed.

(* the candidates one after the other: a candidate that is found ends the
   search, and is not the one looked for unless it has the same name *)
Local Ltac walk_candidates p :=
  repeat lazymatch goal with
         | |- (if p ?c then _ else _) ≠ _ =>
             let E := fresh "E" in
             destruct (p c) eqn:?;
               [try (intros [= E]; vm_compute in E; discriminate E)|]
         end.

(** X12. The property type is the first of the candidates, in the order of
    the list, whose lower-cased name occurs in the lower-cased text, and
    [None] when none occurs (as for the empty text). Two candidates can
    never be returned, whatever the text: "Townhouse", because a text
    that holds "townhouse" holds "house" and "House" comes first, and
    "Block of Units", because "Unit" comes first. *)
Theorem extract_property_type_first (text : pystr) :
  (∀ c, extract_property_type text = Some c →
     ∃ before after, candidates = before ++ c :: after
       ∧ (∃ pre post, py_lower text = pre ++ py_lower c ++ post)
       ∧ ∀ b, b ∈ before → ¬ ∃ pre post, py_lower text = pre ++ py_lower b ++ post)
  ∧ (extract_property_type text = None
     ↔ ∀ c, c ∈ candidates → ¬ ∃ pre post, py_lower text = pre ++ py_lower c ++ post)
  ∧ extract_property_type text ≠ Some (u "Townhouse")
  ∧ extract_property_type text ≠ Some (u "Block of Units")
  ∧ extract_property_type [] = None.
Proof.
  unfold extract_property_type. set (low := py_lower text).
  set (p := fun c => py_in (py_lower c) low).
  assert (Hfind : ∀ l c, List.find p l = Some c →
            ∃ before after, l = before ++ c :: after ∧ p c = true
              ∧ ∀ b, b ∈ before → p b = false).
  { induction l as [|x l IH]; intros c; cbn [List.find]; [discriminate|].
    destruct (p x) eqn:Hx.
    - intros [= <-]. exists [], l. split; [done|]. split; [done|].
      intros b Hb. by apply elem_of_nil in Hb.
    - intros (before & after & -> & Hc & Hb)%IH.
      exists (x :: before), after. split; [done|]. split; [done|].
      intros b [->|Hin]%elem_of_cons; [done|by apply Hb]. }
  assert (Hnone : ∀ l, List.find p l = None ↔ ∀ c, c ∈ l → p c = false).
  { induction l as [|x l IH]; cbn [List.find].
    - split; [|done]. intros _ c Hc. by apply elem_of_nil in Hc.
    - destruct (p x) eqn:Hx.
      + split; [discriminate|]. intros H. specialize (H x ltac:(by left)). congruence.
      + rewrite IH. split.
        * intros H c [->|Hc]%elem_of_cons; [done|by apply H].
        * intros H c Hc. apply H. by right. }
  split; [|split; [|split; [|split]]].
  - intros c (before & after & E & Hc & Hb)%Hfind.
    exists before, after. split; [done|]. split; [by apply py_in_spec|].
    intros b Hin Hex. apply py_in_spec in Hex. specialize (Hb b Hin).
    unfold p in Hb. congruence.
  - rewrite Hnone. split; intros H c Hc.
    + intros Hex%py_in_spec. specialize (H c Hc). unfold p in H. congruence.
    + specialize (H c Hc). unfold p. destruct (py_in _ _) eqn:E; [|done].
      exfalso. apply H. by apply py_in_spec.
  - unfold candidates. cbn [map List.find]. walk_candidates p; [|done].
    intros _. unfold p in *.
    match goal with
    | Hh : py_in (py_lower (u "House")) low = false,
      Hc : py_in (py_lower (u "Townhouse")) low = true |- _ =>
        change (py_lower (u "Townhouse")) with (u "town" ++ u "house" ++ []) in Hc;
        apply py_in_part in Hc;
        change (py_lower (u "House")) with (u "house") in Hh; congruence
    end.
  - unfold candidates. cbn [map List.find]. walk_candidates p; [|done].
    intros _. unfold p in *.
    match goal with
    | Hh : py_in (py_lower (u "Unit")) low = false,
      Hc : py_in (py_lower (u "Block of Units")) low = true |- _ =>
        change (py_lower (u "Block of Units"))
          with (u "block of " ++ u "unit" ++ u "s") in Hc;
        apply py_in_part in Hc;
        change (py_lower (u "Unit")) with (u "unit") in Hh; congruence
    end.
  - reflexivity.
Qed.
End PropertyType.

(** ** The routes *)

Section RouteFacts.
Context {U : UnicodeData} {L : PyLib}.

Lemma sort_listings_perm (l l' : list Listing) (sort_key : pystr) :
  sort_listings l sort_key = Ok l' → l' ≡ₚ l.
Proof.
  intros Hs. destruct (sort_choice sort_key) as [[keyfn reversed]|] eqn:Hc.
  - by destruct (sort_listings_spec _ _ _ _ _ Hc Hs) as [H _].
  - unfold sort_listings in Hs. rewrite Hc in Hs. by injection Hs as <-.
Qed.

Lemma refresh_cache_fresh (web : Web) (now : spec_float) (c : Cache)
    (log : list call) :
  within_ttl now c = true → listings c ≠ [] →
  refresh_cache web now false c log = (Ok (), c, log).
Proof.
  intros Ht Hl. unfold refresh_cache. rewrite Ht. cbn [negb andb].
  by rewrite bool_decide_eq_false_2.
Qed.

Lemma reachable_index (c : Cache) :
  reachable c →
  (∀ k l, by_id c !! k = Some l → l ∈ listings c ∧ id l = k)
  ∧ (∀ l, l ∈ listings c →
       ∃ l', by_id c !! id l = Some l' ∧ l' ∈ listings c ∧ id l' = id l)
  ∧ (NoDup (id <$> listings c) → ∀ l, l ∈ listings c → by_id c !! id l = Some l).
Proof.
  intros [->|(web & now & log & combined & log' & _ & ->)]%reachable_shape; cbn.
  - split; [|split].
    + intros k l H. by rewrite lookup_empty in H.
    + intros l H. by apply elem_of_nil in H.
    + intros _ l H. by apply elem_of_nil in H.
  - destruct (index_by_id_agrees (dedup ∅ combined)) as (H1 & H2 & _).
    split; [exact H1|]. split; [exact H2|].
    intros Hnd l Hl. by apply index_by_id_lookup.
Qed.

(** X13. No link of the index page dangles: when [index] has answered with a
    page of listings, the detail page of each of them, asked for while
    the cache is still fresh, is found without any call to the outside and
    shows a listing of the cache with the identifier asked for; it is
    the listing itself when the identifiers of the cache are distinct. *)
Theorem detail_pages_resolve (web web' : Web) (now now' : spec_float)
    (arg arg' : option pystr) (c c' : Cache) (log log' : list call)
    (ls : list Listing) (sort : pystr) (l : Listing) :
  reachable c →
  index web now arg c log = (Ok (IndexPage ls sort), c', log') →
  l ∈ ls →
  within_ttl now' c' = true →
  ∃ l', property_detail web' now' (id l) arg' c' log'
        = (Ok (DetailPage l' (sort_arg arg')), c', log')
        ∧ id l' = id l ∧ l' ∈ listings c'
        ∧ (NoDup (id <$> listings c') → l' = l).
Proof.
  intros Hc Hi Hl Ht. unfold index in Hi.
  pose proof (reach_refresh web now false c log Hc) as Hc'.
  destruct (refresh_cache web now false c log) as [[r c1] log1].
  unfold cache_after in Hc'. cbn [fst snd] in Hc'.
  destruct r as [[]|e]; [|discriminate].
  destruct (sort_listings (listings c1) (sort_arg arg)) as [ls1|e] eqn:Hs;
    [|discriminate].
  injection Hi as -> _ -> ->.
  apply sort_listings_perm in Hs. rewrite Hs in Hl.
  destruct (reachable_index c' Hc') as (_ & H2 & H3).
  destruct (H2 l Hl) as (l' & Hb & Hin & Hid).
  exists l'. unfold property_detail.
  rewrite refresh_cache_fresh; [|done|intros E; rewrite E in Hl; by apply elem_of_nil in Hl].
  rewrite Hb. repeat split; try done.
  intros Hnd. specialize (H3 Hnd l Hl). congruence.
Qed.

(** X14. In a cache the program can hold and that is fresh, the detail page
    answers 404 exactly for the identifiers that no cached listing has,
    and else shows a cached listing with that identifier; either way
    nothing is fetched and the cache stays as it is. *)
Theorem detail_not_found (web : Web) (now : spec_float) (lid : pystr)
    (arg : option pystr) (c : Cache) (log : list call) :
  reachable c → within_ttl now c = true → listings c ≠ [] →
  (lid ∉ id <$> listings c →
   property_detail web now lid arg c log = (Ok NotFound, c, log))
  ∧ (lid ∈ id <$> listings c →
     ∃ l, property_detail web now lid arg c log
          = (Ok (DetailPage l (sort_arg arg)), c, log)
          ∧ l ∈ listings c ∧ id l = lid).
Proof.
  intros Hc Ht Hl. unfold property_detail. rewrite refresh_cache_fresh by done.
  destruct (reachable_index c Hc) as (H1 & H2 & _). split.
  - intros Hn. destruct (by_id c !! lid) as [l|] eqn:Hb; [|done].
    destruct (H1 lid l Hb) as [Hin <-]. exfalso. apply Hn.
    by apply list_elem_of_fmap_2.
  - intros (l & -> & Hin)%list_elem_of_fmap.
    destruct (H2 l Hin) as (l' & Hb & Hin' & Hid). exists l'. by rewrite Hb.
Qed.
End RouteFacts.

Lemma detail_pages_resolve_witness :
  ∃ l', @property_detail ascii_only toy_lib quiet_web (float_of_decimal 1001 0)
          (id ex_first) (Some (u "price_asc")) ex_cache
          (log_after (ex_refresh ex_web 1000 false empty_cache []))
        = (Ok (DetailPage l' (sort_arg (Some (u "price_asc")))), ex_cache,
           log_after (ex_refresh ex_web 1000 false empty_cache []))
        ∧ id l' = id ex_first ∧ l' ∈ listings ex_cache
        ∧ (NoDup (id <$> listings ex_cache) → l' = ex_first).
Proof.
  apply (@detail_pages_resolve ascii_only toy_lib ex_web quiet_web
           (float_of_decimal 1000 0) (float_of_decimal 1001 0) None
           (Some (u "price_asc")) empty_cache ex_cache []
           (log_after (ex_refresh ex_web 1000 false empty_cache []))
           (listings ex_cache) (u "newest") ex_first).
  - apply reach_init.
  - vm_compute. reflexivity.
  - vm_compute. left.
  - vm_compute. reflexivity.
Defined.

Lemma detail_not_found_witness :
  (u "0000000000" ∉ id <$> listings ex_cache →
   @property_detail ascii_only toy_lib quiet_web (float_of_decimal 1001 0)
     (u "0000000000") None ex_cache [] = (Ok NotFound, ex_cache, []))
  ∧ (u "0000000000" ∈ id <$> listings ex_cache →
     ∃ l, @property_detail ascii_only toy_lib quiet_web (float_of_decimal 1001 0)
            (u "0000000000") None ex_cache []
          = (Ok (DetailPage l (sort_arg None)), ex_cache, [])
          ∧ l ∈ listings ex_cache ∧ id l = u "0000000000").
Proof.
  apply (@detail_not_found ascii_only toy_lib quiet_web (float_of_decimal 1001 0)
           (u "0000000000") None ex_cache []).
  - apply (@reach_refresh ascii_only toy_lib ex_web _ false empty_cache []).
    apply reach_init.
  - vm_compute. reflexivity.
  - intros H. vm_compute in H. discriminate H.
Defined.

(** ** The searches *)

Section SearchFacts.
Context {U : UnicodeData} {L : PyLib} {J : UrlJoin}.

Lemma unique_urls_spec (found : list item) :
  ∀ seen : gset pystr,
    NoDup (item_url <$> unique_urls seen found)
    ∧ ∀ x, x ∈ unique_urls seen found → (item_url x ∉ seen) ∧ x ∈ found.
Proof.
  induction found as [|y rest IH]; intros seen; cbn [unique_urls].
  - split; [constructor|]. intros x Hx. by apply elem_of_nil in Hx.
  - destruct (decide (item_url y ∈ seen)) as [Hy|Hy].
    + destruct (IH seen) as [Hnd Hin]. split; [done|].
      intros x Hx. destruct (Hin x Hx). split; [done|by right].
    + destruct (IH ({[item_url y]} ∪ seen)) as [Hnd Hin]. split.
      * rewrite fmap_cons. constructor; [|done].
        intros (x & E & Hx)%list_elem_of_fmap. destruct (Hin x Hx) as [Hn _].
        apply Hn. rewrite E. apply elem_of_union_l. by apply elem_of_singleton.
      * intros x [->|Hx]%elem_of_cons; [split; [done|by left]|].
        destruct (Hin x Hx) as [Hn Hf]. split; [|by right].
        intros Hs. apply Hn. by apply elem_of_union_r.
Qed.

Lemma raywhite_unique_spec (found : list item) :
  ∀ (seen : gset pystr) (out : list item),
    raywhite_unique seen found = Ok out →
    NoDup (item_url <$> out)
    ∧ ∀ x, x ∈ out →
        (item_url x ∉ seen)
        ∧ ∃ y, y ∈ found ∧ item_title x = item_title y
               ∧ canonical_url (item_url y) = Ok (item_url x).
Proof.
  induction found as [|y rest IH]; intros seen out; cbn [raywhite_unique].
  - intros [= <-]. split; [constructor|]. intros x Hx. by apply elem_of_nil in Hx.
  - destruct (canonical_url (item_url y)) as [cu|e] eqn:Hc; [|discriminate].
    cbn [bind]. destruct (decide (cu ∈ seen)) as [Hy|Hy].
    + intros [Hnd Hin]%IH. split; [done|]. intros x Hx.
      destruct (Hin x Hx) as (Hn & z & Hz & Hr). split; [done|].
      exists z. split; [by right|done].
    + destruct (raywhite_unique ({[cu]} ∪ seen) rest) as [out1|e] eqn:Hr;
        [|discriminate].
      cbn [bind]. intros [= <-]. destruct (IH _ _ Hr) as [Hnd Hin]. split.
      * rewrite fmap_cons. constructor; [|done]. cbn [item_url].
        intros (x & E & Hx)%list_elem_of_fmap. destruct (Hin x Hx) as [Hn _].
        apply Hn. rewrite <- E. apply elem_of_union_l. by apply elem_of_singleton.
      * intros x [->|Hx]%elem_of_cons.
        { split; [done|]. exists y. split; [by left|done]. }
        destruct (Hin x Hx) as (Hn & z & Hz & Hr'). split.
        { intros Hs. apply Hn. by apply elem_of_union_r. }
        exists z. split; [by right|done].
Qed.

Lemma raywhite_found_spec (anchors : list anchor) :
  ∀ found, raywhite_found anchors = Ok found →
    Forall (fun y => ∃ a href,
              a ∈ anchors ∧ a_href a = Some href
              ∧ py_in (u "/properties/") href = true
              ∧ urljoin RAYWHITE_BASE href = Ok (item_url y)
              ∧ a_text a ≠ [] ∧ item_title y = Some (a_text a)) found.
Proof.
  induction anchors as [|a rest IH]; intros found; cbn [raywhite_found].
  - by intros [= <-].
  - assert (Hrest : ∀ f, raywhite_found rest = Ok f →
        Forall (fun y => ∃ a0 href,
              a0 ∈ a :: rest ∧ a_href a0 = Some href
              ∧ py_in (u "/properties/") href = true
              ∧ urljoin RAYWHITE_BASE href = Ok (item_url y)
              ∧ a_text a0 ≠ [] ∧ item_title y = Some (a_text a0)) f).
    { intros f H%IH. eapply Forall_impl; [exact H|].
      intros y (a0 & href & Ha & Hr). exists a0, href. split; [by right|done]. }
    destruct (a_href a) as [[|h href]|] eqn:Hh; cbn [truthy]; try apply Hrest.
    destruct (a_text a) as [|c t] eqn:Ht; cbn [truthy]; [apply Hrest|].
    destruct (py_in (u "/properties/") (h :: href)) eqn:Hin; [|apply Hrest].
    destruct (urljoin RAYWHITE_BASE (h :: href)) as [full|e] eqn:Hj; [|discriminate].
    cbn [bind]. destruct (raywhite_found rest) as [f1|e]; [|discriminate].
    cbn [bind]. intros [= <-]. constructor; [|by apply Hrest].
    exists a, (h :: href). cbn [item_url item_title].
    rewrite Ht. by repeat split; [left|..].
Qed.

Lemma rea_found_spec (anchors : list anchor) :
  ∀ found, rea_found anchors = Ok found →
    Forall (fun y => rea_origin anchors y
                     ∧ canonical_url (item_url y) = Ok (item_url y)
                     ∧ item_title y ≠ Some []) found.
Proof.
  induction anchors as [|a rest IH]; intros found; cbn [rea_found].
  - by intros [= <-].
  - assert (Hrest : ∀ f, rea_found rest = Ok f →
        Forall (fun y => rea_origin (a :: rest) y
                         ∧ canonical_url (item_url y) = Ok (item_url y)
                         ∧ item_title y ≠ Some []) f).
    { intros f H%IH. eapply Forall_impl; [exact H|].
      intros y [(a0 & href & full & Ha & Hr) Hy]. split; [|done].
      exists a0, href, full. split; [by right|done]. }
    destruct (a_href a) as [href|] eqn:Hh; [|apply Hrest].
    destruct (urljoin REA_BASE (py_strip href)) as [full|e] eqn:Hj; [|discriminate].
    cbn [bind].
    destruct (starts_with (REA_BASE ++ u "/property-") full) eqn:Hst; [|apply Hrest].
    destruct (canonical_url full) as [cu|e] eqn:Hc; [|discriminate].
    cbn [bind]. destruct (rea_found rest) as [f1|e] eqn:Hf; [|discriminate].
    cbn [bind]. intros [= <-]. constructor; [|by apply Hrest].
    cbn [item_url item_title]. split; [|split].
    + exists a, href, full. by repeat split; [left|..].
    + apply (canonical_url_fixed full); [|done]. intros sr Hsr. left.
      apply starts_with_spec in Hst as [post ->].
      destruct (urlsplit_host (u "https") (u "www.realestate.com.au")
                  (u "property-" ++ post) sr) as [_ ->]; try done.
      * apply (bool_decide_unpack _). vm_compute. exact I.
      * apply (bool_decide_unpack _). vm_compute. exact I.
    + by destruct (a_text a).
Qed.

(** X15. What the Ray White and REA searches return holds no URL twice.
    Each result comes from a link of the page: its URL is the canonical
    form of the joined link, its title the text of the link, which is
    never empty (Ray White's results all have a title, REA's have one or
    none). A URL of the REA search has a network location, so that the
    refresh, which canonicalises the URL of a search result again, keeps
    it as it is and derives the identifier from it. A page that cannot be
    fetched makes the search raise. *)
Theorem search_urls_unique :
  (∀ anchors out, raywhite_search_urls (Ok anchors) = Ok out →
     NoDup (item_url <$> out) ∧ Forall (raywhite_origin anchors) out)
  ∧ (∀ anchors out, rea_search_urls (Ok anchors) = Ok out →
       NoDup (item_url <$> out)
       ∧ Forall (fun x => rea_origin anchors x
                          ∧ canonical_url (item_url x) = Ok (item_url x)
                          ∧ item_title x ≠ Some []) out)
  ∧ (∀ e, raywhite_search_urls (Raise e) = Raise e
          ∧ rea_search_urls (Raise e) = Raise e)
  ∧ (∀ (web : Web) (src : source) (x : item) (l : Listing),
       canonical_url (item_url x) = Ok (item_url x) →
       candidate web src x = Ok l →
       url l = item_url x ∧ make_id (item_url x) = Ok (id l)).
Proof.
  split; [|split; [|split]].
  - intros anchors out. unfold raywhite_search_urls.
    cbn [bind]. destruct (raywhite_found anchors) as [found|e] eqn:Hf;
      [|discriminate].
    cbn [bind]. intros [Hnd Hin]%raywhite_unique_spec. split; [done|].
    apply raywhite_found_spec in Hf. rewrite Forall_forall in Hf.
    apply Forall_forall. intros x Hx.
    destruct (Hin x Hx) as (_ & y & Hy & Ht & Hc).
    destruct (Hf y Hy) as (a & href & Ha & Hh & Hp & Hj & Hne & Hti).
    exists a, href, (item_url y). rewrite Ht. by repeat split.
  - intros anchors out. unfold rea_search_urls.
    cbn [bind]. destruct (rea_found anchors) as [found|e] eqn:Hf; [|discriminate].
    cbn [bind]. intros [= <-]. destruct (unique_urls_spec found ∅) as [Hnd Hin].
    split; [done|]. apply rea_found_spec in Hf. rewrite Forall_forall in Hf.
    apply Forall_forall. intros x Hx. apply Hf. by apply Hin.
  - done.
  - intros web src x l Hc. unfold candidate. rewrite Hc. cbn [bind].
    destruct (make_id (item_url x)) as [lid|e]; [|discriminate].
    cbn [bind]. by intros [= <-].
Qed.
End SearchFacts.

(** The REA search on a page with five links: the link without [href]
    and the one that is no property are left out, and the second link to
    the first property, which differs by white space and a fragment, is
    skipped. *)
Example rea_search_urls_example :
  @rea_search_urls toy_lib toy_join (Ok ex_anchors)
  = Ok [ {| item_title := Some (u "3 Gamma Ct");
            item_url := u "https://www.realestate.com.au/property-house-qld-gladstone-143000000" |};
         {| item_title := None;
            item_url := u "https://www.realestate.com.au/property-land-qld-gladstone-203000000" |} ].
Proof. vm_compute. reflexivity. Qed.

(** ** The sign of parsed numbers *)

Section Rounding.

Lemma shr_1_nonneg (mrs : shr_record) :
  (0 ≤ shr_m mrs)%Z → (0 ≤ shr_m (shr_1 mrs))%Z.
Proof. destruct mrs as [[|[p|p|]|p] r s]; cbn; lia. Qed.

Lemma iter_pos_nonneg (n : positive) :
  ∀ mrs, (0 ≤ shr_m mrs)%Z → (0 ≤ shr_m (SpecFloat.iter_pos shr_1 n mrs))%Z.
Proof.
  induction n as [n IH|n IH|]; intros mrs H; cbn [SpecFloat.iter_pos].
  - by apply IH, IH, shr_1_nonneg.
  - by apply IH, IH.
  - by apply shr_1_nonneg.
Qed.

Lemma shr_fexp_nonneg (m e : Z) (l : location) :
  (0 ≤ m)%Z → (0 ≤ shr_m (fst (shr_fexp prec emax m e l)))%Z.
Proof.
  intros H. unfold shr_fexp, shr.
  assert (0 ≤ shr_m (shr_record_of_loc m l))%Z by (by destruct l as [|[]]).
  destruct (_ - e)%Z; cbn [fst]; [done| |done]. by apply iter_pos_nonneg.
Qed.

Lemma binary_round_aux_nonneg (mx ex : Z) (lx : location) :
  (0 ≤ mx)%Z → nonneg_float (binary_round_aux prec emax false mx ex lx) = true.
Proof.
  intros H. unfold binary_round_aux.
  pose proof (shr_fexp_nonneg mx ex lx H) as H1.
  destruct (shr_fexp prec emax mx ex lx) as [mrs1 e1]. cbn [fst] in H1.
  assert (H2 : (0 ≤ round_nearest_even (shr_m mrs1) (loc_of_shr_record mrs1))%Z).
  { unfold round_nearest_even.
    destruct (loc_of_shr_record mrs1) as [|[]]; try done; [|lia].
    destruct (Z.even _); lia. }
  pose proof (shr_fexp_nonneg _ e1 loc_Exact H2) as H3.
  destruct (shr_fexp prec emax _ e1 loc_Exact) as [mrs2 e2]. cbn [fst] in H3.
  destruct (shr_m mrs2) as [|m|m]; [done| |lia].
  by destruct (_ <=? _)%Z.
Qed.

Lemma SFdiv_nonneg (p q : positive) (e1 e2 : Z) :
  nonneg_float (SFdiv prec emax (S754_finite false p e1) (S754_finite false q e2))
  = true.
Proof.
  cbn [SFdiv xorb]. unfold SFdiv_core_binary.
  set (m' := match _ with Z.pos _ => _ | Z0 => _ | Z.neg _ => _ end).
  assert (Hm : (0 ≤ m')%Z).
  { unfold m'. destruct (_ - _ - _)%Z; [done| |done].
    apply Z.shiftl_nonneg. done. }
  pose proof (Z_div_mod m' (Z.pos q) ltac:(done)) as Hd.
  destruct (Z.div_eucl m' (Z.pos q)) as [qq r]. destruct Hd as [Hd Hr].
  apply binary_round_aux_nonneg. nia.
Qed.

Lemma float_of_decimal_nonneg (m : Z) (k : nat) :
  nonneg_float (float_of_decimal m k) = true.
Proof.
  unfold float_of_decimal. destruct m; [done| |done]. apply SFdiv_nonneg.
Qed.

Lemma py_float_nonneg (raw : pystr) (x : spec_float) :
  py_float raw = Some x → nonneg_float x = true.
Proof.
  unfold py_float. destruct (span_digits raw) as [ip r].
  destruct r as [|c fp].
  - destruct ip; [discriminate|]. intros [= <-]. apply float_of_decimal_nonneg.
  - destruct (_ && _); [|discriminate]. intros [= <-].
    apply float_of_decimal_nonneg.
Qed.

Lemma float_mul_nonneg (x : spec_float) (m : positive) (e : Z) :
  nonneg_float x = true →
  nonneg_float (float_mul x (S754_finite false m e)) = true.
Proof.
  destruct x as [[]|[]| |[] mx ex]; try discriminate; intros _; try done.
  unfold float_mul. cbn [SFmul xorb]. by apply binary_round_aux_nonneg.
Qed.
End Rounding.

Section ParsedSign.
Context {U : UnicodeData} {L : PyLib}.

Lemma parse_money_nonneg (text : option pystr) (x : spec_float) :
  parse_money_best_effort text = Some x → nonneg_float x = true.
Proof.
  unfold parse_money_best_effort.
  destruct (truthy text) as [t|]; [|discriminate].
  destruct (re_search money_re t) as [m|]; [|discriminate].
  destruct (group m 1) as [g|]; [|discriminate]. apply py_float_nonneg.
Qed.

Lemma parse_land_nonneg (text : option pystr) (x : spec_float) :
  parse_land_to_m2_best_effort text = Some x → nonneg_float x = true.
Proof.
  assert (Hh : ∃ m e, hectare_m2 = S754_finite false m e)
    by (vm_compute; eauto).
  assert (Ha : ∃ m e, acre_m2 = S754_finite false m e)
    by (vm_compute; eauto).
  destruct Hh as (mh & eh & Hh), Ha as (ma & ea & Ha).
  unfold parse_land_to_m2_best_effort.
  destruct (truthy text) as [t|]; [|discriminate]. cbv zeta.
  destruct (re_search m2_re _) as [m|].
  { destruct (or_group _ _) as [g|]; [|discriminate]. apply py_float_nonneg. }
  destruct (re_search ha_re _) as [m|].
  { destruct (group m 1) as [g|]; [|discriminate].
    destruct (py_float _) as [y|] eqn:Hy; [|discriminate].
    intros [= <-]. rewrite Hh. by apply float_mul_nonneg, (py_float_nonneg _ _ Hy). }
  destruct (re_search acres_re _) as [m|]; [|discriminate].
  destruct (group m 1) as [g|]; [|discriminate].
  destruct (py_float _) as [y|] eqn:Hy; [|discriminate].
  intros [= <-]. rewrite Ha. by apply float_mul_nonneg, (py_float_nonneg _ _ Hy).
Qed.

(** X16. A price or an area that the normalisations return is never NaN and
    never negative (it is zero, a positive number or plus infinity). So
    in every cache the program can hold no listing has a NaN or a
    negative price or area, and the sort keys of price and area are the
    fields themselves: the NaN guard of [safe_num] is never needed for
    them. *)
Theorem parsed_numbers_nonneg :
  (∀ text x, parse_money_best_effort text = Some x →
     nonneg_float x = true ∧ is_nan x = false)
  ∧ (∀ text x, parse_land_to_m2_best_effort text = Some x →
       nonneg_float x = true ∧ is_nan x = false)
  ∧ (∀ c, reachable c → ∀ l x, l ∈ listings c →
       (price_num l = Some x →
        nonneg_float x = true
        ∧ ∀ fb, safe_num (of_float (price_num l)) fb = Ok (PFloat x))
       ∧ (land_m2 l = Some x →
          nonneg_float x = true
          ∧ ∀ fb, safe_num (of_float (land_m2 l)) fb = Ok (PFloat x))).
Proof.
  assert (Hn : ∀ x, nonneg_float x = true → is_nan x = false)
    by (by intros []).
  split; [|split].
  - intros text x H%parse_money_nonneg. split; [done|by apply Hn].
  - intros text x H%parse_land_nonneg. split; [done|by apply Hn].
  - intros c Hc l x Hl.
    assert (Hd : Forall derived (listings c)).
    { apply reachable_listings; [|done]. intros web src it l0.
      unfold candidate.
      destruct (canonical_url (item_url it)) as [link|]; [|discriminate].
      cbn [bind]. destruct (make_id link) as [lid|]; [|discriminate].
      cbn [bind]. intros [= <-]. apply build_listing_derived. }
    rewrite Forall_forall in Hd. destruct (Hd l Hl) as [Hp Ha]. split.
    + intros E. rewrite E in Hp. symmetry in Hp.
      apply parse_money_nonneg in Hp. split; [done|].
      intros fb. rewrite E. cbn. by rewrite (Hn x Hp).
    + intros E. rewrite E in Ha. symmetry in Ha.
      apply parse_land_nonneg in Ha. split; [done|].
      intros fb. rewrite E. cbn. by rewrite (Hn x Ha).
Qed.
End ParsedSign.

(** ** The spacing of normalised titles *)

Section TitleSpacing.
Context {U : UnicodeData}.

Lemma match_here_plus_chr (p : N → bool) (ma : bool) (prev : option N)
    (c : N) (t : pystr) :
  p c = true →
  ∃ st', match_here (plus (Chr p)) ma prev (c :: t) = Some st'
         ∧ ms_rest st' = lstrip_with p t.
Proof.
  intros Hc. unfold match_here, plus.
  rewrite rmatch_Seq, rmatch_Chr_cons, Hc, rmatch_Star. cbn [ms_rest ms_caps].
  set (k := fun st' : mstate => _).
  exists (run_state p (Some c) t []).
  destruct (run_state_rest p (Some c) t []) as [Hr _]. split; [|done].
  apply star_loop_chr_greedy; [lia|]. unfold k. rewrite Hr.
  pose proof (length_lstrip_le p t).
  replace (length (lstrip_with p t) =? length (c :: t))%nat with false.
  - by rewrite andb_false_r.
  - symmetry. apply Nat.eqb_neq. cbn [length]. lia.
Qed.

Lemma match_here_plus_chr_none (p : N → bool) (ma : bool) (prev : option N)
    (s : pystr) :
  match s with c :: _ => p c = false | [] => True end →
  match_here (plus (Chr p)) ma prev s = None.
Proof.
  intros Hs. unfold match_here, plus. rewrite rmatch_Seq.
  destruct s as [|c t]; [apply rmatch_Chr_nil|].
  by rewrite rmatch_Chr_cons, Hs.
Qed.

Lemma collapse_run (p : N → bool) (repl : pystr) (t : pystr) :
  collapse p repl true t = collapse p repl false (lstrip_with p t).
Proof.
  induction t as [|c t IH]; [done|]. cbn [collapse lstrip_with].
  destruct (p c) eqn:Hc; [exact IH|]. cbn [collapse]. by rewrite Hc.
Qed.

(** Substituting for "one or more [p]-characters" collapses the runs. *)
Lemma sub_loop_plus_chr (p : N → bool) (repl : pystr) :
  ∀ (fuel : nat) (ma : bool) (prev : option N) (s : pystr),
    (length s < fuel)%nat →
    sub_loop (plus (Chr p)) repl fuel ma prev s = collapse p repl false s.
Proof.
  induction fuel as [|f IH]; intros ma prev s Hf; [lia|].
  rewrite sub_loop_S. destruct s as [|c t].
  - by rewrite match_here_plus_chr_none.
  - destruct (p c) eqn:Hc.
    + destruct (match_here_plus_chr p ma prev c t Hc) as (st' & -> & Hr).
      rewrite Hr. pose proof (length_lstrip_le p t).
      replace (length (lstrip_with p t) <? length (c :: t))%nat with true
        by (symmetry; apply Nat.ltb_lt; cbn [length]; lia).
      rewrite IH by (cbn [length] in Hf; lia).
      cbn [collapse]. by rewrite Hc, collapse_run.
    + rewrite match_here_plus_chr_none by done.
      cbn [collapse]. rewrite Hc. f_equal. apply IH. cbn [length] in Hf. lia.
Qed.

Lemma re_sub_plus_chr (p : N → bool) (repl s : pystr) :
  re_sub (plus (Chr p)) repl s = collapse p repl false s.
Proof. unfold re_sub. apply sub_loop_plus_chr. lia. Qed.

Lemma keeps_not_space (c : N) :
  keeps c = true → c ≠ 32 ∧ py_isspace c = false.
Proof.
  unfold keeps, is_ascii_lower, is_digit, in_range. intros Hk.
  assert (Hr : (48 ≤ c ∧ c ≤ 57) ∨ (97 ≤ c ∧ c ≤ 122)).
  { apply orb_true_iff in Hk as [[H1 H2]%andb_true_iff|[H1 H2]%andb_true_iff];
      apply N.leb_le in H1, H2; lia. }
  split; [lia|]. destruct (py_isspace c) eqn:H; [|done]. exfalso.
  unfold py_isspace, in_range in H.
  repeat match type of H with
         | (_ || _) = true => apply orb_true_iff in H; destruct H as [H|H]
         | (_ && _) = true => apply andb_true_iff in H; destruct H as [H H']
         end;
    repeat match goal with
           | H : (_ <=? _) = true |- _ => apply N.leb_le in H
           | H : (_ =? _) = true |- _ => apply N.eqb_eq in H
           end; lia.
Qed.

(* the result of collapsing what is not kept into single spaces *)
Lemma collapse_keeps_spaced (s : pystr) :
  ∀ b, let r := collapse (fun c => negb (keeps c)) [32] b s in
    spaced r = true
    ∧ Forall (fun c => c = 32 ∨ keeps c = true) r
    ∧ (b = true → match r with d :: _ => d ≠ 32 | [] => True end).
Proof.
  induction s as [|c t IH]; intros b; [done|]. cbn [collapse].
  destruct (keeps c) eqn:Hc; cbn [negb].
  - destruct (IH false) as (H1 & H2 & _).
    destruct (keeps_not_space c Hc) as [Hne _].
    split; [|split].
    + cbn [spaced]. rewrite H1.
      by destruct (N.eqb_spec c 32).
    + constructor; [by right|done].
    + done.
  - destruct (IH true) as (H1 & H2 & H3). specialize (H3 eq_refl).
    destruct b; cbn [app].
    + done.
    + split; [|split; [|done]].
      * cbn [spaced]. rewrite H1.
        destruct (collapse _ _ true t) as [|d r']; [done|].
        by destruct (N.eqb_spec d 32).
      * constructor; [by left|done].
Qed.

(* collapsing white space changes nothing in such a text *)
Lemma collapse_space_id (s : pystr) :
  ∀ b, Forall (fun c => c = 32 ∨ keeps c = true) s →
    spaced s = true →
    (b = true → match s with d :: _ => d ≠ 32 | [] => True end) →
    collapse py_isspace [32] b s = s.
Proof.
  induction s as [|c t IH]; intros b Hs Hsp Hb; [done|].
  apply Forall_cons in Hs as [Hc Hs]. cbn [spaced] in Hsp.
  apply andb_true_iff in Hsp as [Hh Hsp]. cbn [collapse].
  destruct Hc as [->|Hc].
  - change (py_isspace 32) with true. cbn match.
    destruct b; [by specialize (Hb eq_refl)|]. cbn [app]. f_equal.
    apply IH; [done|done|]. intros _. destruct t as [|d t']; [done|].
    cbn in Hh. by destruct (N.eqb_spec d 32).
  - destruct (keeps_not_space c Hc) as [_ ->]. f_equal. by apply IH.
Qed.

Lemma spaced_app (a b : pystr) :
  spaced (a ++ b) = true → spaced a = true ∧ spaced b = true.
Proof.
  induction a as [|c a IH]; [done|]. cbn [app spaced].
  intros [Hh Ht]%andb_true_iff. destruct (IH Ht) as [Ha Hb].
  split; [|done]. rewrite Ha, andb_true_r.
  destruct a as [|d a']; [by rewrite andb_false_r|]. exact Hh.
Qed.

Lemma lstrip_with_suffix (p : N → bool) (s : pystr) :
  ∃ pre, s = pre ++ lstrip_with p s.
Proof.
  induction s as [|c t [pre IH]]; [by exists []|]. cbn [lstrip_with].
  destruct (p c); [|by exists []]. exists (c :: pre). by rewrite IH at 1.
Qed.

Lemma lstrip_with_head (p : N → bool) (s : pystr) :
  match lstrip_with p s with d :: _ => p d = false | [] => True end.
Proof.
  induction s as [|c t IH]; [done|]. cbn [lstrip_with].
  by destruct (p c) eqn:Hc.
Qed.

Lemma py_strip_infix (s : pystr) :
  (∃ pre post, s = pre ++ py_strip s ++ post)
  ∧ match py_strip s with d :: _ => py_isspace d = false | [] => True end
  ∧ match last (py_strip s) with Some d => py_isspace d = false | None => True end.
Proof.
  unfold py_strip, rstrip_with.
  set (a := lstrip_with py_isspace s).
  destruct (lstrip_with_suffix py_isspace s) as [pre Hpre]. fold a in Hpre.
  destruct (lstrip_with_suffix py_isspace (reverse a)) as [post Hpost].
  set (b := lstrip_with py_isspace (reverse a)) in *.
  assert (Ea : a = reverse b ++ reverse post).
  { rewrite <- reverse_app, <- Hpost. by rewrite reverse_involutive. }
  split; [|split].
  - exists pre, (reverse post). by rewrite <- Ea.
  - pose proof (lstrip_with_head py_isspace s) as Hh. fold a in Hh.
    pose proof (lstrip_with_head py_isspace (reverse a)) as Hl. fold b in Hl.
    destruct (reverse b) as [|d r] eqn:Eb; [done|].
    rewrite Ea in Hh. exact Hh.
  - pose proof (lstrip_with_head py_isspace (reverse a)) as Hl. fold b in Hl.
    rewrite last_reverse. by destruct b.
Qed.
End TitleSpacing.

Section TitleSpacingTheorem.
Context {U : UnicodeData}.

(** X17. A normalised title is made of words separated by single spaces: it
    never starts or ends with a space and never holds two spaces side by
    side. The substitution of white space in [normalize_title] never
    changes anything, since the substitution before it leaves single
    spaces only. Normalising is not idempotent: a region token that an
    underscore joins to its neighbour survives the first pass and not the
    second. *)
Theorem normalize_title_spacing (s : pystr) :
  let r := normalize_title s in
  spaced r = true
  ∧ match r with d :: _ => d ≠ 32 | [] => True end
  ∧ match last r with Some d => d ≠ 32 | None => True end
  ∧ r = py_strip (collapse (fun c => negb (keeps c)) [32] false
                    (re_sub country_re [] (re_sub region_re [] (py_lower s))))
  ∧ normalize_title (u "QLD_4680 Lot 5") = u "qld 4680 lot 5"
  ∧ normalize_title (u "qld 4680 lot 5") = u "4680 lot 5".
Proof.
  cbv zeta.
  assert (E : normalize_title s
              = py_strip (collapse (fun c => negb (keeps c)) [32] false
                  (re_sub country_re [] (re_sub region_re [] (py_lower s))))).
  { unfold normalize_title, non_alnum_re, spaces_re. cbv zeta.
    change (u " ") with [32]. rewrite !re_sub_plus_chr.
    f_equal. fold keeps.
    destruct (collapse_keeps_spaced
                (re_sub country_re [] (re_sub region_re [] (py_lower s))) false)
      as (H1 & H2 & _).
    by apply collapse_space_id. }
  split; [|split; [|split; [|split; [done|split; vm_compute; reflexivity]]]];
    rewrite E;
    set (s3 := collapse _ _ _ _);
    destruct (py_strip_infix s3) as ((pre & post & Hs3) & Hh & Hl).
  - destruct (collapse_keeps_spaced
                (re_sub country_re [] (re_sub region_re [] (py_lower s))) false)
      as (H1 & _). fold s3 in H1. rewrite Hs3 in H1.
    by apply spaced_app in H1 as [_ [H1 _]%spaced_app].
  - destruct (py_strip s3) as [|d r]; [done|]. by intros ->.
  - destruct (last (py_strip s3)) as [d|]; [|done]. by intros ->.
Qed.
End TitleSpacingTheorem.

(** ** What canonicalisation ignores *)

Section CanonicalInsensitive.
Context {L : PyLib}.

Lemma url_cleanup_idem (url : pystr) :
  url_cleanup (url_cleanup url) = url_cleanup url.
Proof. destruct (cleanup_props url) as [H1 H2]. by apply cleanup_id. Qed.

Lemma urlsplit_cleanup (url : pystr) : urlsplit (url_cleanup url) = urlsplit url.
Proof. unfold urlsplit. by rewrite url_cleanup_idem. Qed.

Lemma urlsplit_scheme_case (pre rest : pystr) :
  scheme_ok pre = true →
  urlsplit (map ascii_tolower pre ++ 58 :: rest) = urlsplit (pre ++ 58 :: rest).
Proof.
  intros Hok. destruct (scheme_ok_tolower pre Hok) as [Hok' Hl].
  unfold urlsplit.
  rewrite (url_cleanup_scheme pre rest Hok), (url_cleanup_scheme _ rest Hok').
  by rewrite (split_scheme_prefix pre _ Hok), (split_scheme_prefix _ _ Hok'), Hl.
Qed.

(** X19. The canonical form does not depend on the case of the scheme, nor on
    the spaces and control characters before the URL, nor on the tabs and
    line ends in it; the case of the host is kept, so that two spellings
    of one host give two canonical forms. *)
Theorem canonical_url_insensitive (url : pystr) :
  canonical_url (url_cleanup url) = canonical_url url
  ∧ (∀ pre rest, url = pre ++ 58 :: rest → scheme_ok pre = true →
       canonical_url (map ascii_tolower pre ++ 58 :: rest) = canonical_url url)
  ∧ canonical_url (u "  HTTPS://Example.com/a") = canonical_url (u "https://Example.com/a")
  ∧ @canonical_url toy_lib (u "https://Example.com/a")
    ≠ @canonical_url toy_lib (u "https://example.com/a").
Proof.
  split; [|split; [|split]].
  - by rewrite !canonical_url_eq, urlsplit_cleanup.
  - intros pre rest -> Hok. by rewrite !canonical_url_eq, urlsplit_scheme_case.
  - transitivity (canonical_url (url_cleanup (u "  HTTPS://Example.com/a"))).
    { rewrite !canonical_url_eq, urlsplit_cleanup. reflexivity. }
    replace (url_cleanup (u "  HTTPS://Example.com/a"))
      with (u "HTTPS" ++ 58 :: u "//Example.com/a") by (vm_compute; reflexivity).
    replace (u "https://Example.com/a")
      with (map ascii_tolower (u "HTTPS") ++ 58 :: u "//Example.com/a")
      by (vm_compute; reflexivity).
    rewrite !canonical_url_eq, urlsplit_scheme_case;
      [reflexivity | vm_compute; reflexivity].
  - vm_compute. intros [= H].
Qed.
End CanonicalInsensitive.

(** ** The index and refresh routes *)

Section IndexRoute.
Context {U : UnicodeData} {L : PyLib}.

Lemma sort_listings_raise_overflow (l : list Listing) (sort_key : pystr) (e : exn) :
  sort_listings l sort_key = Raise e → e = OverflowError.
Proof.
  unfold sort_listings, sort_choice.
  repeat match goal with
         | |- match (if ?b then _ else _) with _ => _ end = _ → _ => destruct b
         end;
    try discriminate;
    by intros (x & _ & [-> _]%safe_num_raises)%py_sorted_raise.
Qed.

(** X20. The index page shows the listings of the cache as the refresh before
    it left them, all of them and no other, in the order of the cache for
    the key "newest", for no key and for an unknown key; sorting never
    changes the cache. The page fails only when the refresh does or, with
    [OverflowError], when the sort does. The refresh route always starts
    with the search of Ray White and redirects when the refresh
    completes, the cache then holding the time of the request. *)
Theorem index_shows_cache (web : Web) (now : spec_float) (arg : option pystr)
    (c : Cache) (log : list call) :
  let r := index web now arg c log in
  let r0 := refresh_cache web now false c log in
  cache_after r = cache_after r0 ∧ log_after r = log_after r0
  ∧ (∀ resp, outcome r = Ok resp →
       outcome r0 = Ok ()
       ∧ ∃ ls, resp = IndexPage ls (sort_arg arg)
               ∧ ls ≡ₚ listings (cache_after r)
               ∧ (sort_arg arg = u "newest" ∨ sort_arg arg ∉ recognized_keys →
                  ls = listings (cache_after r)))
  ∧ (∀ e, outcome r = Raise e → outcome r0 = Raise e ∨ e = OverflowError)
  ∧ (∃ calls, log_after (refresh web now c log) = calls ++ CallSearch raywhite :: log)
  ∧ (∀ resp, outcome (refresh web now c log) = Ok resp →
       resp = RedirectToIndex ∧ ts (cache_after (refresh web now c log)) = now).
Proof.
  cbv zeta. unfold index, refresh, outcome, cache_after, log_after.
  split; [|split; [|split; [|split; [|split]]]].
  - destruct (refresh_cache web now false c log) as [[[[]|e] c1] log1]; [|done].
    by destruct (sort_listings _ _).
  - destruct (refresh_cache web now false c log) as [[[[]|e] c1] log1]; [|done].
    by destruct (sort_listings _ _).
  - intros resp. destruct (refresh_cache web now false c log) as [[[[]|e] c1] log1];
      [|discriminate].
    destruct (sort_listings (listings c1) (sort_arg arg)) as [ls|e] eqn:Hs;
      [|discriminate].
    cbn. intros [= <-]. split; [done|]. exists ls. split; [done|].
    split; [by eapply sort_listings_perm|].
    intros Hk%sort_choice_none. unfold sort_listings in Hs. rewrite Hk in Hs.
    by injection Hs.
  - intros e. destruct (refresh_cache web now false c log) as [[[[]|e0] c1] log1];
      [|cbn; intros [= <-]; by left].
    destruct (sort_listings (listings c1) (sort_arg arg)) as [ls|e1] eqn:Hs;
      [discriminate|].
    cbn. intros [= <-]. right. by eapply sort_listings_raise_overflow.
  - destruct (process_sources_first web raywhite [domain; rea] [] log) as [calls Hc].
    exists calls. unfold refresh_cache. cbn [negb andb].
    fold the_sources in Hc.
    destruct (process_sources web the_sources [] log) as [[combined|e] log1];
      cbn in Hc |- *; exact Hc.
  - intros resp. unfold refresh_cache. cbn [negb andb].
    destruct (process_sources web the_sources [] log) as [[combined|e] log1];
      cbn; [|discriminate].
    by intros [= <-].
Qed.
End IndexRoute.

(** ** What the matcher returns is a match *)

Section MatcherSound.
Context {U : UnicodeData}.

Lemma cap_of_mono (r r' : regex) (new : list (nat * pystr)) :
  (∀ j b, has_group r j b → has_group r' j b) →
  Forall (cap_of r) new → Forall (cap_of r') new.
Proof.
  intros Hg HF. eapply Forall_impl; [exact HF|].
  intros p (b & Hb & Hm). exists b. split; [by apply Hg|done].
Qed.

Lemma consumed_app (st st' : mstate) (w : pystr) :
  ms_rest st = w ++ ms_rest st' → consumed st st' = w.
Proof.
  intros E. unfold consumed. rewrite E, length_app.
  replace (length w + length (ms_rest st') - length (ms_rest st'))%nat
    with (length w) by lia.
  by rewrite take_app_length.
Qed.

Lemma star_loop_sound {R : Type} (r : regex) :
  sound_for (R := R) r (rmatch r) →
  ∀ fuel, sound_for (R := R) (Star r) (fun st k => star_loop (rmatch r) k fuel st).
Proof.
  intros Hr. induction fuel as [|f IH]; intros st k x H; cbn [star_loop] in H.
  - exists st, [], []. repeat split; try done. constructor.
  - destruct (rmatch r st _) as [y|] eqn:Hb.
    + injection H as ->. apply Hr in Hb as (st1 & w1 & new1 & E1 & M1 & C1 & F1 & K1).
      destruct (length (ms_rest st1) <? length (ms_rest st))%nat; [|discriminate].
      apply IH in K1 as (st2 & w2 & new2 & E2 & M2 & C2 & F2 & K2).
      exists st2, (w1 ++ w2), (new2 ++ new1). repeat split.
      * by rewrite E1, E2, app_assoc.
      * by constructor.
      * by rewrite C2, C1, app_assoc.
      * apply Forall_app. split; [done|].
        eapply cap_of_mono; [|exact F1]. intros j b. apply hg_star.
      * done.
    + exists st, [], []. repeat split; try done. constructor.
Qed.

Lemma rmatch_sound {R : Type} (r : regex) : sound_for (R := R) r (rmatch r).
Proof.
  induction r as [|p|r1 IH1 r2 IH2|r1 IH1 r2 IH2|r1 IH1|i r1 IH1|];
    intros st k x H; cbn [rmatch] in H.
  - exists st, [], []. repeat split; try done. constructor.
  - destruct st as [prev [|c t] caps]; cbn [ms_rest ms_caps] in H; [discriminate|].
    destruct (p c) eqn:Hp; [|discriminate].
    exists (MState (Some c) t caps), [c], []. repeat split; try done.
    by constructor.
  - apply IH1 in H as (st1 & w1 & new1 & E1 & M1 & C1 & F1 & K1).
    apply IH2 in K1 as (st2 & w2 & new2 & E2 & M2 & C2 & F2 & K2).
    exists st2, (w1 ++ w2), (new2 ++ new1). repeat split.
    + by rewrite E1, E2, app_assoc.
    + by constructor.
    + by rewrite C2, C1, app_assoc.
    + apply Forall_app. split.
      * eapply cap_of_mono; [|exact F2]. intros j b. apply hg_seq_r.
      * eapply cap_of_mono; [|exact F1]. intros j b. apply hg_seq_l.
    + done.
  - destruct (rmatch r1 st k) as [y|] eqn:H1.
    + injection H as ->. apply IH1 in H1 as (st1 & w1 & new1 & E1 & M1 & C1 & F1 & K1).
      exists st1, w1, new1. repeat split; try done.
      * by apply m_alt_l.
      * eapply cap_of_mono; [|exact F1]. intros j b. apply hg_alt_l.
    + apply IH2 in H as (st1 & w1 & new1 & E1 & M1 & C1 & F1 & K1).
      exists st1, w1, new1. repeat split; try done.
      * by apply m_alt_r.
      * eapply cap_of_mono; [|exact F1]. intros j b. apply hg_alt_r.
  - by apply (star_loop_sound r1 IH1 (length (ms_rest st))) in H.
  - apply IH1 in H as (st1 & w1 & new1 & E1 & M1 & C1 & F1 & K1).
    exists (set_cap i st st1), w1, ((i, w1) :: new1). repeat split.
    + done.
    + by constructor.
    + unfold set_cap. cbn [ms_caps]. by rewrite (consumed_app _ _ _ E1), C1.
    + constructor.
      * exists r1. split; [constructor|done].
      * eapply cap_of_mono; [|exact F1]. intros j b. apply hg_group.
    + done.
  - destruct (xorb _ _); [|discriminate].
    exists st, [], []. repeat split; try done. constructor.
Qed.

Lemma match_here_sound (r : regex) (prev : option N) (s : pystr) (st' : mstate) :
  match_here r false prev s = Some st' →
  s = take (length s - length (ms_rest st')) s ++ ms_rest st'
  ∧ matches r (take (length s - length (ms_rest st')) s)
  ∧ Forall (cap_of r) (ms_caps st').
Proof.
  unfold match_here. intros Hm.
  apply rmatch_sound in Hm as (st1 & w & new & E & M & C & F & K).
  cbn [andb] in K. injection K as ->. cbn [ms_rest ms_caps] in E, C.
  subst s. rewrite length_app.
  replace (length w + length (ms_rest st') - length (ms_rest st'))%nat
    with (length w) by lia.
  rewrite take_app_length, C, app_nil_r. done.
Qed.

Lemma search_from_sound (r : regex) (s : pystr) :
  ∀ (before : pystr) (prev : option N) (m : rematch),
    search_from r before prev s = Some m →
    reverse before ++ s = m_before m ++ m_group0 m ++ m_after m
    ∧ matches r (m_group0 m) ∧ Forall (cap_of r) (m_caps m).
Proof.
  induction s as [|c t IH]; intros before prev m H; cbn [search_from] in H.
  - destruct (match_here r false prev []) as [st'|] eqn:Hm; [|discriminate].
    injection H as <-. cbn [m_before m_group0 m_after m_caps].
    apply match_here_sound in Hm as (H1 & H2 & H3).
    split; [by f_equal|done].
  - destruct (match_here r false prev (c :: t)) as [st'|] eqn:Hm.
    + injection H as <-. cbn [m_before m_group0 m_after m_caps].
      apply match_here_sound in Hm as (H1 & H2 & H3).
    split; [by f_equal|done].
    + apply IH in H as (H1 & H2 & H3). split; [|done].
      rewrite <- H1, reverse_cons, <- app_assoc. done.
Qed.

(** [re.search]: the text is cut into what stands before the match, the
    match and what stands after it; the pattern matches the match, and
    every group holds a text that a group of that number matches. *)
Lemma re_search_sound (r : regex) (s : pystr) (m : rematch) :
  re_search r s = Some m →
  s = m_before m ++ m_group0 m ++ m_after m
  ∧ matches r (m_group0 m)
  ∧ ∀ i g, group m i = Some g → ∃ b, has_group r i b ∧ matches b g.
Proof.
  intros H. apply search_from_sound in H as (H1 & H2 & H3).
  split; [exact H1|]. split; [exact H2|].
  intros i g. unfold group. induction H3 as [|[j t] caps Hc _ IH]; cbn [get_cap];
    [discriminate|].
  destruct (Nat.eqb_spec i j) as [->|_]; [|exact IH].
  intros [= <-]. exact Hc.
Qed.

Lemma matches_star_chr (p : N → bool) (w : pystr) :
  matches (Star (Chr p)) w → Forall (fun c => p c = true) w.
Proof.
  intros H. remember (Star (Chr p)) as r eqn:Er.
  induction H as [| | | | | |r0 a b Ha _ Hb IHb| |]; try discriminate; [done|].
  injection Er as ->. apply Forall_app. split; [|by apply IHb].
  inversion Ha; subst. by constructor.
Qed.

Lemma matches_plus_chr (p : N → bool) (w : pystr) :
  matches (plus (Chr p)) w → w ≠ [] ∧ Forall (fun c => p c = true) w.
Proof.
  unfold plus. intros H. inversion H as [| |r1 r2 a b Ha Hb| | | | | |]; subst.
  inversion Ha; subst. apply matches_star_chr in Hb. split; [done|].
  by constructor.
Qed.
End MatcherSound.

(** ** The suburb and postcode of a title *)

Section SuburbFacts.
Context {U : UnicodeData} {D : UnicodeDigits}.

Lemma has_group_lits (s : pystr) (i : nat) (b : regex) : ¬ has_group (lits s) i b.
Proof.
  induction s as [|c t IH]; cbn [lits]; intros H; inversion H; subst.
  - match goal with H : has_group (lit _) _ _ |- _ => inversion H end.
  - by apply IH.
Qed.

Lemma matches_lits (s w : pystr) : matches (lits s) w → w = s.
Proof.
  revert w. induction s as [|c t IH]; cbn [lits]; intros w H; inversion H; subst.
  - done.
  - match goal with
    | H : matches (lit _) _ |- _ => inversion H as [|p x Hx| | | | | | |]; subst
    end.
    apply N.eqb_eq in Hx as ->. cbn [app]. f_equal. by apply IH.
Qed.

Lemma suburb_re_groups (i : nat) (b : regex) :
  has_group suburb_re i b →
  (i = 1%nat ∧ b = plus (Chr suburb_char)) ∨ (i = 2%nat ∧ b = four_digits).
Proof.
  unfold suburb_re. intros H.
  repeat match goal with
         | H : has_group (lits _) _ _ |- _ => by apply has_group_lits in H
         | H : has_group (Seq _ _) _ _ |- _ => inversion H; subst; clear H
         | H : has_group (Alt _ _) _ _ |- _ => inversion H; subst; clear H
         | H : has_group (Star _) _ _ |- _ => inversion H; subst; clear H
         | H : has_group (Group _ _) _ _ |- _ => inversion H; subst; clear H
         | H : has_group (Chr _) _ _ |- _ => inversion H
         | H : has_group Eps _ _ |- _ => inversion H
         | H : has_group WordB _ _ |- _ => inversion H
         | H : has_group (plus _) _ _ |- _ => unfold plus in H
         | H : has_group (opt _) _ _ |- _ => unfold opt in H
         | H : has_group (lit _) _ _ |- _ => unfold lit in H
         | H : has_group four_digits _ _ |- _ => unfold four_digits in H
         end; auto.
Qed.

Lemma matches_four_digits (w : pystr) :
  matches four_digits w →
  length w = 4%nat ∧ Forall (fun c => py_isdecimal c = true) w.
Proof.
  unfold four_digits. intros H.
  repeat match goal with
         | H : matches (Seq _ _) _ |- _ => inversion H; subst; clear H
         | H : matches (Chr _) _ |- _ => inversion H; subst; clear H
         end.
  split; [done|]. by repeat constructor.
Qed.

Lemma matches_Seq_inv (r1 r2 : regex) (w : pystr) :
  matches (Seq r1 r2) w → ∃ a b, w = a ++ b ∧ matches r1 a ∧ matches r2 b.
Proof. intros H. inversion H; subst. by eexists _, _. Qed.

Lemma matches_Alt_inv (r1 r2 : regex) (w : pystr) :
  matches (Alt r1 r2) w → matches r1 w ∨ matches r2 w.
Proof. intros H. inversion H; subst; [by left|by right]. Qed.

(* the text between the suburb and the postcode holds the name of the
   state as the pattern spells it *)
Lemma matches_suburb_re (w : pystr) :
  matches suburb_re w →
  ∃ pre post, w = pre ++ u "QLD" ++ post ∨ w = pre ++ u "Queensland" ++ post.
Proof.
  unfold suburb_re.
  intros (w1 & r1 & -> & _ & H)%matches_Seq_inv.
  apply matches_Seq_inv in H as (w2 & r2 & -> & _ & H).
  apply matches_Seq_inv in H as (w3 & r3 & -> & _ & H).
  apply matches_Seq_inv in H as (w4 & r4 & -> & H & _).
  exists (w1 ++ w2 ++ w3), r4.
  apply matches_Alt_inv in H as [->%matches_lits| ->%matches_lits];
    [left|right]; by rewrite <- !app_assoc.
Qed.

Lemma collapse_isspace_spaced (s : pystr) :
  ∀ b, let r := collapse py_isspace [32] b s in
    spaced r = true
    ∧ Forall (fun c => c = 32 ∨ (c ∈ s ∧ py_isspace c = false)) r
    ∧ (b = true → match r with d :: _ => d ≠ 32 | [] => True end).
Proof.
  induction s as [|c t IH]; intros b; [done|]. cbn [collapse].
  assert (Hin : ∀ r, Forall (fun x => x = 32 ∨ (x ∈ t ∧ py_isspace x = false)) r →
                     Forall (fun x => x = 32 ∨ (x ∈ c :: t ∧ py_isspace x = false)) r).
  { intros r Hr. eapply Forall_impl; [exact Hr|].
    intros x [->|[Hx Hs]]; [by left|]. right. split; [by right|done]. }
  destruct (py_isspace c) eqn:Hc.
  - destruct (IH true) as (H1 & H2 & H3). specialize (H3 eq_refl).
    destruct b; cbn [app].
    + split; [done|]. split; [by apply Hin|done].
    + split; [|split; [|done]].
      * cbn [spaced]. rewrite H1.
        destruct (collapse _ _ true t) as [|d r']; [done|].
        by destruct (N.eqb_spec d 32).
      * constructor; [by left|by apply Hin].
  - destruct (IH false) as (H1 & H2 & _).
    assert (Hne : c ≠ 32) by (intros ->; discriminate Hc).
    split; [|split].
    + cbn [spaced]. rewrite H1. by destruct (N.eqb_spec c 32).
    + constructor; [right; split; [by left|done]|by apply Hin].
    + done.
Qed.
End SuburbFacts.

Section SuburbTheorem.
Context {U : UnicodeData} {D : UnicodeDigits}.

(** X21. What [extract_suburb_postcode_from_title] returns is a suburb, one
    space and a postcode of exactly four decimal digits. The suburb is
    made of ASCII letters, apostrophes, hyphens and single spaces, with no
    space at either end, and may be empty. A title gives a result only
    when it holds "QLD" or "Queensland" spelt so. *)
Theorem extract_suburb_postcode_shape (title : option pystr) (r : pystr) :
  extract_suburb_postcode_from_title title = Some r →
  ∃ t suburb postcode,
    title = Some t ∧ r = suburb ++ 32 :: postcode
    ∧ length postcode = 4%nat
    ∧ Forall (fun c => py_isdecimal c = true) postcode
    ∧ Forall (fun c => c = 32 ∨ is_ascii_alpha c = true ∨ c = 39 ∨ c = 45) suburb
    ∧ spaced suburb = true
    ∧ match suburb with d :: _ => d ≠ 32 | [] => True end
    ∧ match last suburb with Some d => d ≠ 32 | None => True end
    ∧ (py_in (u "QLD") t = true ∨ py_in (u "Queensland") t = true).
Proof.
  unfold extract_suburb_postcode_from_title.
  destruct title as [[|c0 t0]|]; cbn [truthy]; try discriminate.
  set (t := c0 :: t0).
  destruct (re_search suburb_re t) as [m|] eqn:Hs; [|discriminate].
  destruct (group m 1) as [g1|] eqn:H1; [|discriminate].
  destruct (group m 2) as [g2|] eqn:H2; [|discriminate].
  cbv zeta. intros [= <-].
  apply re_search_sound in Hs as (Ht & Hm & Hg).
  destruct (Hg _ _ H1) as (b1 & [[_ ->]|[? _]]%suburb_re_groups & M1); [|done].
  destruct (Hg _ _ H2) as (b2 & [[? _]|[_ ->]]%suburb_re_groups & M2); [done|].
  apply matches_plus_chr in M1 as [_ M1].
  apply matches_four_digits in M2 as [L2 F2].
  exists t, (py_strip (re_sub spaces_re (u " ") g1)), g2.
  unfold spaces_re. change (u " ") with [32]. rewrite re_sub_plus_chr.
  set (s3 := collapse py_isspace [32] false g1).
  destruct (collapse_isspace_spaced g1 false) as (S1 & S2 & _). fold s3 in S1, S2.
  destruct (py_strip_infix s3) as ((pre & post & Hs3) & Hh & Hl).
  repeat split; try done.
  - apply Forall_forall. intros x Hx.
    assert (Hx3 : x ∈ s3).
    { rewrite Hs3. apply elem_of_app. right. apply elem_of_app. by left. }
    rewrite Forall_forall in S2, M1.
    destruct (S2 x Hx3) as [->|[Hin Hsp]]; [by left|]. right.
    specialize (M1 x Hin). unfold suburb_char in M1. rewrite Hsp in M1.
    rewrite orb_false_r in M1.
    apply orb_true_iff in M1 as [[M1|M1]%orb_true_iff|M1].
    + by left.
    + right. left. by apply N.eqb_eq.
    + right. right. by apply N.eqb_eq.
  - rewrite Hs3 in S1. by apply spaced_app in S1 as [_ [S1 _]%spaced_app].
  - destruct (py_strip s3) as [|d r]; [done|]. by intros ->.
  - destruct (last (py_strip s3)) as [d|]; [|done]. by intros ->.
  - apply matches_suburb_re in Hm as (p1 & p2 & [E|E]); [left|right];
      apply py_in_spec; rewrite Ht, E;
      exists (m_before m ++ p1), (p2 ++ m_after m); by rewrite <- !app_assoc.
Qed.
End SuburbTheorem.

Lemma extract_suburb_postcode_shape_witness :
  ∃ t suburb postcode,
    Some (u "5 Example St, Gladstone QLD 4680") = Some t
    ∧ u "Gladstone 4680" = suburb ++ 32 :: postcode
    ∧ length postcode = 4%nat
    ∧ Forall (fun c => @py_isdecimal ascii_digits c = true) postcode
    ∧ Forall (fun c => c = 32 ∨ is_ascii_alpha c = true ∨ c = 39 ∨ c = 45) suburb
    ∧ spaced suburb = true
    ∧ match suburb with d :: _ => d ≠ 32 | [] => True end
    ∧ match last suburb with Some d => d ≠ 32 | None => True end
    ∧ (py_in (u "QLD") t = true ∨ py_in (u "Queensland") t = true).
Proof.
  apply (@extract_suburb_postcode_shape ascii_only ascii_digits
           (Some (u "5 Example St, Gladstone QLD 4680")) (u "Gladstone 4680")).
  vm_compute. reflexivity.
Defined.

(** The suburb is what stands between the last comma or digit and the
    state; it is empty when only a space stands there; a postcode of five
    digits, a state in lower case and a title without a text before the
    state give nothing. *)
Example extract_suburb_postcode_examples :
  let f := @extract_suburb_postcode_from_title ascii_only ascii_digits in
  f (Some (u "5 Example St, Gladstone QLD 4680")) = Some (u "Gladstone 4680")
  ∧ f (Some (u "West  Gladstone,Queensland4680")) = Some (u "West Gladstone 4680")
  ∧ f (Some (u "12 QLD 4680")) = Some (u " 4680")
  ∧ f (Some (u "Gladstone QLD 46801")) = None
  ∧ f (Some (u "Gladstone qld 4680")) = None
  ∧ f (Some (u "QLD 4680")) = None
  ∧ f (Some []) = None ∧ f None = None.
Proof. repeat split; vm_compute; reflexivity. Qed.

(** ** [first_match] *)

Section FirstMatchFacts.
Context {U : UnicodeData}.

Lemma get_cap_app_l (i : nat) (a b : list (nat * pystr)) :
  is_Some (get_cap i a) → is_Some (get_cap i (a ++ b)).
Proof.
  induction a as [|[j t] a IH]; cbn [get_cap app]; [by intros [? ?]|].
  by destruct (Nat.eqb i j).
Qed.

Lemma get_cap_app_r (i : nat) (a b : list (nat * pystr)) :
  is_Some (get_cap i b) → is_Some (get_cap i (a ++ b)).
Proof.
  intros H. induction a as [|[j t] a IH]; cbn [get_cap app]; [done|].
  by destruct (Nat.eqb i j).
Qed.

(** A group that is on every way through the pattern is set when the
    pattern has matched. *)
Lemma rmatch_sets {R : Type} (i : nat) (r : regex) :
  ∀ (st : mstate) (k : mstate → option R) (x : R),
    rmatch r st k = Some x →
    ∃ st' new,
      ms_caps st' = new ++ ms_caps st
      ∧ (sets_group r i = true → is_Some (get_cap i new))
      ∧ k st' = Some x.
Proof.
  induction r as [|p|r1 IH1 r2 IH2|r1 IH1 r2 IH2|r1 IH1|j r1 IH1|];
    intros st k x H.
  - exists st, []. by cbn in *.
  - apply rmatch_sound in H as (st1 & w & new & _ & _ & C & _ & K).
    by exists st1, new.
  - cbn [rmatch] in H.
    apply IH1 in H as (st1 & new1 & C1 & S1 & K1).
    apply IH2 in K1 as (st2 & new2 & C2 & S2 & K2).
    exists st2, (new2 ++ new1). split; [by rewrite C2, C1, app_assoc|].
    split; [|done]. cbn [sets_group]. intros [Hs|Hs]%orb_true_iff.
    + by apply get_cap_app_r, S1.
    + by apply get_cap_app_l, S2.
  - cbn [rmatch] in H. destruct (rmatch r1 st k) as [y|] eqn:H1.
    + injection H as ->. apply IH1 in H1 as (st1 & new1 & C1 & S1 & K1).
      exists st1, new1. split; [done|]. split; [|done].
      cbn [sets_group]. intros [Hs _]%andb_true_iff. by apply S1.
    + apply IH2 in H as (st1 & new1 & C1 & S1 & K1).
      exists st1, new1. split; [done|]. split; [|done].
      cbn [sets_group]. intros [_ Hs]%andb_true_iff. by apply S1.
  - apply rmatch_sound in H as (st1 & w & new & _ & _ & C & _ & K).
    by exists st1, new.
  - cbn [rmatch] in H. apply IH1 in H as (st1 & new1 & C1 & S1 & K1).
    exists (set_cap j st st1), ((j, consumed st st1) :: new1).
    split; [unfold set_cap; cbn [ms_caps]; by rewrite C1|]. split; [|done].
    cbn [sets_group get_cap]. destruct (Nat.eqb i j); [by eexists|].
    cbn [orb]. exact S1.
  - apply rmatch_sound in H as (st1 & w & new & _ & _ & C & _ & K).
    by exists st1, new.
Qed.

Lemma re_search_sets (r : regex) (s : pystr) (m : rematch) (i : nat) :
  re_search r s = Some m → sets_group r i = true → is_Some (group m i).
Proof.
  unfold re_search. generalize (@nil N) (@None N).
  induction s as [|c t IH]; intros before prev H Hs; cbn [search_from] in H.
  - destruct (match_here r false prev []) as [st'|] eqn:Hm; [|discriminate].
    injection H as <-. unfold group. cbn [m_caps]. unfold match_here in Hm.
    apply (rmatch_sets i) in Hm as (st1 & new & C & S & K).
    cbn [andb] in K. injection K as ->. rewrite C. by apply get_cap_app_l, S.
  - destruct (match_here r false prev (c :: t)) as [st'|] eqn:Hm.
    + injection H as <-. unfold group. cbn [m_caps]. unfold match_here in Hm.
      apply (rmatch_sets i) in Hm as (st1 & new & C & S & K).
      cbn [andb] in K. injection K as ->. rewrite C. by apply get_cap_app_l, S.
    + by eapply IH.
Qed.

Lemma matches_upto_chr (p : N → bool) (n : nat) :
  ∀ w, matches (upto n (Chr p)) w →
    (length w ≤ n)%nat ∧ Forall (fun c => p c = true) w.
Proof.
  induction n as [|n IH]; intros w H; cbn [upto] in H.
  - inversion H; subst. by split.
  - apply matches_Alt_inv in H as [H|H].
    + apply matches_Seq_inv in H as (a & b & -> & Ha & Hb).
      inversion Ha; subst. destruct (IH _ Hb) as [Hl Hf].
      split; [cbn; lia|by constructor].
    + inversion H; subst. split; [cbn; lia|done].
Qed.

Lemma has_group_upto_chr (p : N → bool) (n i : nat) (b : regex) :
  ¬ has_group (upto n (Chr p)) i b.
Proof.
  induction n as [|n IH]; cbn [upto]; intros H; inversion H; subst.
  - match goal with H : has_group (Seq _ _) _ _ |- _ => inversion H; subst end;
      [match goal with H : has_group (Chr _) _ _ |- _ => inversion H end
      |by apply IH].
  - match goal with H : has_group Eps _ _ |- _ => inversion H end.
Qed.
End FirstMatchFacts.

Section FirstMatchTheorem.
Context {U : UnicodeData}.

Lemma has_group_Seq_inv (r1 r2 : regex) (i : nat) (b : regex) :
  has_group (Seq r1 r2) i b → has_group r1 i b ∨ has_group r2 i b.
Proof. intros H. inversion H; subst; [by left|by right]. Qed.

Lemma has_group_Group_inv (j : nat) (r : regex) (i : nat) (b : regex) :
  has_group (Group j r) i b → (i = j ∧ b = r) ∨ has_group r i b.
Proof. intros H. inversion H; subst; [by left|by right]. Qed.

Lemma land_re_group (i : nat) (b : regex) :
  has_group land_re i b →
  i = 1%nat ∧ b = upto 120 (Chr (fun c => negb (c =? 10))).
Proof.
  unfold land_re.
  intros [H|H]%has_group_Seq_inv; [inversion H|].
  apply has_group_Seq_inv in H as [H|H]; [by apply has_group_lits in H|].
  apply has_group_Seq_inv in H as [H|H].
  { inversion H; subst.
    match goal with H : has_group (Chr _) _ _ |- _ => inversion H end. }
  apply has_group_Group_inv in H as [H|H]; [done|].
  by apply has_group_upto_chr in H.
Qed.

Lemma sets_group_defines (r : regex) (i : nat) :
  sets_group r i = true → defines_group r i = true.
Proof.
  induction r; cbn [sets_group defines_group]; try discriminate.
  - intros [H|H]%orb_true_iff; apply orb_true_iff; by auto.
  - intros [H _]%andb_true_iff. apply orb_true_iff. by auto.
  - intros [H|H]%orb_true_iff; apply orb_true_iff; by auto.
Qed.

Lemma defines_group_spec (r : regex) (i : nat) :
  defines_group r i = true ↔ ∃ b, has_group r i b.
Proof.
  split.
  - induction r; cbn [defines_group]; try discriminate.
    + intros [H|H]%orb_true_iff.
      * destruct (IHr1 H) as [b Hb]. exists b. by apply hg_seq_l.
      * destruct (IHr2 H) as [b Hb]. exists b. by apply hg_seq_r.
    + intros [H|H]%orb_true_iff.
      * destruct (IHr1 H) as [b Hb]. exists b. by apply hg_alt_l.
      * destruct (IHr2 H) as [b Hb]. exists b. by apply hg_alt_r.
    + intros H. destruct (IHr H) as [b Hb]. exists b. by apply hg_star.
    + intros [->%Nat.eqb_eq|H]%orb_true_iff.
      * eexists. apply hg_here.
      * destruct (IHr H) as [b Hb]. exists b. by apply hg_group.
  - intros [b H]. induction H; cbn [defines_group];
      rewrite ?Nat.eqb_refl, ?IHhas_group, ?orb_true_r; done.
Qed.

(** X22. [first_match] answers [None] exactly when the pattern is found
    nowhere. When the pattern is found it raises in two cases only: with
    the [IndexError] of [m.group(1)] when the pattern has no group 1, and
    with the [AttributeError] of [None.strip()] when it has one and group
    1 took no part in the match, which cannot be for a pattern that sets
    group 1 on every way. What it returns is a text that group 1 matches,
    stripped: it neither starts nor ends with white space. For the land
    pattern of the Ray White pages it never raises, and the result has at
    most 120 characters and holds no line feed. *)
Theorem first_match_spec (pattern : regex) (text : pystr) :
  (first_match pattern text = Ok None ↔ re_search pattern text = None)
  ∧ (sets_group pattern 1 = true → ∃ r, first_match pattern text = Ok r)
  ∧ ((∀ b, ¬ has_group pattern 1 b) → re_search pattern text ≠ None →
       first_match pattern text = Raise IndexError)
  ∧ (∀ e, first_match pattern text = Raise e →
       (e = IndexError ∧ ∀ b, ¬ has_group pattern 1 b)
       ∨ (e = AttributeError ∧ (∃ b, has_group pattern 1 b)
          ∧ sets_group pattern 1 = false
          ∧ ∃ m, re_search pattern text = Some m ∧ group m 1 = None))
  ∧ (∀ g, first_match pattern text = Ok (Some g) →
       (∃ b w, has_group pattern 1 b ∧ matches b w ∧ g = py_strip w)
       ∧ match g with d :: _ => py_isspace d = false | [] => True end
       ∧ match last g with Some d => py_isspace d = false | None => True end)
  ∧ (∃ r, first_match land_re text = Ok r)
  ∧ (∀ g, first_match land_re text = Ok (Some g) → (length g ≤ 120)%nat ∧ 10 ∉ g)
  ∧ first_match (Alt (Group 1 (lit 97)) (lit 98)) [98] = Raise AttributeError
  ∧ first_match (lit 98) [98] = Raise IndexError
  ∧ IndexError ≠ AttributeError.
Proof.
  assert (Hset : ∀ p, sets_group p 1 = true → ∃ r, first_match p text = Ok r).
  { intros p Hs. unfold first_match.
    destruct (re_search p text) as [m|] eqn:Hm; [|by eexists].
    rewrite (sets_group_defines p 1 Hs).
    destruct (re_search_sets p text m 1 Hm Hs) as [g ->]. by eexists. }
  assert (Hres : ∀ p g, first_match p text = Ok (Some g) →
            ∃ b w, has_group p 1 b ∧ matches b w ∧ g = py_strip w).
  { intros p g. unfold first_match.
    destruct (re_search p text) as [m|] eqn:Hm; [|discriminate].
    destruct (defines_group p 1); [|discriminate].
    destruct (group m 1) as [w|] eqn:Hg; [|discriminate].
    intros [= <-]. apply re_search_sound in Hm as (_ & _ & Hc).
    destruct (Hc 1%nat w Hg) as (b & Hb & Hw). by exists b, w. }
  split; [|split; [exact (Hset pattern)|
           split; [|split; [|split; [|split; [|split; [|split; [|split]]]]]]]].
  - unfold first_match. destruct (re_search pattern text) as [m|]; [|done].
    destruct (defines_group pattern 1); [|done]. by destruct (group m 1).
  - intros H0 Hm. unfold first_match.
    destruct (re_search pattern text) as [m|]; [|done].
    destruct (defines_group pattern 1) eqn:Hd; [|done].
    apply defines_group_spec in Hd as [b Hb]. by destruct (H0 b).
  - intros e. unfold first_match.
    destruct (re_search pattern text) as [m|] eqn:Hm; [|discriminate].
    destruct (defines_group pattern 1) eqn:Hd.
    + destruct (group m 1) as [w|] eqn:Hg; [discriminate|].
      intros [= <-]. right. split; [done|].
      split; [by apply defines_group_spec|]. split; [|by exists m].
      destruct (sets_group pattern 1) eqn:Hs; [|done].
      destruct (re_search_sets pattern text m 1 Hm Hs) as [g Hg']. congruence.
    + intros [= <-]. left. split; [done|]. intros b Hb.
      assert (defines_group pattern 1 = true)
        by (apply defines_group_spec; by exists b).
      congruence.
  - intros g Hg. split; [by apply Hres|].
    destruct (Hres _ _ Hg) as (b & w & _ & _ & ->).
    by destruct (py_strip_infix w) as (_ & Hh & Hl).
  - by apply Hset.
  - intros g (b & w & [_ ->]%land_re_group & Hw & ->)%Hres.
    apply matches_upto_chr in Hw as [Hl Hf].
    destruct (py_strip_infix w) as ((pre & post & Hw) & _).
    split.
    + rewrite Hw, !length_app in Hl. lia.
    + intros Hin. rewrite Forall_forall in Hf.
      assert (Hin' : 10 ∈ w).
      { rewrite Hw. apply elem_of_app. right. apply elem_of_app. by left. }
      by specialize (Hf 10 Hin').
  - vm_compute. reflexivity.
  - vm_compute. reflexivity.
  - discriminate.
Qed.
End FirstMatchTheorem.

(** The land text of a page: the rest of the line after "Land:", white
    space at its ends apart; the white space before it may hold line
    ends; an empty rest gives the empty text, not [None]. *)
Example first_match_land_examples :
  @first_match ascii_only land_re (u "Address" ++ 10 :: u "Land: 1012 m2 " ++ 10 :: u "Floor")
  = Ok (Some (u "1012 m2"))
  ∧ @first_match ascii_only land_re (u "Land:") = Ok (Some [])
  ∧ @first_match ascii_only land_re (u "Island: 3") = Ok None
  ∧ @first_match ascii_only land_re (u "Land:" ++ 10 :: 10 :: u " Next line")
    = Ok (Some (u "Next line")).
Proof. repeat split; vm_compute; reflexivity. Qed.
